(** * EstimNetDirected: the Equilibrium Expectation engine and the IFD sampler

    A shallow embedding of

    - [src/equilibriumExpectation.c]: [algorithm_S], [algorithm_EE],
      [ee_estimate], [do_estimation];
    - [src/simulation.c]: [simulate_ergm], [do_simulation];
    - [src/EstimNetDirectedMain.c]: [main];
    - [src/ifdSampler.c]: [ifdSampler];
    - [src/changeStatisticsUndirected.c]: [changeEdge], [changeAltStars],
      [changeAltTwoPaths], [changeAltKTriangles], [changeActivity].

    C [double]s are IEEE binary64 values, here Rocq's primitive [float]s, so
    that infinities and NaN behave as they do in the program.  [uint_t] loop
    bounds are [nat].  The graph, the process-wide pseudo-random number
    generator and [static] variables are threaded explicitly.

    The lines of the theta file and of the dzA file are modelled beside the
    algorithms that write them (module [Output]).  Left out of the model:
    the banners the functions print, the timing calls, and [arcCorrection],
    whose value is only printed.

    Part I holds the model, Part II the theorems. *)

From Stdlib Require Import Floats ZArith List Bool Lia Permutation.
From Stdlib Require Import Ascii String.
Import ListNotations.

Set Implicit Arguments.

(* ================================================================= *)
(** * Part I: the model *)
(* ================================================================= *)

(* ----------------------------------------------------------------- *)
(** ** C doubles and arrays *)

Module CDouble.

(** C99 [isinf]: true on the two infinities only, false on NaN. *)
Definition isinf (x : float) : bool := is_infinity x.

(** C99 [isfinite]: neither an infinity nor NaN. *)
Definition isfinite (x : float) : bool := is_finite x.

Definition fabs (x : float) : float := PrimFloat.abs x.

(** Conversion of a [uint_t] to [double] (exact: [uint_t] has 32 bits). *)
Definition of_uint (n : nat) : float :=
  PrimFloat.of_uint63 (Uint63.of_Z (Z.of_nat n)).

(** Conversion of an [int] to [double]. *)
Definition of_int (z : Z) : float :=
  if (z <? 0)%Z then PrimFloat.opp (PrimFloat.of_uint63 (Uint63.of_Z (- z)))
  else PrimFloat.of_uint63 (Uint63.of_Z z).

(** Modelled from the spec: the [MAX] macro of [utils.h], which is not among
    the sources; section 4.6 writes [max(|theta_l|, minTheta)]. *)
Definition MAX (a b : float) : float := if (b <? a)%float then a else b.

(** [a[l]] for an array of doubles. *)
Definition at_ (a : list float) (l : nat) : float := nth l a 0%float.

(** The array built by [for (l = 0; l < n; l++) a[l] = f(l);]. *)
Definition tabulate (A : Type) (n : nat) (f : nat -> A) : list A :=
  map f (seq 0 n).

(** The same loop when the body may abort: the first abort ends it. *)
Fixpoint sequence_opt (A : Type) (xs : list (option A)) : option (list A) :=
  match xs with
  | [] => Some []
  | None :: _ => None
  | Some x :: rest =>
      match sequence_opt rest with
      | Some ys => Some (x :: ys)
      | None => None
      end
  end.

Definition tabulate_opt (A : Type) (n : nat) (f : nat -> option A)
  : option (list A) :=
  sequence_opt (tabulate n f).

(** A loop that runs its body [k] times; the body may abort ([None]). *)
Fixpoint iter_opt (A : Type) (k : nat) (body : A -> option A) (a : A)
  : option A :=
  match k with
  | O => Some a
  | S k' =>
      match body a with
      | Some a' => iter_opt k' body a'
      | None => None
      end
  end.

(** [safe_calloc(n, sizeof(double))], and [for (l...) a[l] = 0]. *)
Definition zeros (n : nat) : list float := tabulate n (fun _ => 0%float).

End CDouble.

Import CDouble.

(* ----------------------------------------------------------------- *)
(** ** The samplers as the EE engine calls them *)

(** What a sampler hands back: the acceptance rate it returns and the two
    output arrays [addChangeStats] and [delChangeStats]. *)
Record sampler_result : Type := mkSamplerResult {
  acceptance_rate : float;
  addChangeStats : list float;
  delChangeStats : list float
}.

(** The IFD sampler also writes [*dzArc] and updates [*ifd_aux_param]. *)
Record ifd_result : Type := mkIfdResult {
  ifd_sampler_result : sampler_result;
  ifd_dzArc : float;
  ifd_aux_param_out : float
}.

(** The engine's collaborators.  [world] is everything a sampler call can read
    or change besides its arguments: the graph [g], the pseudo-random number
    generator, and the sampler's [static] variables.  [basicSampler] and
    [mean_and_sd] are not among the sources; [ifdSampler] is called here with
    the argument list of [equilibriumExpectation.c] (the model of its body is
    further down).  The change-statistics tables a call receives never change
    during a run and are part of the functions.  A sampler call that does
    not return (a failed assertion, an access outside an array) is [None]. *)
Class Engine (world : Type) : Type := {
  (* world, n, theta, sampler_m, performMove, useConditionalEstimation,
     forbidReciprocity *)
  basicSampler :
    world -> nat -> list float -> nat -> bool -> bool -> bool ->
    option (world * sampler_result);
  (* world, n, theta, sampler_m, performMove, ifd_K, *ifd_aux_param,
     useConditionalEstimation, forbidReciprocity *)
  ifdSampler_call :
    world -> nat -> list float -> nat -> bool -> float -> float ->
    bool -> bool -> option (world * ifd_result);
  (* mean_and_sd(values, n, &sd): returns (mean, sd) *)
  mean_and_sd : list float -> float * float
}.

Section EquilibriumExpectation.

Context {world : Type} {E : Engine world}.

Open Scope float_scope.

(** One call of the active sampler, as in the [if (useIFDsampler)] of both
    algorithms.  Returns the new world, the sampler's result, [dzArc] (left
    as it was by the basic sampler) and the auxiliary parameter. *)
Definition call_sampler (useIFDsampler : bool) (ifd_K : float)
  (useConditionalEstimation forbidReciprocity : bool)
  (performMove : bool) (n sampler_m : nat)
  (w : world) (theta : list float) (dzArc ifd_aux_param : float)
  : option (world * sampler_result * float * float) :=
  if useIFDsampler then
    match ifdSampler_call w n theta sampler_m performMove ifd_K ifd_aux_param
            useConditionalEstimation forbidReciprocity with
    | Some (w', r) =>
        Some (w', ifd_sampler_result r, ifd_dzArc r, ifd_aux_param_out r)
    | None => None
    end
  else
    match basicSampler w n theta sampler_m performMove
            useConditionalEstimation forbidReciprocity with
    | Some (w', r) => Some (w', r, dzArc, ifd_aux_param)
    | None => None
    end.

(* ----------------------------------------------------------------- *)
(** ** Algorithm S *)

(** The body of [for (l = 0; l < n; l++)] inside the [t] loop, for one
    position: from [addChangeStats[l]], [delChangeStats[l]], [theta[l]] and
    [D0[l]] to the new [theta[l]] and [D0[l]]. *)
Definition S_dzA (add del : float) : float := del - add.

Definition S_sumChangeStats (add del : float) : float := add + del.

Definition S_da (ACA sum : float) : float :=
  if (sum <? 0) || (0 <? sum) then ACA / (sum * sum) else 0.

Definition S_theta_step (ACA add del : float) : float :=
  let dzA := S_dzA add del in
  let da := S_da ACA (S_sumChangeStats add del) in
  (if dzA <? 0 then -1 else 1) * da * dzA * dzA.

Definition S_D0_next (add del D0 : float) : float :=
  let dzA := S_dzA add del in D0 + dzA * dzA.

(** The variables that live across iterations of the [t] loop. *)
Record S_state : Type := mkS {
  S_world : world;
  S_theta : list float;
  S_D0 : list float;
  S_dzArc : float;
  S_ifd_aux_param : float
}.

(** [dzArc] is not initialised in the program and is written by the IFD
    sampler only; it starts here at 0. *)
Definition S_init (n : nat) (w : world) : S_state :=
  {| S_world := w; S_theta := zeros n; S_D0 := zeros n;
     S_dzArc := 0; S_ifd_aux_param := 0 |}.

(** What the sampler returns in an iteration that starts in [st]: Algorithm S
    passes [performMove = FALSE]. *)
Definition S_sample (n sampler_m : nat) (useIFDsampler : bool)
  (ifd_K : float) (useConditionalEstimation forbidReciprocity : bool)
  (st : S_state) : option (world * sampler_result * float * float) :=
  call_sampler useIFDsampler ifd_K useConditionalEstimation forbidReciprocity
    false n sampler_m (S_world st) (S_theta st)
    (S_dzArc st) (S_ifd_aux_param st).

(** One iteration of [for (t = 0; t < M1; t++)]. *)
Definition S_iteration (n sampler_m : nat) (ACA : float)
  (useIFDsampler : bool) (ifd_K : float)
  (useConditionalEstimation forbidReciprocity : bool)
  (st : S_state) : option S_state :=
  match S_sample n sampler_m useIFDsampler ifd_K useConditionalEstimation
          forbidReciprocity st with
  | Some (w', r, dzArc', aux') =>
      Some
        {| S_world := w';
           S_theta := tabulate n (fun l =>
             at_ (S_theta st) l
             + S_theta_step ACA (at_ (addChangeStats r) l)
                                (at_ (delChangeStats r) l));
           S_D0 := tabulate n (fun l =>
             S_D0_next (at_ (addChangeStats r) l) (at_ (delChangeStats r) l)
                       (at_ (S_D0 st) l));
           S_dzArc := dzArc';
           S_ifd_aux_param := aux' |}
  | None => None
  end.

(** The loop variables after [t] iterations from [st]. *)
Definition S_loop (n sampler_m : nat) (ACA : float)
  (useIFDsampler : bool) (ifd_K : float)
  (useConditionalEstimation forbidReciprocity : bool)
  (t : nat) (st : S_state) : option S_state :=
  iter_opt t
    (S_iteration n sampler_m ACA useIFDsampler ifd_K
       useConditionalEstimation forbidReciprocity)
    st.

(** [algorithm_S]: the world it leaves, and the out-arrays [theta] and
    [Dmean]. *)
Definition algorithm_S (w : world) (n M1 sampler_m : nat) (ACA : float)
  (useIFDsampler : bool) (ifd_K : float)
  (useConditionalEstimation forbidReciprocity : bool)
  : option (world * list float * list float) :=
  match S_loop n sampler_m ACA useIFDsampler ifd_K
          useConditionalEstimation forbidReciprocity M1 (S_init n w) with
  | Some st =>
      Some (S_world st, S_theta st,
            tabulate n (fun l => of_uint sampler_m / at_ (S_D0 st) l))
  | None => None
  end.

(* ----------------------------------------------------------------- *)
(** ** Algorithm EE *)

(** [dzA[l] += addChangeStats[l] - delChangeStats[l]]. *)
Definition EE_dzA_next (add del dzA : float) : float := dzA + (add - del).

(** [theta_step[l]], from the already updated [dzA[l]]. *)
Definition EE_theta_step (useBorisenkoUpdate : bool)
  (ACA learningRate minTheta : float) (dzA theta D0 : float) : float :=
  if useBorisenkoUpdate then
    (if dzA <? 0 then 1 else -1) * learningRate * MAX (fabs theta) minTheta
  else
    let da := D0 * ACA in
    (if dzA <? 0 then 1 else -1) * da * dzA * dzA.

(** The variables that live across inner iterations.  [EE_thetamatrix] holds
    the rows [thetamatrix[.][tinner]] written so far in this outer
    iteration, oldest first. *)
Record EE_state : Type := mkEE {
  EE_world : world;
  EE_theta : list float;
  EE_dzA : list float;
  EE_D0 : list float;
  EE_dzArc : float;
  EE_ifd_aux_param : float;
  EE_thetamatrix : list (list float)
}.

Definition EE_init (n : nat) (w : world) (D0 theta : list float) : EE_state :=
  {| EE_world := w; EE_theta := theta; EE_dzA := zeros n; EE_D0 := D0;
     EE_dzArc := 0; EE_ifd_aux_param := 0; EE_thetamatrix := [] |}.

(** One iteration of [for (tinner = 0; tinner < Minner; tinner++)]:
    Algorithm EE passes [performMove = TRUE]. *)
Definition EE_inner (n sampler_m : nat) (ACA : float)
  (useIFDsampler : bool) (ifd_K : float)
  (useConditionalEstimation forbidReciprocity useBorisenkoUpdate : bool)
  (learningRate minTheta : float) (st : EE_state) : option EE_state :=
  match call_sampler useIFDsampler ifd_K useConditionalEstimation
          forbidReciprocity true n sampler_m (EE_world st) (EE_theta st)
          (EE_dzArc st) (EE_ifd_aux_param st) with
  | Some (w', r, dzArc', aux') =>
      let dzA' := tabulate n (fun l =>
        EE_dzA_next (at_ (addChangeStats r) l) (at_ (delChangeStats r) l)
                    (at_ (EE_dzA st) l)) in
      let theta' := tabulate n (fun l =>
        at_ (EE_theta st) l
        + EE_theta_step useBorisenkoUpdate ACA learningRate minTheta
            (at_ dzA' l) (at_ (EE_theta st) l) (at_ (EE_D0 st) l)) in
      Some
        {| EE_world := w'; EE_theta := theta'; EE_dzA := dzA';
           EE_D0 := EE_D0 st;
           EE_dzArc := dzArc'; EE_ifd_aux_param := aux';
           EE_thetamatrix := EE_thetamatrix st ++ [theta'] |}
  | None => None
  end.

(** The literals [0.1] and [1e-10] of the rescaling block, as the binary64
    values a C compiler reads them to. *)
Definition c_0_1 : float := 0x1.999999999999ap-4.

Definition c_1e_10 : float := 0x1.b7cdfd9d7bdbbp-34.

(** The adjustment of [D0[l]] at the end of an outer iteration; [None] when
    [assert(theta_sd >= 0)] fails and the process aborts. *)
Definition EE_rescale_D0 (compC : float) (column : list float) (D0 : float)
  : option float :=
  let '(theta_mean, theta_sd) := mean_and_sd column in
  let theta_mean := if fabs theta_mean <? c_0_1 then c_0_1 else theta_mean in
  if 0 <=? theta_sd then
    if c_1e_10 <? theta_sd
    then Some (D0 * PrimFloat.sqrt (compC / (theta_sd / fabs theta_mean)))
    else Some D0
  else None.

(** One iteration of [for (touter = 0; touter < Mouter; touter++)]. *)
Definition EE_outer (n Minner sampler_m : nat) (ACA compC : float)
  (useIFDsampler : bool) (ifd_K : float)
  (useConditionalEstimation forbidReciprocity useBorisenkoUpdate : bool)
  (learningRate minTheta : float) (st : EE_state) : option EE_state :=
  match
    iter_opt Minner
      (EE_inner n sampler_m ACA useIFDsampler ifd_K useConditionalEstimation
         forbidReciprocity useBorisenkoUpdate learningRate minTheta)
      {| EE_world := EE_world st; EE_theta := EE_theta st;
         EE_dzA := EE_dzA st; EE_D0 := EE_D0 st; EE_dzArc := EE_dzArc st;
         EE_ifd_aux_param := EE_ifd_aux_param st; EE_thetamatrix := [] |}
  with
  | Some st1 =>
      if useBorisenkoUpdate then Some st1
      else
        match tabulate_opt n (fun l =>
                EE_rescale_D0 compC
                  (map (fun row => at_ row l) (EE_thetamatrix st1))
                  (at_ (EE_D0 st1) l)) with
        | Some D0' =>
            Some {| EE_world := EE_world st1; EE_theta := EE_theta st1;
                    EE_dzA := EE_dzA st1; EE_D0 := D0';
                    EE_dzArc := EE_dzArc st1;
                    EE_ifd_aux_param := EE_ifd_aux_param st1;
                    EE_thetamatrix := EE_thetamatrix st1 |}
        | None => None
        end
  | None => None
  end.

(** [algorithm_EE]: the world it leaves and the in/out array [theta]; [None]
    when an assertion aborts the process or a sampler call does not
    return. *)
Definition algorithm_EE (w : world) (n Mouter Minner sampler_m : nat)
  (ACA compC : float) (D0 theta : list float)
  (useIFDsampler : bool) (ifd_K : float)
  (useConditionalEstimation forbidReciprocity useBorisenkoUpdate : bool)
  (learningRate minTheta : float) : option (world * list float) :=
  match iter_opt Mouter
          (EE_outer n Minner sampler_m ACA compC useIFDsampler ifd_K
             useConditionalEstimation forbidReciprocity useBorisenkoUpdate
             learningRate minTheta)
          (EE_init n w D0 theta) with
  | Some st => Some (EE_world st, EE_theta st)
  | None => None
  end.

(* ----------------------------------------------------------------- *)
(** ** [ee_estimate] *)

(** Lines written to [stdout] and [stderr] that the claims talk about. *)
Inductive message : Type :=
| Msg_running_S                 (* "running Algorithm S..." *)
| Msg_running_EE                (* "running Algorithm EE..." *)
| Warn_D0_degenerate (i : nat)  (* "WARNING: D0 is NaN for parameter i,
                                    model may be degenerate, not continuing
                                    this run" *)
| Err_open_arclist
| Err_snowball_zones
| Err_attr_params
| Err_dyadic_params
| Err_attr_interaction_params
| Err_open_theta
| Err_arc_with_IFD              (* "ERROR: cannot include Arc parameter when
                                    using IFD sampler." *)
| Err_conditional_no_zones
| Err_conditional_one_zone
| Err_open_dzA
| Err_load_attributes.

(** The degeneracy test: [for (i...) if (isinf(Dmean[i])) { warn; errcode = 1; }]
    run over [i = 0 .. n-1] from [errcode = 0]. *)
Definition degeneracy_test (n : nat) (Dmean : list float)
  : Z * list message :=
  fold_left
    (fun (acc : Z * list message) (i : nat) =>
       if isinf (at_ Dmean i)
       then (1%Z, snd acc ++ [Warn_D0_degenerate i])
       else acc)
    (seq 0 n) (0%Z, []).

(** What a call of [ee_estimate] leaves behind. *)
Record ee_outcome : Type := mkEEOutcome {
  ee_errcode : Z;             (* the value returned *)
  ee_world : world;
  ee_theta : list float;      (* the caller's array [theta] on return *)
  ee_Dmean : list float;      (* [Dmean] as Algorithm S left it *)
  ee_log : list message
}.

(** [ee_estimate]; [None] when the process does not get to its [return]. *)
Definition ee_estimate (w : world) (n sampler_m M1_steps Mouter Msteps : nat)
  (ACA_S ACA_EE compC : float)
  (useIFDsampler : bool) (ifd_K : float)
  (useConditionalEstimation forbidReciprocity useBorisenkoUpdate : bool)
  (learningRate minTheta : float) : option ee_outcome :=
  let M1 := M1_steps in
  let M := Msteps in
  match algorithm_S w n M1 sampler_m ACA_S useIFDsampler ifd_K
          useConditionalEstimation forbidReciprocity with
  | None => None
  | Some (w1, theta1, Dmean) =>
      let '(errcode, warnings) := degeneracy_test n Dmean in
      if (errcode =? 0)%Z then
        match algorithm_EE w1 n Mouter M sampler_m ACA_EE compC Dmean theta1
                useIFDsampler ifd_K useConditionalEstimation
                forbidReciprocity useBorisenkoUpdate learningRate minTheta
        with
        | Some (w2, theta2) =>
            Some {| ee_errcode := errcode; ee_world := w2;
                    ee_theta := theta2; ee_Dmean := Dmean;
                    ee_log :=
                      [Msg_running_S] ++ warnings ++ [Msg_running_EE] |}
        | None => None
        end
      else
        Some {| ee_errcode := errcode; ee_world := w1; ee_theta := theta1;
                ee_Dmean := Dmean;
                ee_log := [Msg_running_S] ++ warnings |}
  end.

End EquilibriumExpectation.

(* ----------------------------------------------------------------- *)
(** ** The drivers: [do_estimation], [do_simulation] and [main] *)

Module Strings.

(** [tolower] on ASCII letters. *)
Definition tolower (c : ascii) : ascii :=
  let n := nat_of_ascii c in
  if (65 <=? n)%nat && (n <=? 90)%nat then ascii_of_nat (n + 32) else c.

Fixpoint lowercase (s : string) : string :=
  match s with
  | EmptyString => EmptyString
  | String c rest => String (tolower c) (lowercase rest)
  end.

(** [strcasecmp(a, b) == 0]. *)
Definition strcasecmp_eq (a b : string) : bool :=
  String.eqb (lowercase a) (lowercase b).

End Strings.

(** Modelled from the spec: the constant [ARC_PARAM_STR], declared outside the
    sources; section 4.4 names the term "Arc". *)
Definition ARC_PARAM_STR : string := "Arc".

(** The fields of [estim_config_t] that [do_estimation] reads.  The structural
    parameter names are the array [param_names] of length
    [num_change_stats_funcs]. *)
Record estim_config_t : Type := mkEstimConfig {
  ACA_S : float;
  ACA_EE : float;
  compC : float;
  samplerSteps : nat;
  Ssteps : nat;
  EEsteps : nat;
  EEinnerSteps : nat;
  useIFDsampler : bool;
  ifd_K : float;
  outputSimulatedNetwork : bool;
  zone_filename : option string;
  useConditionalEstimation : bool;
  forbidReciprocity : bool;
  useBorisenkoUpdate : bool;
  learningRate : float;
  minTheta : float;
  param_names : list string;
  num_attr_change_stats_funcs : nat;
  num_attr_interaction_change_stats_funcs : nat
}.

Definition num_change_stats_funcs (config : estim_config_t) : nat :=
  List.length (param_names config).

(** What the file system and the loaders (all outside the sources) answer to
    one run of a driver: whether each [fopen] and each loader succeeds, the
    graph that is loaded (as the initial world), [g->max_zone], and the
    number of dyadic parameters that [build_dyadic_indices_from_names]
    leaves. *)
Record environment (world : Type) : Type := mkEnv {
  loaded_world : world;
  fopen_arclist_ok : bool;
  load_attributes_ok : bool;
  add_snowball_zones_ok : bool;
  env_max_zone : nat;
  build_attr_indices_ok : bool;
  build_dyadic_indices_ok : bool;
  num_dyadic_after_build : nat;
  build_attr_interaction_ok : bool;
  fopen_theta_ok : bool;
  fopen_dzA_ok : bool
}.

(** The loop that looks for an Arc parameter:
    [for (i...) if (strcasecmp(config->param_names[i], ARC_PARAM_STR) == 0)]. *)
Definition has_Arc_param (names : list string) : bool :=
  existsb (fun name => Strings.strcasecmp_eq name ARC_PARAM_STR) names.

Section Drivers.

Context {world : Type} {E : Engine world}.

(** What a call of [do_estimation] leaves behind: the value returned, the
    error lines, and what [ee_estimate] returned if it was called. *)
Record estimation_outcome : Type := mkEstimationOutcome {
  est_return : Z;
  est_stderr : list message;
  est_ee : option (ee_outcome (world := world))
}.

Definition est_fail (m : message) : option estimation_outcome :=
  Some {| est_return := (-1)%Z; est_stderr := [m]; est_ee := None |}.

(** [do_estimation]; [None] when the process aborts inside [ee_estimate].
    The warnings about options that the chosen algorithm ignores only write
    to [stderr] and are left out. *)
Definition do_estimation (config : estim_config_t) (env : environment world)
  : option estimation_outcome :=
  if negb (fopen_arclist_ok env) then est_fail Err_open_arclist
  else
  let g := loaded_world env in
  if (match zone_filename config with
      | Some _ => negb (add_snowball_zones_ok env)
      | None => false
      end)
  then est_fail Err_snowball_zones
  else if negb (build_attr_indices_ok env) then est_fail Err_attr_params
  else if negb (build_dyadic_indices_ok env) then est_fail Err_dyadic_params
  else if negb (build_attr_interaction_ok env)
  then est_fail Err_attr_interaction_params
  else
  let n_struct := num_change_stats_funcs config in
  let n_attr := num_attr_change_stats_funcs config in
  let n_dyadic := num_dyadic_after_build env in
  let n_attr_interaction := num_attr_interaction_change_stats_funcs config in
  let num_param := n_struct + n_attr + n_dyadic + n_attr_interaction in
  if negb (fopen_theta_ok env) then est_fail Err_open_theta
  else if useIFDsampler config && has_Arc_param (param_names config)
  then est_fail Err_arc_with_IFD
  else if useConditionalEstimation config
          && (match zone_filename config with None => true | Some _ => false end)
  then est_fail Err_conditional_no_zones
  else if useConditionalEstimation config && (env_max_zone env <? 1)
  then est_fail Err_conditional_one_zone
  else if negb (fopen_dzA_ok env) then est_fail Err_open_dzA
  else
    (* the value of ee_estimate(...) is not used *)
    match ee_estimate g num_param
            (samplerSteps config) (Ssteps config)
            (EEsteps config) (EEinnerSteps config)
            (ACA_S config) (ACA_EE config) (compC config)
            (useIFDsampler config) (ifd_K config)
            (useConditionalEstimation config) (forbidReciprocity config)
            (useBorisenkoUpdate config) (learningRate config)
            (minTheta config) with
    | Some out =>
        Some {| est_return := 0%Z; est_stderr := []; est_ee := Some out |}
    | None => None
    end.

(** The status of a process that ends in [exit(rc)]: the low eight bits of
    [rc], so that [exit(-1)] is seen as 255. *)
Definition exit_status (rc : Z) : Z := Z.land rc 255.

(** [main] of [EstimNetDirectedMain.c].  [getopt] is the library's: [opts]
    are the values that the calls [getopt(argc, argv, "h")] of the loop
    return before -1, in turn, [args] the arguments from [argv[optind]] on
    after the loop, and [parse] is [parse_estim_config_file].  The first
    option ends the process: [-h] with [exit(0)], any other in [usage],
    with [exit(1)].  Returns the exit status; [None] when the process
    aborts. *)
Definition main_getopt (opts : list ascii) (args : list string)
  (parse : string -> option estim_config_t)
  (env : environment world) : option Z :=
  match opts with
  | c :: _ =>
      if Ascii.eqb c "h" then Some (exit_status 0)
      else Some (exit_status 1)   (* usage() *)
  | [] =>
      match args with
      | [config_filename] =>
          match parse config_filename with
          | None => Some (exit_status 1)
          | Some config =>
              match do_estimation config env with
              | Some out => Some (exit_status (est_return out))
              | None => None
              end
          end
      | _ => Some (exit_status 1)   (* usage() *)
      end
  end.

(** [main] on a command line without options: [args] are the command line
    arguments. *)
Definition main (args : list string)
  (parse : string -> option estim_config_t)
  (env : environment world) : option Z :=
  main_getopt [] args parse env.

(** The fields of [sim_config_t] that [do_simulation] reads. *)
Record sim_config_t : Type := mkSimConfig {
  sim_numNodes : nat;
  sim_samplerSteps : nat;
  sim_useIFDsampler : bool;
  sim_ifd_K : float;
  sim_zone_filename : option string;
  sim_useConditionalEstimation : bool;
  sim_forbidReciprocity : bool;
  sim_param_names : list string;
  sim_num_attr_change_stats_funcs : nat;
  sim_num_attr_interaction_change_stats_funcs : nat
}.

(** [simulate_ergm]: one call of the chosen sampler that performs its moves;
    returns 0.  Also gives the world and the result the sampler left; [None]
    when the sampler call does not return. *)
Definition simulate_ergm (g : world) (n sampler_m : nat) (theta : list float)
  (useIFD : bool) (K : float) (useCond forbidRecip : bool)
  : option (Z * world * sampler_result) :=
  match call_sampler useIFD K useCond forbidRecip true n sampler_m g theta
          0%float 0%float with
  | Some (w', r, _, _) => Some (0%Z, w', r)
  | None => None
  end.

(** What a call of [do_simulation] leaves behind: the value returned, the
    error lines, and the sampler's result if [simulate_ergm] was called. *)
Record simulation_outcome : Type := mkSimulationOutcome {
  sim_return : Z;
  sim_stderr : list message;
  sim_sampled : option (world * sampler_result)
}.

Definition sim_fail (m : message) : option simulation_outcome :=
  Some {| sim_return := (-1)%Z; sim_stderr := [m]; sim_sampled := None |}.

(** [do_simulation]: [loaded_world env] is the graph that
    [allocate_digraph(config->numNodes)] and the attribute loaders build;
    [None] when the process does not get to the [return]. *)
Definition do_simulation (config : sim_config_t) (env : environment world)
  : option simulation_outcome :=
  let g := loaded_world env in
  if negb (load_attributes_ok env) then sim_fail Err_load_attributes
  else if (match sim_zone_filename config with
           | Some _ => negb (add_snowball_zones_ok env)
           | None => false
           end)
  then sim_fail Err_snowball_zones
  else if negb (build_attr_indices_ok env) then sim_fail Err_attr_params
  else if negb (build_dyadic_indices_ok env) then sim_fail Err_dyadic_params
  else if negb (build_attr_interaction_ok env)
  then sim_fail Err_attr_interaction_params
  else
  let n_struct := List.length (sim_param_names config) in
  let n_attr := sim_num_attr_change_stats_funcs config in
  let n_dyadic := num_dyadic_after_build env in
  let n_attr_interaction :=
    sim_num_attr_interaction_change_stats_funcs config in
  let num_param := n_struct + n_attr + n_dyadic + n_attr_interaction in
  if sim_useConditionalEstimation config
     && (match sim_zone_filename config with None => true | Some _ => false end)
  then sim_fail Err_conditional_no_zones
  else if sim_useConditionalEstimation config && (env_max_zone env <? 1)
  then sim_fail Err_conditional_one_zone
  else
    let theta := zeros num_param in   (* safe_calloc *)
    match simulate_ergm g num_param (sim_samplerSteps config) theta
            (sim_useIFDsampler config) (sim_ifd_K config)
            (sim_useConditionalEstimation config)
            (sim_forbidReciprocity config) with
    | Some (_, w', r) =>
        Some {| sim_return := 0%Z; sim_stderr := [];
                sim_sampled := Some (w', r) |}
    | None => None
    end.

End Drivers.

(* ----------------------------------------------------------------- *)
(** ** The graph store *)

(** Modelled from the spec: the graph store of [digraph.c], which is not among
    the sources ([insertArc], [removeArc], their [_allarcs], [_allinnerarcs]
    and [_all_maxtermsender_arcs] variants, [isArc], and the two-path
    update).  It follows sections 3 and 4.1: neighbour lists in both
    directions, the flat arc list [allarcs] with swap-with-last removal, the
    three two-path counters kept by a local update that is computed on the
    graph without the arc (after the removal on delete, before the insertion
    on insert), and the side lists of the two conditional regimes with
    [prev_wave_degree].  [outdegree[i]] and [indegree[i]] are the lengths of
    [arclist[i]] and [revarclist[i]].  Counters that the store increments and
    decrements are integers. *)
Module Digraph.

Definition arc : Type := (nat * nat)%type.

Record graph_t : Type := mkGraph {
  num_nodes : nat;
  num_arcs : nat;
  arclist : nat -> list nat;
  revarclist : nat -> list nat;
  allarcs : list arc;
  mixTwoPath : nat -> nat -> Z;
  inTwoPath : nat -> nat -> Z;
  outTwoPath : nat -> nat -> Z;
  zone : nat -> nat;
  prev_wave_degree : nat -> Z;
  num_inner_arcs : nat;
  allinnerarcs : list arc;
  num_maxtermsender_arcs : nat;
  all_maxtermsender_arcs : list arc
}.



(** Modelled from the spec: [isArc] of [digraph.c], true iff arc [i -> j] is
    present; a scan of the neighbour list of [i]. *)
Definition isArc (g : graph_t) (i j : nat) : bool :=
  existsb (Nat.eqb j) (arclist g i).

(** [a[i] = v] on an array indexed by node. *)
Definition upd (A : Type) (a : nat -> A) (i : nat) (v : A) : nat -> A :=
  fun k => if Nat.eqb k i then v else a k.

(** Removal of one entry from a neighbour list. *)
Fixpoint remove_one (j : nat) (l : list nat) : list nat :=
  match l with
  | [] => []
  | k :: rest => if Nat.eqb k j then rest else k :: remove_one j rest
  end.

(** Modelled from the spec: the O(1) swap-with-last removal of entry [idx]
    of a flat arc list; the last entry takes its place and the list gets one
    shorter. *)
Definition swap_remove (idx : nat) (l : list arc) : list arc :=
  match nth_error l (List.length l - 1) with
  | Some last_arc => removelast (firstn idx l ++ last_arc :: skipn (S idx) l)
  | None => l
  end.

(** The entry of an arc in a flat list, looked up by its value. *)
Definition arc_eqb (a b : arc) : bool :=
  Nat.eqb (fst a) (fst b) && Nat.eqb (snd a) (snd b).

Fixpoint index_of (a : arc) (l : list arc) : option nat :=
  match l with
  | [] => None
  | b :: rest =>
      if arc_eqb a b then Some 0
      else match index_of a rest with
           | Some k => Some (S k)
           | None => None
           end
  end.

(** Modelled from the spec: the removal of arc [a] from a flat list by a
    routine that is not given its index; the entry is found and removed by
    swap-with-last. *)
Definition remove_entry (a : arc) (l : list arc) : list arc :=
  match index_of a l with
  | Some k => swap_remove k l
  | None => l
  end.

(** [m[a,b] += d] for every key [(a,b)] of the list, in turn. *)
Definition bump (m : nat -> nat -> Z) (keys : list arc) (d : Z)
  : nat -> nat -> Z :=
  fold_left
    (fun (m' : nat -> nat -> Z) (key : arc) =>
       fun a b =>
         if Nat.eqb a (fst key) && Nat.eqb b (snd key)
         then (m' a b + d)%Z else m' a b)
    keys m.

(** The number of keys of a list that address counter [(a, b)]. *)
Definition hits (keys : list arc) (a b : nat) : Z :=
  Z.of_nat
    (List.length
       (filter (fun key => Nat.eqb a (fst key) && Nat.eqb b (snd key)) keys)).

(** The counters that arc [i -> j] contributes to: mixed two-paths
    [i -> j -> k] and [k -> i -> j]; in-two-paths between [j] and every other
    out-neighbour of [i]; out-two-paths between [i] and every other
    in-neighbour of [j]. *)
Definition mix_keys (g : graph_t) (i j : nat) : list arc :=
  map (fun k => (i, k)) (arclist g j) ++ map (fun k => (k, j)) (revarclist g i).

Definition in_keys (g : graph_t) (i j : nat) : list arc :=
  flat_map (fun k => [(j, k); (k, j)]) (arclist g i).

Definition out_keys (g : graph_t) (i j : nat) : list arc :=
  flat_map (fun k => [(i, k); (k, i)]) (revarclist g j).

Definition set_twopaths (g : graph_t) (mix inp outp : nat -> nat -> Z)
  : graph_t :=
  {| num_nodes := num_nodes g; num_arcs := num_arcs g;
     arclist := arclist g; revarclist := revarclist g; allarcs := allarcs g;
     mixTwoPath := mix; inTwoPath := inp; outTwoPath := outp;
     zone := zone g; prev_wave_degree := prev_wave_degree g;
     num_inner_arcs := num_inner_arcs g; allinnerarcs := allinnerarcs g;
     num_maxtermsender_arcs := num_maxtermsender_arcs g;
     all_maxtermsender_arcs := all_maxtermsender_arcs g |}.

Definition set_adjacency (g : graph_t) (na : nat)
  (al ral : nat -> list nat) : graph_t :=
  {| num_nodes := num_nodes g; num_arcs := na;
     arclist := al; revarclist := ral; allarcs := allarcs g;
     mixTwoPath := mixTwoPath g; inTwoPath := inTwoPath g;
     outTwoPath := outTwoPath g;
     zone := zone g; prev_wave_degree := prev_wave_degree g;
     num_inner_arcs := num_inner_arcs g; allinnerarcs := allinnerarcs g;
     num_maxtermsender_arcs := num_maxtermsender_arcs g;
     all_maxtermsender_arcs := all_maxtermsender_arcs g |}.

Definition set_allarcs (g : graph_t) (l : list arc) : graph_t :=
  {| num_nodes := num_nodes g; num_arcs := num_arcs g;
     arclist := arclist g; revarclist := revarclist g; allarcs := l;
     mixTwoPath := mixTwoPath g; inTwoPath := inTwoPath g;
     outTwoPath := outTwoPath g;
     zone := zone g; prev_wave_degree := prev_wave_degree g;
     num_inner_arcs := num_inner_arcs g; allinnerarcs := allinnerarcs g;
     num_maxtermsender_arcs := num_maxtermsender_arcs g;
     all_maxtermsender_arcs := all_maxtermsender_arcs g |}.

Definition set_inner (g : graph_t) (n : nat) (l : list arc)
  (pwd : nat -> Z) : graph_t :=
  {| num_nodes := num_nodes g; num_arcs := num_arcs g;
     arclist := arclist g; revarclist := revarclist g; allarcs := allarcs g;
     mixTwoPath := mixTwoPath g; inTwoPath := inTwoPath g;
     outTwoPath := outTwoPath g;
     zone := zone g; prev_wave_degree := pwd;
     num_inner_arcs := n; allinnerarcs := l;
     num_maxtermsender_arcs := num_maxtermsender_arcs g;
     all_maxtermsender_arcs := all_maxtermsender_arcs g |}.

Definition set_maxtermsender (g : graph_t) (n : nat) (l : list arc)
  : graph_t :=
  {| num_nodes := num_nodes g; num_arcs := num_arcs g;
     arclist := arclist g; revarclist := revarclist g; allarcs := allarcs g;
     mixTwoPath := mixTwoPath g; inTwoPath := inTwoPath g;
     outTwoPath := outTwoPath g;
     zone := zone g; prev_wave_degree := prev_wave_degree g;
     num_inner_arcs := num_inner_arcs g; allinnerarcs := allinnerarcs g;
     num_maxtermsender_arcs := n; all_maxtermsender_arcs := l |}.

(** Modelled from the spec: [updateTwoPathsMatrices(g, i, j, isAdd)] of
    [digraph.c], the local update of the two-path counters, with [d] = +1 or
    -1. *)
Definition updateTwoPaths (g : graph_t) (i j : nat) (d : Z) : graph_t :=
  set_twopaths g
    (bump (mixTwoPath g) (mix_keys g i j) d)
    (bump (inTwoPath g) (in_keys g i j) d)
    (bump (outTwoPath g) (out_keys g i j) d).

(** Modelled from the spec: [insertArc] of [digraph.c].  The counters are
    updated before the arc is added to the neighbour lists. *)
Definition insertArc (g : graph_t) (i j : nat) : graph_t :=
  let g1 := updateTwoPaths g i j 1 in
  set_adjacency g1 (S (num_arcs g1))
    (upd (arclist g1) i (arclist g1 i ++ [j]))
    (upd (revarclist g1) j (revarclist g1 j ++ [i])).

(** Modelled from the spec: [removeArc] of [digraph.c].  The counters are
    updated after the arc is taken out of the neighbour lists. *)
Definition removeArc (g : graph_t) (i j : nat) : graph_t :=
  let g1 :=
    set_adjacency g (Nat.pred (num_arcs g))
      (upd (arclist g) i (remove_one j (arclist g i)))
      (upd (revarclist g) j (remove_one i (revarclist g j))) in
  updateTwoPaths g1 i j (-1).

(** Modelled from the spec: [insertArc_allarcs] and [removeArc_allarcs] of
    [digraph.c], which also keep the flat list [allarcs]. *)
Definition insertArc_allarcs (g : graph_t) (i j : nat) : graph_t :=
  let g1 := insertArc g i j in
  set_allarcs g1 (allarcs g1 ++ [(i, j)]).

Definition removeArc_allarcs (g : graph_t) (i j arcidx : nat) : graph_t :=
  let g1 := removeArc g i j in
  set_allarcs g1 (swap_remove arcidx (allarcs g1)).

(** Modelled from the spec: [prev_wave_degree] after the tie between [i] and
    [j] appears ([d] = 1) or disappears ([d] = -1): the node in the later of
    two adjacent zones gains or loses a neighbour in its preceding zone. *)
Definition update_prev_wave_degree (g : graph_t) (i j : nat) (d : Z)
  : nat -> Z :=
  let pwd := prev_wave_degree g in
  if Nat.eqb (zone g i) (S (zone g j)) then upd pwd i (pwd i + d)%Z
  else if Nat.eqb (zone g j) (S (zone g i)) then upd pwd j (pwd j + d)%Z
  else pwd.

(** Modelled from the spec: [insertArc_allinnerarcs] and
    [removeArc_allinnerarcs] of [digraph.c], which also keep [allinnerarcs],
    [num_inner_arcs] and [prev_wave_degree].  Invariant (2) of section 4.1
    holds whichever routine changes the graph, so they keep [allarcs] as
    well; the index they are given is into the side list, and the entry of
    the arc in [allarcs] is found by its value. *)
Definition insertArc_allinnerarcs (g : graph_t) (i j : nat) : graph_t :=
  let g1 := insertArc_allarcs g i j in
  set_inner g1 (S (num_inner_arcs g1)) (allinnerarcs g1 ++ [(i, j)])
    (update_prev_wave_degree g1 i j 1).

Definition removeArc_allinnerarcs (g : graph_t) (i j arcidx : nat)
  : graph_t :=
  let g1 := removeArc g i j in
  let g2 := set_allarcs g1 (remove_entry (i, j) (allarcs g1)) in
  set_inner g2 (Nat.pred (num_inner_arcs g2))
    (swap_remove arcidx (allinnerarcs g2))
    (update_prev_wave_degree g2 i j (-1)).

(** Modelled from the spec: [insertArc_all_maxtermsender_arcs] and
    [removeArc_all_maxtermsender_arcs] of [digraph.c], which also keep
    [all_maxtermsender_arcs] and [num_maxtermsender_arcs], and [allarcs] in
    the same way. *)
Definition insertArc_all_maxtermsender_arcs (g : graph_t) (i j : nat)
  : graph_t :=
  let g1 := insertArc_allarcs g i j in
  set_maxtermsender g1 (S (num_maxtermsender_arcs g1))
    (all_maxtermsender_arcs g1 ++ [(i, j)]).

Definition removeArc_all_maxtermsender_arcs (g : graph_t) (i j arcidx : nat)
  : graph_t :=
  let g1 := removeArc g i j in
  let g2 := set_allarcs g1 (remove_entry (i, j) (allarcs g1)) in
  set_maxtermsender g2 (Nat.pred (num_maxtermsender_arcs g2))
    (swap_remove arcidx (all_maxtermsender_arcs g2)).

(** The graph with [N] nodes and no arc. *)
Definition empty_graph (N : nat) : graph_t :=
  {| num_nodes := N; num_arcs := 0;
     arclist := fun _ => []; revarclist := fun _ => []; allarcs := [];
     mixTwoPath := fun _ _ => 0%Z; inTwoPath := fun _ _ => 0%Z;
     outTwoPath := fun _ _ => 0%Z;
     zone := fun _ => 0; prev_wave_degree := fun _ => 0%Z;
     num_inner_arcs := 0; allinnerarcs := [];
     num_maxtermsender_arcs := 0; all_maxtermsender_arcs := [] |}.

(** Two states of the store that hold the same graph: the same counts, the
    same counters, and the same entries in every list (the order inside a
    neighbour list or a flat arc list carries no information). *)
Record same_graph (g g' : graph_t) : Prop := mkSameGraph {
  same_num_nodes : num_nodes g = num_nodes g';
  same_num_arcs : num_arcs g = num_arcs g';
  same_arclist : forall i, Permutation (arclist g i) (arclist g' i);
  same_revarclist : forall i, Permutation (revarclist g i) (revarclist g' i);
  same_allarcs : Permutation (allarcs g) (allarcs g');
  same_mixTwoPath : forall a b, mixTwoPath g a b = mixTwoPath g' a b;
  same_inTwoPath : forall a b, inTwoPath g a b = inTwoPath g' a b;
  same_outTwoPath : forall a b, outTwoPath g a b = outTwoPath g' a b;
  same_zone : forall i, zone g i = zone g' i;
  same_prev_wave_degree :
    forall i, prev_wave_degree g i = prev_wave_degree g' i;
  same_num_inner_arcs : num_inner_arcs g = num_inner_arcs g';
  same_allinnerarcs : Permutation (allinnerarcs g) (allinnerarcs g');
  same_num_maxtermsender_arcs :
    num_maxtermsender_arcs g = num_maxtermsender_arcs g';
  same_all_maxtermsender_arcs :
    Permutation (all_maxtermsender_arcs g) (all_maxtermsender_arcs g')
}.

(** What section 3 and invariants (1) and (2) of section 4.1 say of the
    neighbour lists and of [allarcs]: a neighbour is listed once, the
    reverse lists are the transpose of the forward lists, and [allarcs]
    holds every arc of the graph once and has [num_arcs] entries. *)
Record store_invariant (g : graph_t) : Prop := mkStoreInvariant {
  inv_arclist_unique : forall i, NoDup (arclist g i);
  inv_revarclist_unique : forall j, NoDup (revarclist g j);
  inv_transpose : forall i j, In j (arclist g i) <-> In i (revarclist g j);
  inv_allarcs_unique : NoDup (allarcs g);
  inv_allarcs : forall i j, In (i, j) (allarcs g) <-> In j (arclist g i);
  inv_num_arcs : List.length (allarcs g) = num_arcs g
}.

(** The same of a side list with its counter: it holds arcs of the graph,
    each once, and the counter is its length. *)
Record side_list_invariant (g : graph_t) (arcs : list arc) (count : nat)
  : Prop := mkSideListInvariant {
  side_unique : NoDup arcs;
  side_present : forall i j, In (i, j) arcs -> In j (arclist g i);
  side_count : List.length arcs = count
}.

End Digraph.

(* ----------------------------------------------------------------- *)
(** ** The IFD sampler *)

(** C [int]: 32 bits, two's complement; arithmetic wraps around. *)
Module CInt.

Definition INT_MAX : Z := 2147483647.

Definition wrap (z : Z) : Z := ((z + 2 ^ 31) mod 2 ^ 32 - 2 ^ 31)%Z.

Definition add (a b : Z) : Z := wrap (a + b).

Definition sub (a b : Z) : Z := wrap (a - b).

Definition mul (a b : Z) : Z := wrap (a * b).

Definition abs (a : Z) : Z := wrap (Z.abs a).

End CInt.

Module IFD.

Import Digraph.

(** The random numbers that one proposal uses: the arc index that
    [int_urand] returns on a delete move, the pair of nodes with which the
    resampling loops end on an add move, and the value of [urand()] in the
    acceptance test.  The resampling loops themselves are not modelled: every
    pair is admitted as their result, among them all the pairs with which
    the loops of the program can end. *)
Record draw : Type := mkDraw {
  d_arcidx : nat;
  d_i : nat;
  d_j : nat;
  d_u : float
}.

(** The collaborators of the sampler that are not among the sources:
    [calcChangeStats g i j n theta isDelete] returns [total] and the array
    [changestats] (the tables of change statistics are part of the function),
    and [exp] is the exponential of [math.h]. *)
Class ChangeStats : Type := {
  calcChangeStats :
    graph_t -> nat -> nat -> nat -> list float -> bool -> float * list float;
  exp : float -> float
}.

Inductive ifd_message : Type :=
| Warn_num_maxtermsender_arcs_0  (* "WARNING: IFD sampler
                                     num_maxtermsender_arcs == 0" *)
| Warn_increase_ifd_K.           (* "WARNING: IFD sampler Ndel = ... increase
                                     ifd_K = ..." *)

(** What outlives a call: the graph, the [static] variable [isDelete] of
    [ifdSampler], and [stderr]. *)
Record sampler_state : Type := mkSamplerState {
  ss_graph : graph_t;
  ss_isDelete : bool;
  ss_stderr : list ifd_message
}.

(** The initial value of the [static] variable. *)
Definition isDelete_initial : bool := false.

(** The local variables of a call that the loop changes. *)
Record locals : Type := mkLocals {
  accepted : nat;
  Ndel : Z;
  Nadd : Z;
  addStats : list float;
  delStats : list float
}.

(** What happened in one iteration of the loop; kept for the statements of
    the theorems, the program has no such record. *)
Record outcome : Type := mkOutcome {
  o_isDelete : bool;     (* the kind of move that was proposed *)
  o_i : nat;
  o_j : nat;
  o_accepted : bool;
  o_performMove : bool   (* the argument [performMove] of the call *)
}.

(** The literal [0.8] of the imbalance warning. *)
Definition c_0_8 : float := 0x1.999999999999ap-1.

Section Sampler.

Context {CS : ChangeStats}.

Variable n : nat.
Variable theta : list float.
Variable performMove : bool.
Variable ifd_aux_param : float.   (* the value of [*ifd_aux_param] on entry *)
Variables useConditionalEstimation forbidReciprocity : bool.
Variables citationERGM allowLoops : bool.

(** [arcs[int_urand(count)]] when [int_urand] returns [arcidx]: [None] when
    no entry of the array has that index (with [count = 0] there is none). *)
Definition pick_arc (count : nat) (arcs : list arc) (arcidx : nat)
  : option arc :=
  if (arcidx <? count)%nat then nth_error arcs arcidx else None.

(** The first part of the loop body: the assertions of the regime, the kind
    of move that is made, and the candidate [(i, j)] with [arcidx].  The
    state that is returned differs from [st] only when the citation regime
    finds no arc to delete, resets [isDelete] and warns. *)
Definition ifd_propose (st : sampler_state) (d : draw)
  : option (sampler_state * nat * nat * nat) :=
  let g := ss_graph st in
  if useConditionalEstimation then
    if forbidReciprocity || allowLoops then None
    else if ss_isDelete st then
      match pick_arc (num_inner_arcs g) (allinnerarcs g) (d_arcidx d) with
      | Some (i, j) => Some (st, i, j, d_arcidx d)
      | None => None
      end
    else Some (st, d_i d, d_j d, 0)
  else if citationERGM then
    if forbidReciprocity || allowLoops then None
    else
      let st1 :=
        if ss_isDelete st && Nat.eqb (num_maxtermsender_arcs g) 0
        then {| ss_graph := g; ss_isDelete := false;
                ss_stderr :=
                  ss_stderr st ++ [Warn_num_maxtermsender_arcs_0] |}
        else st in
      if ss_isDelete st1 then
        match pick_arc (num_maxtermsender_arcs g) (all_maxtermsender_arcs g)
                (d_arcidx d) with
        | Some (i, j) => Some (st1, i, j, d_arcidx d)
        | None => None
        end
      else Some (st1, d_i d, d_j d, 0)
  else
    if ss_isDelete st then
      match pick_arc (num_arcs g) (allarcs g) (d_arcidx d) with
      | Some (i, j) => Some (st, i, j, d_arcidx d)
      | None => None
      end
    else Some (st, d_i d, d_j d, 0).

(** The arcs that a delete move of the active regime chooses from, and
    their number. *)
Definition eligible_count (g : graph_t) : nat :=
  if useConditionalEstimation then num_inner_arcs g
  else if citationERGM then num_maxtermsender_arcs g
  else num_arcs g.

Definition eligible_arcs (g : graph_t) : list arc :=
  if useConditionalEstimation then allinnerarcs g
  else if citationERGM then all_maxtermsender_arcs g
  else allarcs g.

(** The three-way choice of the store routine by regime. *)
Definition regime_removeArc (g : graph_t) (i j arcidx : nat) : graph_t :=
  if useConditionalEstimation then removeArc_allinnerarcs g i j arcidx
  else if citationERGM then removeArc_all_maxtermsender_arcs g i j arcidx
  else removeArc_allarcs g i j arcidx.

Definition regime_insertArc (g : graph_t) (i j : nat) : graph_t :=
  if useConditionalEstimation then insertArc_allinnerarcs g i j
  else if citationERGM then insertArc_all_maxtermsender_arcs g i j
  else insertArc_allarcs g i j.

(** [for (l = 0; l < n; l++) sums[l] += changestats[l]]. *)
Definition accumulate (sums changestats : list float) : list float :=
  tabulate n (fun l => (at_ sums l + at_ changestats l)%float).

(** One iteration of [for (k = 0; k < sampler_m; k++)]. *)
Definition ifd_iteration (st : sampler_state) (loc : locals) (d : draw)
  : option (sampler_state * locals * outcome) :=
  match ifd_propose st d with
  | None => None
  | Some (st1, i, j, arcidx) =>
      let isDelete := ss_isDelete st1 in
      let g1 :=
        if isDelete then regime_removeArc (ss_graph st1) i j arcidx
        else ss_graph st1 in
      let Ndel1 := if isDelete then CInt.add (Ndel loc) 1 else Ndel loc in
      let Nadd1 := if isDelete then Nadd loc else CInt.add (Nadd loc) 1 in
      let '(total0, changestats) :=
        calcChangeStats g1 i j n theta isDelete in
      let total :=
        (total0 + (if isDelete then -1 else 1) * ifd_aux_param)%float in
      if (d_u d <? exp total)%float then
        let g2 :=
          if performMove then
            if negb isDelete then regime_insertArc g1 i j else g1
          else
            if isDelete then regime_insertArc g1 i j else g1 in
        Some
          ({| ss_graph := g2; ss_isDelete := negb isDelete;
              ss_stderr := ss_stderr st1 |},
           {| accepted := S (accepted loc); Ndel := Ndel1; Nadd := Nadd1;
              addStats :=
                if isDelete then addStats loc
                else accumulate (addStats loc) changestats;
              delStats :=
                if isDelete then accumulate (delStats loc) changestats
                else delStats loc |},
           {| o_isDelete := isDelete; o_i := i; o_j := j;
              o_accepted := true; o_performMove := performMove |})
      else
        let g2 := if isDelete then regime_insertArc g1 i j else g1 in
        Some
          ({| ss_graph := g2; ss_isDelete := isDelete;
              ss_stderr := ss_stderr st1 |},
           {| accepted := accepted loc; Ndel := Ndel1; Nadd := Nadd1;
              addStats := addStats loc; delStats := delStats loc |},
           {| o_isDelete := isDelete; o_i := i; o_j := j;
              o_accepted := false; o_performMove := performMove |})
  end.

(** The loop, over the draws of its iterations in turn. *)
Fixpoint ifd_loop (draws : list draw) (st : sampler_state) (loc : locals)
  : option (sampler_state * locals * list outcome) :=
  match draws with
  | [] => Some (st, loc, [])
  | d :: rest =>
      match ifd_iteration st loc d with
      | None => None
      | Some (st1, loc1, o) =>
          match ifd_loop rest st1 loc1 with
          | None => None
          | Some (st2, loc2, os) => Some (st2, loc2, o :: os)
          end
      end
  end.

(** What the resampling loops of the add moves ensure, replayed over the
    draws of a loop: the pair that an add move proposes is not an arc of the
    graph at that time. *)
Fixpoint add_draws_fresh (draws : list draw) (st : sampler_state)
  (loc : locals) : bool :=
  match draws with
  | [] => true
  | d :: rest =>
      match ifd_iteration st loc d with
      | Some (st1, loc1, o) =>
          (o_isDelete o || negb (isArc (ss_graph st) (o_i o) (o_j o)))
          && add_draws_fresh rest st1 loc1
      | None => true
      end
  end.

(** The locals on entry to the loop. *)
Definition locals_initial : locals :=
  {| accepted := 0; Ndel := 0; Nadd := 0;
     addStats := zeros n; delStats := zeros n |}.

(** [ifd_aux_param_step]: the numerator is computed in [double], the
    denominator in [int]. *)
Definition ifd_aux_param_step (ifd_K : float) (Ndel Nadd : Z) : float :=
  (ifd_K * of_int (CInt.sub Ndel Nadd) * of_int (CInt.sub Ndel Nadd)
   / of_int (CInt.mul (CInt.add Ndel Nadd) (CInt.add Ndel Nadd)))%float.

(** The update of [*ifd_aux_param] after the loop. *)
Definition ifd_aux_param_update (ifd_K : float) (Ndel Nadd : Z) : float :=
  let step := ifd_aux_param_step ifd_K Ndel Nadd in
  if (CInt.sub Ndel Nadd >? 0)%Z then (ifd_aux_param - step)%float
  else if (CInt.sub Ndel Nadd <? 0)%Z then (ifd_aux_param + step)%float
  else ifd_aux_param.

(** What a call returns and leaves behind. *)
Record ifd_return : Type := mkIfdReturn {
  ret_state : sampler_state;
  ret_acceptance_rate : float;
  ret_addChangeStats : list float;
  ret_delChangeStats : list float;
  ret_dzArc : float;
  ret_ifd_aux_param : float;
  ret_Ndel : Z;                 (* the locals [Ndel], [Nadd] at the end *)
  ret_Nadd : Z;
  ret_trace : list outcome      (* what each iteration did *)
}.

(** [ifdSampler]: [rng k] holds the random numbers of iteration [k].  [None]
    when the call does not return: an assertion fails, or a delete move
    reads an arc outside its array. *)
Definition ifdSampler (st : sampler_state) (sampler_m : nat) (ifd_K : float)
  (rng : nat -> draw) : option ifd_return :=
  match ifd_loop (map rng (seq 0 sampler_m)) st locals_initial with
  | None => None
  | Some (st1, loc, trace) =>
      let aux := ifd_aux_param_update ifd_K (Ndel loc) (Nadd loc) in
      let warn :=
        (c_0_8 <? of_int (CInt.abs (CInt.sub (Ndel loc) (Nadd loc)))
                  / of_int (CInt.add (Ndel loc) (Nadd loc)))%float in
      Some
        {| ret_state :=
             {| ss_graph := ss_graph st1; ss_isDelete := ss_isDelete st1;
                ss_stderr :=
                  if warn then ss_stderr st1 ++ [Warn_increase_ifd_K]
                  else ss_stderr st1 |};
           ret_acceptance_rate :=
             (of_uint (accepted loc) / of_uint sampler_m)%float;
           ret_addChangeStats := addStats loc;
           ret_delChangeStats := delStats loc;
           ret_dzArc := (of_int (Ndel loc) - of_int (Nadd loc))%float;
           ret_ifd_aux_param := aux;
           ret_Ndel := Ndel loc;
           ret_Nadd := Nadd loc;
           ret_trace := trace |}
  end.

End Sampler.

(** The invariants of the store that the sampler of a regime relies on:
    those of the neighbour lists and of [allarcs], and those of the list
    the regime's delete moves pick from. *)
Definition regime_invariant (useConditionalEstimation citationERGM : bool)
  (g : graph_t) : Prop :=
  store_invariant g
  /\ side_list_invariant g
       (eligible_arcs useConditionalEstimation citationERGM g)
       (eligible_count useConditionalEstimation citationERGM g).



(** Proposals that follow one another in a process, possibly in several
    calls: each is one iteration of the loop, made with the [theta], the
    [performMove], the auxiliary parameter and the locals of the call it
    belongs to; the graph and the [static] variable pass from one to the
    next. *)
Inductive ifd_run {CS : ChangeStats}
  (useConditionalEstimation forbidReciprocity citationERGM allowLoops : bool)
  : sampler_state -> list outcome -> sampler_state -> Prop :=
| ifd_run_nil (st : sampler_state) :
    ifd_run useConditionalEstimation forbidReciprocity
      citationERGM allowLoops st [] st
| ifd_run_cons (n : nat) (theta : list float) (performMove : bool)
    (aux : float) (st st1 st2 : sampler_state) (loc loc1 : locals)
    (d : draw) (o : outcome) (os : list outcome) :
    ifd_iteration n theta performMove aux useConditionalEstimation
      forbidReciprocity citationERGM allowLoops st loc d
      = Some (st1, loc1, o) ->
    ifd_run useConditionalEstimation forbidReciprocity
      citationERGM allowLoops st1 os st2 ->
    ifd_run useConditionalEstimation forbidReciprocity
      citationERGM allowLoops st (o :: os) st2.

(** The citation regime is the active one. *)
Definition citation_regime (useConditionalEstimation citationERGM : bool)
  : bool :=
  negb useConditionalEstimation && citationERGM.

(** The kind of the proposal that is made from state [st]: the value of the
    [static] variable, or an add move that the citation regime makes
    because it has no arc to delete. *)
Definition kind_from (useConditionalEstimation citationERGM : bool)
  (st : sampler_state) (o : outcome) : Prop :=
  o_isDelete o = ss_isDelete st
  \/ (citation_regime useConditionalEstimation citationERGM = true
      /\ ss_isDelete st = true
      /\ num_maxtermsender_arcs (ss_graph st) = 0
      /\ o_isDelete o = false).

(** The guard of the citation regime: a delete move is due and there is no
    arc from a max-term node. *)
Definition forced_add (useConditionalEstimation citationERGM : bool)
  (st : sampler_state) : bool :=
  citation_regime useConditionalEstimation citationERGM
  && ss_isDelete st
  && Nat.eqb (num_maxtermsender_arcs (ss_graph st)) 0.

(** The statement that the kind of move changes from one proposal of a call
    to the next exactly when the first of the two is accepted. *)
Definition kind_flips_iff_accepted : Prop :=
  forall (CS : ChangeStats) (n : nat) (theta : list float)
    (performMove : bool) (aux : float)
    (useConditionalEstimation forbidReciprocity citationERGM allowLoops : bool)
    (draws : list draw) (st st' : sampler_state) (loc loc' : locals)
    (trace : list outcome),
    ifd_loop n theta performMove aux useConditionalEstimation
      forbidReciprocity citationERGM allowLoops draws st loc
      = Some (st', loc', trace) ->
    forall (k : nat) (o1 o2 : outcome),
      nth_error trace k = Some o1 ->
      nth_error trace (S k) = Some o2 ->
      (o_isDelete o2 = negb (o_isDelete o1) <-> o_accepted o1 = true).

(** The number of proposals of one kind in a trace. *)
Definition count_kind (isDelete : bool) (trace : list outcome) : nat :=
  List.length (filter (fun o => Bool.eqb (o_isDelete o) isDelete) trace).

End IFD.

(* ----------------------------------------------------------------- *)
(** ** The IFD sampler inside the engine, and test doubles *)

Module Linked.

Import Digraph IFD.

(** The world of a run that uses the IFD sampler: what outlives a sampler
    call, and the random numbers of the proposals still to come. *)
Definition ifd_world : Type := (sampler_state * (nat -> draw))%type.

(** The engine whose IFD sampler is the model above, called as
    [equilibriumExpectation.c] calls it (no citation regime, no loops).
    [basic] and [msd] stand for [basicSampler] and [mean_and_sd]. *)
Definition ifd_engine (CS : ChangeStats)
  (basic : ifd_world -> nat -> list float -> nat -> bool -> bool -> bool ->
           option (ifd_world * sampler_result))
  (msd : list float -> float * float) : Engine ifd_world :=
  {| basicSampler := basic;
     ifdSampler_call := fun w n theta sampler_m performMove K aux uc fr =>
       match ifdSampler n theta performMove aux uc fr false false
               (fst w) sampler_m K (snd w) with
       | Some r =>
           Some ((ret_state r, fun k => snd w (k + sampler_m)),
                 {| ifd_sampler_result :=
                      {| acceptance_rate := ret_acceptance_rate r;
                         addChangeStats := ret_addChangeStats r;
                         delChangeStats := ret_delChangeStats r |};
                    ifd_dzArc := ret_dzArc r;
                    ifd_aux_param_out := ret_ifd_aux_param r |})
       | None => None
       end;
     mean_and_sd := msd |}.

(** A stand-in for [exp] in worked examples: the values that the C standard
    fixes (F.10.3.1: [exp(+-0) = 1], [exp(-inf) = +0], [exp(+inf) = +inf]);
    the examples call it at no other argument. *)
Definition exp_fixed (x : float) : float :=
  if (x =? 0)%float then 1%float
  else if (x =? neg_infinity)%float then 0%float
  else if (x =? infinity)%float then infinity
  else nan.

(** A stand-in for [calcChangeStats] in worked examples: a model in which
    every change statistic of every dyad is 0 (as for attribute effects on an
    attribute that is missing everywhere), so that [total] is 0. *)
Definition zero_stats : ChangeStats :=
  {| calcChangeStats := fun _ _ _ n _ _ => (0%float, zeros n);
     exp := exp_fixed |}.

(** Another stand-in: every change statistic is 1 for every dyad (as
    [changeArc] is), negated on a delete move, and [total] is the sum of
    [theta_l * changestats_l] as section 4.2 has it. *)
Definition unit_stats : ChangeStats :=
  {| calcChangeStats := fun _ _ _ n theta isDelete =>
       let changestats :=
         tabulate n (fun _ => if isDelete then (-1)%float else 1%float) in
       (fold_left
          (fun total l => (total + at_ theta l * at_ changestats l)%float)
          (seq 0 n) 0%float,
        changestats);
     exp := exp_fixed |}.

(** No basic sampler is linked into the examples. *)
Definition no_basicSampler
  : ifd_world -> nat -> list float -> nat -> bool -> bool -> bool ->
    option (ifd_world * sampler_result) :=
  fun _ _ _ _ _ _ _ => None.

Definition example_engine : Engine ifd_world :=
  ifd_engine zero_stats no_basicSampler (fun _ => (0%float, 0%float)).

(** Random numbers for the examples: every add move proposes [0 -> 1], every
    delete move the first arc of its list, and [urand()] is always 0.5. *)
Definition example_draw : draw :=
  {| d_arcidx := 0; d_i := 0; d_j := 1; d_u := 0.5%float |}.

Definition example_world (isDelete : bool) : ifd_world :=
  ({| ss_graph := empty_graph 2; ss_isDelete := isDelete; ss_stderr := [] |},
   fun _ => example_draw).

(** The graph on two nodes whose only arc is [1 -> 0]. *)
Definition one_arc_graph : graph_t := insertArc_allarcs (empty_graph 2) 1 0.

Definition one_arc_world : ifd_world :=
  ({| ss_graph := one_arc_graph; ss_isDelete := isDelete_initial;
      ss_stderr := [] |},
   fun _ => example_draw).

Definition unit_engine : Engine ifd_world :=
  ifd_engine unit_stats no_basicSampler (fun _ => (0%float, 0%float)).

(** A stand-in for [mean_and_sd] in worked examples: the arithmetic mean of
    the values, and their standard deviation about it (the square root of
    the mean of the squared deviations). *)
Definition mean_sd (values : list float) : float * float :=
  let k := of_uint (List.length values) in
  let mean := (fold_left (fun s x => s + x) values 0 / k)%float in
  let var :=
    (fold_left (fun s x => s + (x - mean) * (x - mean)) values 0 / k)%float in
  (mean, PrimFloat.sqrt var).

Definition worked_engine : Engine ifd_world :=
  ifd_engine unit_stats no_basicSampler mean_sd.

End Linked.

(* ----------------------------------------------------------------- *)
(** ** The update rules as section 4 of the specification words them *)

Module Wording.

(** Section 4.5, for the iteration of Algorithm S that takes the loop
    variables from [st] to [st'] with the sampler's result [r]: for every
    position, [D0_l += dzA_l^2], [da_l = ACA / sum_l^2] (0 when
    [sum_l = 0]) and [theta_l += sign(dzA_l) * da_l * dzA_l^2], where
    [dzA_l = delSum_l - addSum_l] and [sum_l = addSum_l + delSum_l]. *)
Definition S_iteration_spec (world : Type) (n : nat) (ACA : float)
  (st st' : @S_state world) (r : sampler_result) : Prop :=
  forall l, l < n ->
    let add := at_ (addChangeStats r) l in
    let del := at_ (delChangeStats r) l in
    let dzA := (del - add)%float in
    let sum := (add + del)%float in
    let da :=
      if ((sum <? 0) || (0 <? sum))%float then (ACA / (sum * sum))%float
      else 0%float in
    at_ (S_D0 st') l = (at_ (S_D0 st) l + dzA * dzA)%float
    /\ ((sum =? 0)%float = true -> da = 0%float)
    /\ at_ (S_theta st') l =
       (at_ (S_theta st) l
        + (if (dzA <? 0)%float then -1 else 1) * da * dzA * dzA)%float.

(** The sign function with [sign(0) = 0]. *)
Definition sign3 (x : float) : float :=
  if (x <? 0)%float then (-1)%float
  else if (0 <? x)%float then 1%float else 0%float.

(** Section 4.6, Borisenko rule:
    [theta_l <- theta_l - sign(dzA_l) * learningRate * max(|theta_l|, minTheta)],
    whose step is zero when [dzA_l = 0]. *)
Definition Borisenko_update (learningRate minTheta dzA theta : float) : float :=
  (theta - sign3 dzA * learningRate * MAX (fabs theta) minTheta)%float.

(** The statement that every inner step of Algorithm EE with
    [useBorisenkoUpdate] applies that rule at every position, [dzA] being
    the accumulator after the step. *)
Definition Borisenko_rule_everywhere : Prop :=
  forall (world : Type) (E : Engine world) (n sampler_m : nat)
    (ACA : float) (useIFD : bool) (K : float) (useCond forbidRecip : bool)
    (learningRate minTheta : float) (st st' : @EE_state world),
    EE_inner n sampler_m ACA useIFD K useCond forbidRecip true
      learningRate minTheta st = Some st' ->
    forall l, l < n ->
      at_ (EE_theta st') l =
      Borisenko_update learningRate minTheta
        (at_ (EE_dzA st') l) (at_ (EE_theta st) l).

End Wording.

(* ----------------------------------------------------------------- *)
(** ** Configurations and environments of the worked examples *)

Module Examples.

Import Digraph IFD Linked.

(** An environment in which every file opens and every loader succeeds, with
    the empty graph on two nodes. *)
Definition friendly_env : environment ifd_world :=
  {| loaded_world := example_world isDelete_initial;
     fopen_arclist_ok := true;
     load_attributes_ok := true;
     add_snowball_zones_ok := true;
     env_max_zone := 0;
     build_attr_indices_ok := true;
     build_dyadic_indices_ok := true;
     num_dyadic_after_build := 0;
     build_attr_interaction_ok := true;
     fopen_theta_ok := true;
     fopen_dzA_ok := true |}.

(** An estimation task with the IFD sampler, one attribute parameter and one
    proposal per sampler call. *)
Definition degenerate_config : estim_config_t :=
  {| ACA_S := 0x1p-3; ACA_EE := 0x1p-10; compC := 0x1p-7;
     samplerSteps := 1; Ssteps := 1; EEsteps := 1; EEinnerSteps := 1;
     useIFDsampler := true; ifd_K := 0x1p-3;
     outputSimulatedNetwork := false;
     zone_filename := None;
     useConditionalEstimation := false;
     forbidReciprocity := false;
     useBorisenkoUpdate := true;
     learningRate := 0x1p-7; minTheta := 0x1p-7;
     param_names := [];
     num_attr_change_stats_funcs := 1;
     num_attr_interaction_change_stats_funcs := 0 |}.

(** What [ee_estimate] returns on that task when every change statistic is
    0: [D0 = 0], [Dmean = 1/0], error code 1. *)
Definition degenerate_ee_outcome : @ee_outcome ifd_world :=
  {| ee_errcode := 1;
     ee_world :=
       ({| ss_graph := empty_graph 2; ss_isDelete := true;
           ss_stderr := [Warn_increase_ifd_K] |},
        fun _ => example_draw);
     ee_theta := [0%float];
     ee_Dmean := [infinity];
     ee_log := [Msg_running_S; Warn_D0_degenerate 0] |}.

(** A simulation with the IFD sampler and the structural parameter Arc. *)
Definition arc_with_IFD_config : sim_config_t :=
  {| sim_numNodes := 2;
     sim_samplerSteps := 2;
     sim_useIFDsampler := true;
     sim_ifd_K := 0x1p-3;
     sim_zone_filename := None;
     sim_useConditionalEstimation := false;
     sim_forbidReciprocity := false;
     sim_param_names := ["Arc"%string];
     sim_num_attr_change_stats_funcs := 0;
     sim_num_attr_interaction_change_stats_funcs := 0 |}.

(** One iteration of the IFD loop in the plain regime, in a model without
    parameters ([n = 0], so that [total] is plus or minus the auxiliary
    parameter), with [performMove] and the random numbers
    [example_draw]. *)
Definition step (aux : float) (st : sampler_state) :=
  ifd_iteration (CS := zero_stats) 0 [] true aux false false false false
    st (locals_initial 0) example_draw.

Definition state_after (x : option (sampler_state * locals * outcome))
  (otherwise : sampler_state) : sampler_state :=
  match x with Some (st, _, _) => st | None => otherwise end.

Definition locals_after (x : option (sampler_state * locals * outcome))
  : locals :=
  match x with Some (_, loc, _) => loc | None => locals_initial 0 end.

Definition outcome_after (x : option (sampler_state * locals * outcome))
  : outcome :=
  match x with
  | Some (_, _, o) => o
  | None =>
      {| o_isDelete := false; o_i := 0; o_j := 0; o_accepted := false;
         o_performMove := false |}
  end.

(** An alternation round on the empty graph, over three calls of one
    proposal each: an add move that is accepted (auxiliary parameter 0), a
    delete move that is rejected (auxiliary parameter [+inf], acceptance
    probability [exp(-inf) = 0]), and a delete move that is accepted. *)
Definition round_start : sampler_state :=
  {| ss_graph := empty_graph 2; ss_isDelete := isDelete_initial;
     ss_stderr := [] |}.

Definition round_state1 : sampler_state :=
  state_after (step 0 round_start) round_start.

Definition round_state2 : sampler_state :=
  state_after (step infinity round_state1) round_start.

Definition round_state3 : sampler_state :=
  state_after (step 0 round_state2) round_start.

Definition round_trace : list outcome :=
  [outcome_after (step 0 round_start);
   outcome_after (step infinity round_state1);
   outcome_after (step 0 round_state2)].

(** A call in the citation regime without [performMove] on the empty graph:
    two proposals, both accepted. *)
Definition citation_start : sampler_state :=
  {| ss_graph := empty_graph 2; ss_isDelete := isDelete_initial;
     ss_stderr := [] |}.

Definition citation_loop :=
  ifd_loop (CS := zero_stats) 0 [] false 0 false false true false
    [example_draw; example_draw] citation_start (locals_initial 0).






(** Three proposals in the citation regime on the empty graph, over two
    calls: the last proposal of a call without [performMove], an add move
    that is accepted and leaves the graph empty; then two proposals of a
    call with [performMove], the first of which finds a delete move due and
    no arc to delete. *)
Definition citation_step (performMove : bool) (st : sampler_state) :=
  ifd_iteration (CS := zero_stats) 0 [] performMove 0 false false true false
    st (locals_initial 0) example_draw.

Definition citation_state1 : sampler_state :=
  state_after (citation_step false citation_start) citation_start.

Definition citation_state2 : sampler_state :=
  state_after (citation_step true citation_state1) citation_start.

Definition citation_state3 : sampler_state :=
  state_after (citation_step true citation_state2) citation_start.

Definition citation_trace : list outcome :=
  [outcome_after (citation_step false citation_start);
   outcome_after (citation_step true citation_state1);
   outcome_after (citation_step true citation_state2)].

(** A call with 50000 proposals, all of them add moves that are rejected
    ([theta_0 = -inf] with a unit change statistic). *)
Definition big_sampler_m : nat := 50 * 1000.

Definition big_call : option ifd_return :=
  ifdSampler (CS := unit_stats) 1 [neg_infinity] false 0 false false false
    false round_start big_sampler_m 0x1p-3 (fun _ => example_draw).

End Examples.
(* ----------------------------------------------------------------- *)
(** ** Loops that run side by side *)

(** Two runs that both abort, or both return and return related values. *)
Definition option_rel (A : Type) (R : A -> A -> Prop) (x y : option A)
  : Prop :=
  match x, y with
  | Some a, Some b => R a b
  | None, None => True
  | _, _ => False
  end.

(* ----------------------------------------------------------------- *)
(** ** More configurations for worked examples *)

Module DriverExamples.

(** An estimation task with the IFD sampler whose structural parameters
    include the arc term, spelled in capitals. *)
Definition capital_ARC_config : estim_config_t :=
  {| ACA_S := 0x1p-3; ACA_EE := 0x1p-10; compC := 0x1p-7;
     samplerSteps := 1000; Ssteps := 100; EEsteps := 500; EEinnerSteps := 100;
     useIFDsampler := true; ifd_K := 0x1p-3;
     outputSimulatedNetwork := false;
     zone_filename := None;
     useConditionalEstimation := false;
     forbidReciprocity := false;
     useBorisenkoUpdate := false;
     learningRate := 0x1p-7; minTheta := 0x1p-7;
     param_names := ["Reciprocity"%string; "ARC"%string];
     num_attr_change_stats_funcs := 0;
     num_attr_interaction_change_stats_funcs := 0 |}.

(** An estimation task that asks for conditional estimation and names no
    file of snowball zones, and the same as a simulation task. *)
Definition conditional_without_zones : estim_config_t :=
  {| ACA_S := 0x1p-3; ACA_EE := 0x1p-10; compC := 0x1p-7;
     samplerSteps := 1000; Ssteps := 100; EEsteps := 500; EEinnerSteps := 100;
     useIFDsampler := false; ifd_K := 0x1p-3;
     outputSimulatedNetwork := false;
     zone_filename := None;
     useConditionalEstimation := true;
     forbidReciprocity := false;
     useBorisenkoUpdate := false;
     learningRate := 0x1p-7; minTheta := 0x1p-7;
     param_names := ["Reciprocity"%string];
     num_attr_change_stats_funcs := 0;
     num_attr_interaction_change_stats_funcs := 0 |}.

Definition sim_conditional_without_zones : sim_config_t :=
  {| sim_numNodes := 2;
     sim_samplerSteps := 1000;
     sim_useIFDsampler := false;
     sim_ifd_K := 0x1p-3;
     sim_zone_filename := None;
     sim_useConditionalEstimation := true;
     sim_forbidReciprocity := false;
     sim_param_names := ["Reciprocity"%string];
     sim_num_attr_change_stats_funcs := 0;
     sim_num_attr_interaction_change_stats_funcs := 0 |}.

End DriverExamples.

(* ----------------------------------------------------------------- *)
(** ** Change statistics for undirected graphs *)

(** The functions of [changeStatisticsUndirected.c].  Each returns the
    change of a statistic for adding the edge [i -- j]; [None] when an
    assertion fails or a loop reads past the end of a neighbour array. *)
Module Undirected.

(** [BIN_NA] of [digraph.h]: the value of a missing binary attribute. *)
Definition BIN_NA : Z := (-1)%Z.

(** The fields of [graph_t] that these functions read.  [edgelist[i]] is the
    array of the neighbours of [i], of which the loops read the first
    [degree[i]] entries; [binattr[a][i]] is an [int]. *)
Record graph_t : Type := mkGraph {
  is_directed : bool;
  degree : nat -> nat;
  edgelist : nat -> list nat;
  binattr : nat -> nat -> Z
}.

(** What the functions use that is not among the sources: the macros
    [POW_LOOKUP(x, y)] and [GET_2PATH_ENTRY(g, i, j)] and the function
    [isEdge]. *)
Class Store : Type := {
  POW_LOOKUP : float -> nat -> float;
  GET_2PATH_ENTRY : graph_t -> nat -> nat -> nat;
  isEdge : graph_t -> nat -> nat -> bool
}.

Section ChangeStatistics.

Context {ST : Store}.

Open Scope float_scope.

(** [changeEdge]. *)
Definition changeEdge (g : graph_t) (i j : nat) (lambda : float)
  : option float :=
  if is_directed g then None else Some 1.

(** [changeAltStars]: alternating k-stars. *)
Definition changeAltStars (g : graph_t) (i j : nat) (lambda : float)
  : option float :=
  if negb (1 <? lambda) then None
  else if is_directed g then None
  else
    Some (lambda * (2
                    - POW_LOOKUP (1 - 1 / lambda) (degree g i)
                    - POW_LOOKUP (1 - 1 / lambda) (degree g j))).

(** The nodes [v = g->edgelist[u][k]] that a loop
    [for (k = 0; k < g->degree[u]; k++)] visits, in order; [None] when
    [degree[u]] is more than the array holds. *)
Definition visited (g : graph_t) (u : nat) : option (list nat) :=
  if (degree g u <=? List.length (edgelist g u))%nat
  then Some (firstn (degree g u) (edgelist g u))
  else None.

(** One loop of [changeAltTwoPaths], over the neighbours [vs] of one end:
    a neighbour that is [i] or [j] is skipped, and every other neighbour
    [v] adds the power for the two-paths between [other] and [v]. *)
Definition two_paths_loop (g : graph_t) (lambda : float) (i j other : nat)
  (vs : list nat) (delta : float) : float :=
  fold_left
    (fun delta v =>
       if Nat.eqb v i || Nat.eqb v j then delta
       else delta + POW_LOOKUP (1 - 1 / lambda) (GET_2PATH_ENTRY g other v))
    vs delta.

(** [changeAltTwoPaths]: alternating two-paths. *)
Definition changeAltTwoPaths (g : graph_t) (i j : nat) (lambda : float)
  : option float :=
  if negb (1 <? lambda) then None
  else if is_directed g then None
  else if Nat.eqb i j then Some 0
  else
    match visited g j, visited g i with
    | Some vs_j, Some vs_i =>
        Some (two_paths_loop g lambda i j j vs_i
                (two_paths_loop g lambda i j i vs_j 0))
    | _, _ => None
    end.

(** [changeAltKTriangles] after its swap, with [j] the end whose neighbours
    are scanned. *)
Definition k_triangles_scan (g : graph_t) (lambda : float) (i j : nat)
  : option float :=
  match visited g j with
  | Some vs =>
      let delta :=
        fold_left
          (fun delta v =>
             if Nat.eqb v i || Nat.eqb v j then delta
             else if isEdge g i v
             then delta
                  + (POW_LOOKUP (1 - 1 / lambda) (GET_2PATH_ENTRY g i v)
                     + POW_LOOKUP (1 - 1 / lambda) (GET_2PATH_ENTRY g v j))
             else delta)
          vs 0 in
      Some (delta
            + lambda
              * (1 - POW_LOOKUP (1 - 1 / lambda) (GET_2PATH_ENTRY g i j)))
  | None => None
  end.

(** [changeAltKTriangles]: alternating k-triangles.  The two ends are
    swapped when [i] has the smaller degree. *)
Definition changeAltKTriangles (g : graph_t) (i j : nat) (lambda : float)
  : option float :=
  if negb (1 <? lambda) then None
  else if is_directed g then None
  else if Nat.eqb i j then Some 0
  else if (degree g i <? degree g j)%nat
  then k_triangles_scan g lambda j i
  else k_triangles_scan g lambda i j.

(** The term of [changeActivity] for one end: 0 for a missing value. *)
Definition activity_of (g : graph_t) (a i : nat) : Z :=
  if (binattr g a i =? BIN_NA)%Z then 0%Z else binattr g a i.

(** [changeActivity]: the sum is computed in [int]. *)
Definition changeActivity (g : graph_t) (i j a : nat) (isDelete : bool)
  : option float :=
  if is_directed g then None
  else Some (of_int (CInt.add (activity_of g a i) (activity_of g a j))).

End ChangeStatistics.

(** A store for worked examples: powers by repeated multiplication, no
    two-paths, and [isEdge] by a scan of the neighbour array. *)
Definition example_store : Store :=
  {| POW_LOOKUP := fun x y => fold_left (fun p _ => (p * x)%float) (seq 0 y) 1%float;
     GET_2PATH_ENTRY := fun _ _ _ => 0;
     isEdge := fun g i j => existsb (Nat.eqb j) (edgelist g i) |}.

(** The path [0 -- 1 -- 2] with a binary attribute that node 0 has, node 1
    has not, and that is missing for node 2. *)
Definition path_graph : graph_t :=
  {| is_directed := false;
     degree := fun i => match i with 1 => 2 | 0 | 2 => 1 | _ => 0 end;
     edgelist := fun i =>
       match i with 0 => [1] | 1 => [0; 2] | 2 => [1] | _ => [] end;
     binattr := fun _ i =>
       match i with 0 => 1%Z | 1 => 0%Z | _ => BIN_NA end |}.

(** The graph whose only edge is [0 -- 1]. *)
Definition single_edge_graph : graph_t :=
  {| is_directed := false;
     degree := fun i => match i with 0 | 1 => 1 | _ => 0 end;
     edgelist := fun i => match i with 0 => [1] | 1 => [0] | _ => [] end;
     binattr := fun _ _ => BIN_NA |}.

End Undirected.

(* ----------------------------------------------------------------- *)
(** ** The output files *)

(** What [do_estimation] and the two algorithms write to the theta file and
    the dzA file, as the values of the fields of each line ([%g] formats a
    double, which is kept here as the double).  [arc_correction_val] is the
    value that [arcCorrection(g)] returned before the loop; the function is
    outside the model. *)
Module Output.

Definition HEADER_MAX : nat := 64 * 1024.

(** The value of a [uint_t] counter that has been incremented [t] times
    from 0: 32 bits, unsigned, as [%u] prints it. *)
Definition uint_counter (t : nat) : Z := (Z.of_nat t mod 2 ^ 32)%Z.

(** [snprintf(fileheader + strlen(fileheader), HEADER_MAX, ...)] with the
    text [piece]: [fileheader] is an array of [HEADER_MAX] characters, and
    the call writes [piece] and a terminating zero after the text the array
    holds; [None] when that runs past the end of the array. *)
Definition header_append (h : option string) (piece : string)
  : option string :=
  match h with
  | Some s =>
      if (String.length s + String.length piece + 1 <=? HEADER_MAX)%nat
      then Some (s ++ piece)%string
      else None
  | None => None
  end.

(** The texts that the header loops of [do_estimation] append, in order:
    the arc term with the IFD sampler, then [" %s"] for every structural
    parameter, [" %s_%s"] for every attribute parameter (its name and the
    name of its attribute) and [" %s"] for every dyadic parameter.  Each
    array is a list, its length the counter of the loop. *)
Definition header_pieces (useIFDsampler : bool) (param_names : list string)
  (attr_params : list (string * string)) (dyadic_param_names : list string)
  : list string :=
  (if useIFDsampler then [" " ++ ARC_PARAM_STR] else [])%string
  ++ map (fun name => (" " ++ name)%string) param_names
  ++ map (fun p => (" " ++ fst p ++ "_" ++ snd p)%string) attr_params
  ++ map (fun name => (" " ++ name)%string) dyadic_param_names.

(** [fileheader] after [sprintf(fileheader, "t")] and the loops. *)
Definition fileheader (useIFDsampler : bool) (param_names : list string)
  (attr_params : list (string * string)) (dyadic_param_names : list string)
  : option string :=
  fold_left header_append
    (header_pieces useIFDsampler param_names attr_params dyadic_param_names)
    (Some "t"%string).

(** A line of the theta file: the iteration number, with the IFD sampler
    the arc parameter, then [theta] and the acceptance rate. *)
Record theta_line : Type := mkThetaLine {
  line_t : Z;
  line_arc : option float;
  line_theta : list float;
  line_acceptance_rate : float
}.

(** A line of the dzA file: the iteration number, with the IFD sampler
    [dzArc], then [dzA]. *)
Record dzA_line : Type := mkDzALine {
  dline_t : Z;
  dline_dzArc : option float;
  dline_dzA : list float
}.

(** The values between the iteration number and the acceptance rate. *)
Definition line_values (ln : theta_line) : list float :=
  match line_arc ln with
  | Some a => a :: line_theta ln
  | None => line_theta ln
  end.

(** A loop of [k] iterations, the first with counter [t], whose body also
    writes lines: [lines t a] are the lines of the iteration that starts in
    [a].  When an iteration does not finish, no line is given. *)
Fixpoint iter_lines (A L : Type) (k : nat) (body : A -> option A)
  (lines : nat -> A -> option (list L)) (t : nat) (a : A)
  : option (list L) :=
  match k with
  | O => Some []
  | S k' =>
      match lines t a, body a with
      | Some ls, Some a' =>
          match iter_lines k' body lines (S t) a' with
          | Some rest => Some (ls ++ rest)
          | None => None
          end
      | _, _ => None
      end
  end.

Section Files.

Context {world : Type} {E : Engine world}.

Variables (n sampler_m : nat) (ACA : float).
Variables (useIFDsampler : bool) (ifd_K : float).
Variables (useConditionalEstimation forbidReciprocity : bool).
Variable arc_correction_val : float.

(** The line that iteration [t] of Algorithm S writes:
    [fprintf(theta_outfile, "%d ", t-M1)] with both operands unsigned, the
    arc parameter after the call of the IFD sampler, [theta[l]] as each is
    updated, and the acceptance rate. *)
Definition S_line (M1 t : nat) (st : S_state) : option (list theta_line) :=
  match S_sample n sampler_m useIFDsampler ifd_K useConditionalEstimation
          forbidReciprocity st,
        S_iteration n sampler_m ACA useIFDsampler ifd_K
          useConditionalEstimation forbidReciprocity st with
  | Some (_, r, _, aux'), Some st' =>
      Some [{| line_t := CInt.wrap (Z.of_nat t - Z.of_nat M1);
               line_arc :=
                 if useIFDsampler
                 then Some (aux' - arc_correction_val)%float
                 else None;
               line_theta := S_theta st';
               line_acceptance_rate := acceptance_rate r |}]
  | _, _ => None
  end.

(** The lines that [algorithm_S] writes to the theta file. *)
Definition algorithm_S_lines (w : world) (M1 : nat)
  : option (list theta_line) :=
  iter_lines M1
    (S_iteration n sampler_m ACA useIFDsampler ifd_K
       useConditionalEstimation forbidReciprocity)
    (S_line M1) 0 (S_init n w).

Variables (useBorisenkoUpdate : bool) (learningRate minTheta : float).
Variable outputAllSteps : bool.

(** The lines that inner iteration [tinner] of Algorithm EE writes to the
    two files, when the running counter [t] (a [uint_t], printed with [%u])
    has been incremented [t] times: one to each file if
    [outputAllSteps || tinner == 0], none otherwise. *)
Definition EE_line (t tinner : nat) (st : EE_state)
  : option (list (theta_line * dzA_line)) :=
  match call_sampler useIFDsampler ifd_K useConditionalEstimation
          forbidReciprocity true n sampler_m (EE_world st) (EE_theta st)
          (EE_dzArc st) (EE_ifd_aux_param st),
        EE_inner n sampler_m ACA useIFDsampler ifd_K
          useConditionalEstimation forbidReciprocity useBorisenkoUpdate
          learningRate minTheta st with
  | Some (_, r, dzArc', aux'), Some st' =>
      if outputAllSteps || Nat.eqb tinner 0 then
        Some [({| line_t := uint_counter t;
                  line_arc :=
                    if useIFDsampler
                    then Some (aux' - arc_correction_val)%float
                    else None;
                  line_theta := EE_theta st';
                  line_acceptance_rate := acceptance_rate r |},
               {| dline_t := uint_counter t;
                  dline_dzArc :=
                    if useIFDsampler then Some dzArc' else None;
                  dline_dzA := EE_dzA st' |})]
      else Some []
  | _, _ => None
  end.

Variables (Minner : nat) (compC : float).

(** The lines of [Mouter] outer iterations, the first of them iteration
    [touter]; the counter [t] is [touter * Minner] when it starts. *)
Fixpoint EE_outer_lines (Mouter touter : nat) (st : EE_state)
  : option (list (theta_line * dzA_line)) :=
  match Mouter with
  | O => Some []
  | S k =>
      match
        iter_lines Minner
          (EE_inner n sampler_m ACA useIFDsampler ifd_K
             useConditionalEstimation forbidReciprocity useBorisenkoUpdate
             learningRate minTheta)
          (fun tinner s => EE_line (touter * Minner + tinner) tinner s)
          0
          {| EE_world := EE_world st; EE_theta := EE_theta st;
             EE_dzA := EE_dzA st; EE_D0 := EE_D0 st;
             EE_dzArc := EE_dzArc st;
             EE_ifd_aux_param := EE_ifd_aux_param st;
             EE_thetamatrix := [] |},
        EE_outer n Minner sampler_m ACA compC useIFDsampler ifd_K
          useConditionalEstimation forbidReciprocity useBorisenkoUpdate
          learningRate minTheta st
      with
      | Some ls, Some st' =>
          match EE_outer_lines k (S touter) st' with
          | Some rest => Some (ls ++ rest)
          | None => None
          end
      | _, _ => None
      end
  end.

(** What a pair of lines of Algorithm EE holds: the same number on both,
    [n] values each, and the extra field of the IFD sampler on both or on
    neither. *)
Definition EE_line_shape (p : theta_line * dzA_line) : Prop :=
  dline_t (snd p) = line_t (fst p)
  /\ List.length (line_theta (fst p)) = n
  /\ List.length (dline_dzA (snd p)) = n
  /\ (line_arc (fst p) <> None <-> useIFDsampler = true)
  /\ (dline_dzArc (snd p) <> None <-> useIFDsampler = true).

(** The numbers [t] at which the outer iterations [touter], ...,
    [touter + Mouter - 1] write a line. *)
Definition EE_line_numbers (Mouter touter : nat) : list Z :=
  flat_map
    (fun b =>
       flat_map
         (fun tinner =>
            if outputAllSteps || Nat.eqb tinner 0
            then [uint_counter (b * Minner + tinner)] else [])
         (seq 0 Minner))
    (seq touter Mouter).

(** The lines that [algorithm_EE] writes to the two files. *)
Definition algorithm_EE_lines (w : world) (Mouter : nat)
  (D0 theta : list float) : option (list (theta_line * dzA_line)) :=
  EE_outer_lines Mouter 0 (EE_init n w D0 theta).

End Files.

End Output.


(* ================================================================= *)
(** * Part II: the theorems *)
(* ================================================================= *)

Unset Implicit Arguments.

(* ----------------------------------------------------------------- *)
(** ** Arrays, loops and comparisons of doubles *)

Lemma tabulate_length (A : Type) (n : nat) (f : nat -> A) :
  List.length (tabulate n f) = n.
Proof. unfold tabulate. now rewrite length_map, length_seq. Qed.

Lemma at_tabulate (n : nat) (f : nat -> float) (l : nat) :
  l < n -> at_ (tabulate n f) l = f l.
Proof.
  intros Hl. unfold at_, tabulate.
  rewrite (nth_indep _ 0%float (f 0)) by (now rewrite length_map, length_seq).
  rewrite map_nth. f_equal. now rewrite seq_nth.
Qed.

Lemma at_zeros (n l : nat) : at_ (zeros n) l = 0%float.
Proof.
  unfold zeros. destruct (Nat.lt_ge_cases l n) as [Hl | Hl].
  - now rewrite at_tabulate.
  - unfold at_. apply nth_overflow. now rewrite tabulate_length.
Qed.

(** A loop of [k + 1] iterations is a loop of [k] iterations and one more. *)
Lemma iter_opt_succ (A : Type) (body : A -> option A) (k : nat) (a : A) :
  iter_opt (S k) body a =
  match iter_opt k body a with
  | Some b => body b
  | None => None
  end.
Proof.
  revert a. induction k as [| k IH]; intros a.
  - simpl. now destruct (body a).
  - change (iter_opt (S (S k)) body a)
      with (match body a with
            | Some a' => iter_opt (S k) body a'
            | None => None
            end).
    destruct (body a) as [a' |] eqn:Ha.
    + rewrite IH. simpl. now rewrite Ha.
    + simpl. now rewrite Ha.
Qed.

(** When a loop completes, so does every shorter one. *)
Lemma iter_opt_prefix (A : Type) (body : A -> option A) (k : nat) (a b : A) :
  iter_opt k body a = Some b ->
  forall t, t <= k -> exists c, iter_opt t body a = Some c.
Proof.
  revert b. induction k as [| k IH]; intros b Hk t Ht.
  - assert (t = 0) by lia. subst. now exists a.
  - rewrite iter_opt_succ in Hk.
    destruct (iter_opt k body a) as [c |] eqn:Hc; [| discriminate].
    destruct (Nat.eq_dec t (S k)) as [-> | Hne].
    + exists b. rewrite iter_opt_succ, Hc. exact Hk.
    + apply (IH c eq_refl). lia.
Qed.

(** A double that compares equal to zero is neither below nor above it. *)
Lemma feqb_zero_not_lt (x : float) :
  (x =? 0)%float = true -> (x <? 0)%float = false /\ (0 <? x)%float = false.
Proof.
  rewrite FloatAxioms.eqb_spec, !FloatAxioms.ltb_spec.
  change (Prim2SF 0) with (S754_zero false).
  unfold SFeqb, SFltb.
  destruct (Prim2SF x) as [s| s | | s m e]; simpl; intros H;
    try discriminate H; auto; destruct s; try discriminate H; auto.
Qed.

(* ----------------------------------------------------------------- *)
(** ** Algorithm S *)

Section AlgorithmS_facts.

Context {world : Type} {E : Engine world}.

Variables (n sampler_m : nat) (ACA : float) (useIFD : bool) (K : float).
Variables (useCond forbidRecip : bool).

Local Abbreviation iteration :=
  (S_iteration n sampler_m ACA useIFD K useCond forbidRecip).
Local Abbreviation sample :=
  (S_sample n sampler_m useIFD K useCond forbidRecip).
Local Abbreviation loop :=
  (S_loop n sampler_m ACA useIFD K useCond forbidRecip).

Lemma S_iteration_step (st st' : @S_state world) :
  iteration st = Some st' ->
  exists w1 r dzArc aux,
    sample st = Some (w1, r, dzArc, aux)
    /\ S_world st' = w1
    /\ Wording.S_iteration_spec n ACA st st' r.
Proof.
  unfold S_iteration. intros H.
  destruct (sample st) as [[[[w1 r] dzArc] aux] |] eqn:Hs; [| discriminate].
  injection H as <-. exists w1, r, dzArc, aux.
  split; [reflexivity | split; [reflexivity |]].
  unfold Wording.S_iteration_spec.
  intros l Hl. cbv zeta. simpl.
  rewrite !at_tabulate by assumption.
  split; [reflexivity | split; [| reflexivity]].
  intros Hz.
  destruct (feqb_zero_not_lt _ Hz) as [-> ->]. reflexivity.
Qed.

(** The loop of Algorithm S completes when each of its sampler calls
    returns. *)
Lemma S_loop_returns (M1 : nat) (st0 : @S_state world) :
  (forall t st, t < M1 -> loop t st0 = Some st -> sample st <> None) ->
  exists st, loop M1 st0 = Some st.
Proof.
  unfold S_loop. induction M1 as [| M1 IH]; intros Hs.
  - now exists st0.
  - destruct IH as [st Hst]; [intros t st' Ht; apply Hs; lia |].
    rewrite iter_opt_succ, Hst.
    specialize (Hs M1 st (Nat.lt_succ_diag_r M1) Hst).
    unfold S_iteration.
    destruct (sample st) as [[[[w1 r] dzArc] aux] |]; [| now destruct Hs].
    eexists. reflexivity.
Qed.

(** C4: Algorithm S, when each of its sampler calls returns, returns
    [theta] and [Dmean] computed as follows.  It starts from [theta = 0]
    (and [D0 = 0]); each of its [M1] iterations [t] calls the sampler with
    [performMove = FALSE] on the current [theta] and, for every position
    [l], adds [dzA_l^2] to [D0_l] and [sign(dzA_l) * da_l * dzA_l^2] to
    [theta_l], where [dzA_l = del_l - add_l], [sum_l = add_l + del_l] and
    [da_l = ACA / sum_l^2], taken as 0 when [sum_l = 0]; on return
    [Dmean_l = sampler_m / D0_l]. *)
Theorem algorithm_S_iterations (w : world) (M1 : nat) :
  (forall t st, t < M1 -> loop t (S_init n w) = Some st ->
     sample st <> None) ->
  exists (w' : world) (theta Dmean : list float)
         (states : nat -> @S_state world),
    algorithm_S w n M1 sampler_m ACA useIFD K useCond forbidRecip
      = Some (w', theta, Dmean)
    /\ S_world (states 0) = w
    /\ (forall l, at_ (S_theta (states 0)) l = 0%float
                  /\ at_ (S_D0 (states 0)) l = 0%float)
    /\ (forall t, t < M1 ->
          exists w1 r dzArc aux,
            sample (states t) = Some (w1, r, dzArc, aux)
            /\ S_world (states (S t)) = w1
            /\ Wording.S_iteration_spec n ACA (states t) (states (S t)) r)
    /\ w' = S_world (states M1)
    /\ theta = S_theta (states M1)
    /\ List.length Dmean = n
    /\ (forall l, l < n ->
          at_ Dmean l = (of_uint sampler_m / at_ (S_D0 (states M1)) l)%float).
Proof.
  intros Hs. destruct (S_loop_returns M1 (S_init n w) Hs) as [stM HM].
  exists (S_world stM), (S_theta stM),
    (tabulate n (fun l => (of_uint sampler_m / at_ (S_D0 stM) l)%float)),
    (fun t => match loop t (S_init n w) with
              | Some st => st
              | None => S_init n w
              end).
  split; [unfold algorithm_S; now rewrite HM |].
  split; [reflexivity |].
  split; [intros l; simpl; now rewrite at_zeros |].
  split.
  - intros t Ht.
    destruct (iter_opt_prefix _ _ _ _ _ HM (S t)) as [st' Hst']; [lia |].
    unfold S_loop in *. rewrite Hst'.
    rewrite iter_opt_succ in Hst'.
    destruct (iter_opt t iteration (S_init n w)) as [st |]; [| discriminate].
    now apply S_iteration_step.
  - rewrite HM. split; [reflexivity | split; [reflexivity |]].
    split; [apply tabulate_length |].
    intros l Hl. now rewrite at_tabulate.
Qed.

End AlgorithmS_facts.

(** A run of Algorithm S: one iteration of one proposal on a graph with
    one arc, with a single unit change statistic. *)
Lemma algorithm_S_example :
  algorithm_S (E := Linked.unit_engine) Linked.one_arc_world
    1 1 1 0x1p-3%float true 0x1p-3%float false false
  = Some (({| IFD.ss_graph := Linked.one_arc_graph;
              IFD.ss_isDelete := true;
              IFD.ss_stderr := [IFD.Warn_increase_ifd_K] |},
           fun k => snd Linked.one_arc_world (k + 1)),
          [(-0x1p-3)%float], [1%float]).
Proof. vm_compute. reflexivity. Qed.

(** Two iterations of one proposal each on that graph: an add move and then
    the delete move of the arc, both accepted.  [theta] goes from 0 to
    [-1/8] and to [-1/4], [D0] from 0 to 1 and to 2. *)
Lemma algorithm_S_witness :
  exists (w' : Linked.ifd_world) (states : nat -> @S_state Linked.ifd_world),
    algorithm_S (E := Linked.unit_engine) Linked.one_arc_world
      1 2 1 0x1p-3%float true 0x1p-3%float false false
      = Some (w', [(-0x1p-2)%float], [0x1p-1%float])
    /\ S_world (states 0) = Linked.one_arc_world
    /\ (forall l, at_ (S_theta (states 0)) l = 0%float
                  /\ at_ (S_D0 (states 0)) l = 0%float)
    /\ (forall t, t < 2 ->
          exists w1 r dzArc aux,
            S_sample (E := Linked.unit_engine) 1 1 true 0x1p-3%float
              false false (states t) = Some (w1, r, dzArc, aux)
            /\ S_world (states (S t)) = w1
            /\ Wording.S_iteration_spec 1 0x1p-3%float
                 (states t) (states (S t)) r)
    /\ w' = S_world (states 2)
    /\ [(-0x1p-2)%float] = S_theta (states 2)
    /\ List.length [0x1p-1%float] = 1
    /\ (forall l, l < 1 ->
          at_ [0x1p-1%float] l
          = (of_uint 1 / at_ (S_D0 (states 2%nat)) l)%float).
Proof.
  destruct (algorithm_S_iterations (E := Linked.unit_engine) 1 1
              0x1p-3%float true 0x1p-3%float false false
              Linked.one_arc_world 2)
    as [w' [theta [Dmean [states Hrun]]]].
  - intros t st Ht Hl. destruct t as [| [| t]]; [| | lia];
      vm_compute in Hl; injection Hl as <-; vm_compute; discriminate.
  - exists w', states.
    destruct Hrun as [Hret Hrest]. pose proof Hret as Hc.
    vm_compute in Hc. injection Hc as _ Htheta HDmean.
    rewrite <- Htheta, <- HDmean in Hret, Hrest.
    split; [exact Hret | exact Hrest].
Defined.

(* ----------------------------------------------------------------- *)
(** ** Algorithm EE *)

Section AlgorithmEE_facts.

Context {world : Type} {E : Engine world}.

Variables (n sampler_m : nat) (ACA : float) (useIFD : bool) (K : float).
Variables (useCond forbidRecip : bool) (learningRate minTheta : float).

(** C6 (amended): an inner step of Algorithm EE with [useBorisenkoUpdate]
    calls the sampler with [performMove = TRUE], adds [addSum_l - delSum_l]
    to the accumulator [dzA_l] that the previous inner step left, and moves
    [theta_l] by [learningRate * max(|theta_l|, minTheta)]: upwards when the
    new [dzA_l] is negative and downwards otherwise, so that at [dzA_l = 0]
    the step is [- learningRate * max(|theta_l|, minTheta)]. *)
Theorem EE_inner_Borisenko (st st' : @EE_state world) :
  EE_inner n sampler_m ACA useIFD K useCond forbidRecip true
    learningRate minTheta st = Some st' ->
  exists w1 r dzArc aux,
    call_sampler useIFD K useCond forbidRecip true n sampler_m
      (EE_world st) (EE_theta st) (EE_dzArc st) (EE_ifd_aux_param st)
      = Some (w1, r, dzArc, aux)
    /\ forall l, l < n ->
         let dzA := at_ (EE_dzA st') l in
         dzA = (at_ (EE_dzA st) l
                + (at_ (addChangeStats r) l - at_ (delChangeStats r) l))%float
         /\ ((dzA <? 0)%float = true ->
             at_ (EE_theta st') l
             = (at_ (EE_theta st) l
                + 1 * learningRate * MAX (fabs (at_ (EE_theta st) l)) minTheta)%float)
         /\ ((dzA <? 0)%float = false ->
             at_ (EE_theta st') l
             = (at_ (EE_theta st) l
                + -1 * learningRate * MAX (fabs (at_ (EE_theta st) l)) minTheta)%float)
         /\ ((dzA =? 0)%float = true ->
             at_ (EE_theta st') l
             = (at_ (EE_theta st) l
                + -1 * learningRate * MAX (fabs (at_ (EE_theta st) l)) minTheta)%float).
Proof.
  unfold EE_inner. intros H.
  destruct (call_sampler useIFD K useCond forbidRecip true n sampler_m
              (EE_world st) (EE_theta st) (EE_dzArc st)
              (EE_ifd_aux_param st))
    as [[[[w1 r] dzArc] aux] |] eqn:Hs; [| discriminate].
  injection H as <-. exists w1, r, dzArc, aux.
  split; [reflexivity |].
  intros l Hl. cbv zeta. simpl.
  rewrite !at_tabulate by assumption.
  unfold EE_theta_step, EE_dzA_next.
  split; [reflexivity |].
  split; [intros ->; reflexivity |].
  split; [intros ->; reflexivity |].
  intros Hz. destruct (feqb_zero_not_lt _ Hz) as [-> _]. reflexivity.
Qed.

(** The accumulator is not reset at an outer boundary either: with
    [useBorisenkoUpdate], an outer iteration is its [Minner] inner steps. *)
Lemma EE_outer_Borisenko (Minner : nat) (compC : float)
  (st : @EE_state world) :
  EE_outer n Minner sampler_m ACA compC useIFD K useCond forbidRecip true
    learningRate minTheta st
  = iter_opt Minner
      (EE_inner n sampler_m ACA useIFD K useCond forbidRecip true
         learningRate minTheta)
      {| EE_world := EE_world st; EE_theta := EE_theta st;
         EE_dzA := EE_dzA st; EE_D0 := EE_D0 st; EE_dzArc := EE_dzArc st;
         EE_ifd_aux_param := EE_ifd_aux_param st; EE_thetamatrix := [] |}.
Proof.
  unfold EE_outer.
  now destruct (iter_opt Minner _ _).
Qed.

End AlgorithmEE_facts.

(** An inner step in which nothing is accepted ([sampler_m = 0]): the
    accumulator stays 0 and [theta] still moves. *)
Lemma EE_inner_example :
  EE_inner (E := Linked.example_engine) 1 0 0x1p-3%float true 0x1p-3%float
    false false true 0x1p-7%float 0x1p-7%float
    (EE_init 1 (Linked.example_world false) [0%float] [0%float])
  = Some {| EE_world := (fst (Linked.example_world false),
                         fun k => snd (Linked.example_world false) (k + 0));
            EE_theta := [(-0x1p-14)%float];
            EE_dzA := [0%float];
            EE_D0 := [0%float];
            EE_dzArc := 0%float;
            EE_ifd_aux_param := 0%float;
            EE_thetamatrix := [[(-0x1p-14)%float]] |}.
Proof. vm_compute. reflexivity. Qed.

Lemma EE_inner_Borisenko_witness :
  exists w1 r dzArc aux,
    call_sampler (E := Linked.example_engine) true 0x1p-3%float false false
      true 1 0 (Linked.example_world false) [0%float] 0%float 0%float
      = Some (w1, r, dzArc, aux)
    /\ forall l, l < 1 ->
         let dzA := at_ [0%float] l in
         dzA = (at_ [0%float] l
                + (at_ (addChangeStats r) l - at_ (delChangeStats r) l))%float
         /\ ((dzA <? 0)%float = true ->
             at_ [(-0x1p-14)%float] l
             = (at_ [0%float] l
                + 1 * 0x1p-7 * MAX (fabs (at_ [0%float] l)) 0x1p-7)%float)
         /\ ((dzA <? 0)%float = false ->
             at_ [(-0x1p-14)%float] l
             = (at_ [0%float] l
                + -1 * 0x1p-7 * MAX (fabs (at_ [0%float] l)) 0x1p-7)%float)
         /\ ((dzA =? 0)%float = true ->
             at_ [(-0x1p-14)%float] l
             = (at_ [0%float] l
                + -1 * 0x1p-7 * MAX (fabs (at_ [0%float] l)) 0x1p-7)%float).
Proof.
  exact (EE_inner_Borisenko (E := Linked.example_engine) 1 0 0x1p-3%float
           true 0x1p-3%float false false 0x1p-7%float 0x1p-7%float
           _ _ EE_inner_example).
Defined.

(** C6 (as stated) fails: in the inner step of [EE_inner_example] the
    accumulator is 0 at position 0, where the rule with [sign(0) = 0] leaves
    [theta_0 = 0], and the program moves it to [-2^-14]. *)
Lemma Borisenko_rule_fails_at_zero_dzA : ~ Wording.Borisenko_rule_everywhere.
Proof.
  intros H.
  specialize (H _ Linked.example_engine 1 0 0x1p-3%float true 0x1p-3%float
                false false 0x1p-7%float 0x1p-7%float _ _ EE_inner_example
                0 (Nat.lt_0_1)).
  vm_compute in H. discriminate H.
Qed.

(* ----------------------------------------------------------------- *)
(** ** [ee_estimate]: the degeneracy test *)

Section Estimate_facts.

Context {world : Type} {E : Engine world}.

(** The test sets [errcode] exactly when [isinf] holds of some entry, and
    otherwise prints nothing. *)
Lemma degeneracy_test_fold (Dmean : list float) (idx : list nat)
  (acc : Z * list message) :
  fst (fold_left
         (fun (a : Z * list message) (i : nat) =>
            if isinf (at_ Dmean i)
            then (1%Z, snd a ++ [Warn_D0_degenerate i])
            else a) idx acc)
  = if existsb (fun i => isinf (at_ Dmean i)) idx then 1%Z else fst acc.
Proof.
  revert acc. induction idx as [| i idx IH]; intros acc; simpl.
  - reflexivity.
  - rewrite IH. destruct (isinf (at_ Dmean i)); simpl.
    + now destruct (existsb _ idx).
    + reflexivity.
Qed.

Lemma degeneracy_test_errcode (n : nat) (Dmean : list float) :
  fst (degeneracy_test n Dmean)
  = if existsb (fun i => isinf (at_ Dmean i)) (seq 0 n) then 1%Z else 0%Z.
Proof. unfold degeneracy_test. now rewrite degeneracy_test_fold. Qed.

Lemma isinf_is_nan (x : float) : is_nan x = true -> isinf x = false.
Proof.
  unfold isinf, is_infinity, is_nan.
  rewrite !FloatAxioms.eqb_spec, FloatAxioms.abs_spec.
  unfold SFeqb. destruct (Prim2SF x) as [s | s | | s m e]; simpl;
    try discriminate; auto; destruct s; discriminate.
Qed.

Variables (n sampler_m M1_steps Mouter Msteps : nat).
Variables (ACA_S ACA_EE compC : float) (useIFD : bool) (K : float).
Variables (useCond forbidRecip useBorisenko : bool).
Variables (learningRate minTheta : float).

Local Abbreviation estimate w :=
  (ee_estimate w n sampler_m M1_steps Mouter Msteps ACA_S ACA_EE compC
     useIFD K useCond forbidRecip useBorisenko learningRate minTheta).

(** X2: when Algorithm S leaves an infinite [Dmean_l], [ee_estimate] warns,
    skips Algorithm EE and returns 1. *)
Lemma ee_estimate_aborts_on_infinity (w w1 : world)
  (theta1 Dmean : list float) :
  algorithm_S w n M1_steps sampler_m ACA_S useIFD K useCond forbidRecip
    = Some (w1, theta1, Dmean) ->
  existsb (fun i => isinf (at_ Dmean i)) (seq 0 n) = true ->
  exists out,
    estimate w = Some out
    /\ ee_errcode out = 1%Z
    /\ ~ In Msg_running_EE (ee_log out)
    /\ ee_world out = w1 /\ ee_theta out = theta1.
Proof.
  intros HS Hinf. unfold ee_estimate. rewrite HS.
  pose proof (degeneracy_test_errcode n Dmean) as Herr.
  rewrite Hinf in Herr.
  destruct (degeneracy_test n Dmean) as [errcode warnings] eqn:Ht.
  simpl in Herr. subst errcode. simpl.
  eexists. split; [reflexivity |]. simpl.
  repeat split; try reflexivity.
  intros [Hc | Hc]; [discriminate |].
  assert (Hw : forall idx acc,
             ~ In Msg_running_EE (snd acc) ->
             ~ In Msg_running_EE
                 (snd (fold_left
                    (fun (a : Z * list message) (i : nat) =>
                       if isinf (at_ Dmean i)
                       then (1%Z, snd a ++ [Warn_D0_degenerate i])
                       else a) idx acc))).
  { induction idx as [| i idx IH]; intros acc Hacc; simpl; [exact Hacc |].
    apply IH. destruct (isinf (at_ Dmean i)); simpl; [| exact Hacc].
    rewrite in_app_iff. intros [H1 | [H1 | []]]; [auto | discriminate]. }
  apply (Hw (seq 0 n) (0%Z, [])); [simpl; tauto |].
  unfold degeneracy_test in Ht. rewrite Ht. exact Hc.
Qed.

(** When no [Dmean_l] is infinite, Algorithm EE is run, and if it returns,
    [ee_estimate] returns 0. *)
Lemma ee_estimate_runs_EE (w w1 w2 : world) (theta1 theta2 Dmean : list float) :
  algorithm_S w n M1_steps sampler_m ACA_S useIFD K useCond forbidRecip
    = Some (w1, theta1, Dmean) ->
  existsb (fun i => isinf (at_ Dmean i)) (seq 0 n) = false ->
  algorithm_EE w1 n Mouter Msteps sampler_m ACA_EE compC Dmean theta1
    useIFD K useCond forbidRecip useBorisenko learningRate minTheta
    = Some (w2, theta2) ->
  exists out,
    estimate w = Some out
    /\ ee_errcode out = 0%Z
    /\ In Msg_running_EE (ee_log out)
    /\ ee_world out = w2 /\ ee_theta out = theta2 /\ ee_Dmean out = Dmean.
Proof.
  intros HS Hinf HEE. unfold ee_estimate. rewrite HS.
  pose proof (degeneracy_test_errcode n Dmean) as Herr.
  rewrite Hinf in Herr.
  destruct (degeneracy_test n Dmean) as [errcode warnings].
  simpl in Herr. subst errcode. simpl. rewrite HEE.
  eexists. split; [reflexivity |]. simpl.
  repeat split; try reflexivity.
  right. rewrite in_app_iff. right. now left.
Qed.

(** C1 (where the program departs from it): a [Dmean_l] that is NaN is not
    finite, yet when no other entry is infinite [ee_estimate] does not
    abort the task: it runs Algorithm EE and returns 0. *)
Theorem ee_estimate_runs_EE_on_NaN (w w1 w2 : world)
  (theta1 theta2 Dmean : list float) (l : nat) :
  algorithm_S w n M1_steps sampler_m ACA_S useIFD K useCond forbidRecip
    = Some (w1, theta1, Dmean) ->
  l < n ->
  is_nan (at_ Dmean l) = true ->
  (forall i, i < n -> is_nan (at_ Dmean i) = true \/ isfinite (at_ Dmean i) = true) ->
  algorithm_EE w1 n Mouter Msteps sampler_m ACA_EE compC Dmean theta1
    useIFD K useCond forbidRecip useBorisenko learningRate minTheta
    = Some (w2, theta2) ->
  isfinite (at_ Dmean l) = false
  /\ exists out,
       estimate w = Some out
       /\ ee_errcode out = 0%Z
       /\ In Msg_running_EE (ee_log out)
       /\ ee_theta out = theta2.
Proof.
  intros HS Hl Hnan Hall HEE. split.
  - unfold isfinite, is_finite. now rewrite Hnan.
  - assert (Hinf : existsb (fun i => isinf (at_ Dmean i)) (seq 0 n) = false).
    { apply not_true_is_false. intros Hex.
      apply existsb_exists in Hex. destruct Hex as [i [Hi Hinf]].
      apply in_seq in Hi. destruct (Hall i) as [Hn | Hf]; [lia | |].
      - rewrite (isinf_is_nan _ Hn) in Hinf. discriminate.
      - unfold isfinite, is_finite, isinf in *.
        rewrite Hinf, orb_true_r in Hf. discriminate. }
    destruct (ee_estimate_runs_EE _ _ _ _ _ _ HS Hinf HEE) as [out [H1 [H2 [H3 [_ [H4 _]]]]]].
    exists out. auto.
Qed.

End Estimate_facts.

(** A task with [samplerSteps = 0] and one parameter: Algorithm S leaves
    [D0 = 0] and [Dmean = 0/0]. *)
Lemma algorithm_S_NaN_example :
  algorithm_S (E := Linked.example_engine) (Linked.example_world false)
    1 1 0 0x1p-3%float true 0x1p-3%float false false
  = Some (Linked.example_world false, [0%float], [nan]).
Proof. vm_compute. reflexivity. Qed.

Lemma algorithm_EE_NaN_example :
  algorithm_EE (E := Linked.example_engine) (Linked.example_world false)
    1 1 1 0 0x1p-3%float 0x1p-3%float [nan] [0%float]
    true 0x1p-3%float false false true 0x1p-7%float 0x1p-7%float
  = Some (Linked.example_world false, [(-0x1p-14)%float]).
Proof. vm_compute. reflexivity. Qed.

Lemma ee_estimate_runs_EE_on_NaN_witness :
  isfinite (at_ [nan] 0) = false
  /\ exists out,
       ee_estimate (E := Linked.example_engine) (Linked.example_world false)
         1 0 1 1 1 0x1p-3%float 0x1p-3%float 0x1p-3%float
         true 0x1p-3%float false false true 0x1p-7%float 0x1p-7%float
       = Some out
       /\ ee_errcode out = 0%Z
       /\ In Msg_running_EE (ee_log out)
       /\ ee_theta out = [(-0x1p-14)%float].
Proof.
  refine (ee_estimate_runs_EE_on_NaN (E := Linked.example_engine)
            1 0 1 1 1 0x1p-3%float 0x1p-3%float 0x1p-3%float
            true 0x1p-3%float false false true 0x1p-7%float 0x1p-7%float
            (Linked.example_world false) _ _ _ _ _ 0
            algorithm_S_NaN_example _ _ _ algorithm_EE_NaN_example).
  - lia.
  - reflexivity.
  - intros i Hi. left. assert (i = 0) as -> by lia. reflexivity.
Defined.

(* ----------------------------------------------------------------- *)
(** ** The drivers *)

Section Driver_facts.

Context {world : Type} {E : Engine world}.

(** Every path through [do_estimation] that calls [ee_estimate] ends in
    [return 0]. *)
Lemma do_estimation_return_after_ee (config : estim_config_t)
  (env : environment world) (out : @estimation_outcome world)
  (eo : @ee_outcome world) :
  do_estimation config env = Some out ->
  est_ee out = Some eo ->
  est_return out = 0%Z.
Proof.
  unfold do_estimation, est_fail. intros H Hee.
  repeat match type of H with
         | (if ?c then _ else _) = _ =>
             destruct c; [injection H as <-; discriminate Hee |]
         end.
  destruct (ee_estimate _ _ _ _ _ _ _ _ _ _ _ _ _ _ _ _);
    [| discriminate].
  injection H as <-. reflexivity.
Qed.

(** C2 (where the program departs from it): when [ee_estimate] detects
    degeneracy and returns a non-zero code, [do_estimation] still returns 0,
    and [main] exits with status 0. *)
Theorem do_estimation_drops_errcode (config : estim_config_t)
  (env : environment world) (out : @estimation_outcome world)
  (eo : @ee_outcome world) (file : string)
  (parse : string -> option estim_config_t) :
  do_estimation config env = Some out ->
  est_ee out = Some eo ->
  ee_errcode eo <> 0%Z ->
  parse file = Some config ->
  est_return out = 0%Z /\ main [file] parse env = Some 0%Z.
Proof.
  intros H Hee _ Hparse.
  pose proof (do_estimation_return_after_ee _ _ _ _ H Hee) as H0.
  split; [exact H0 |].
  unfold main, main_getopt. rewrite Hparse, H, H0. reflexivity.
Qed.

(** The estimation driver: with the IFD sampler and a structural parameter
    named Arc (in any letter case), [do_estimation] returns -1 and never
    calls [ee_estimate], hence no sampler. *)
Lemma do_estimation_refuses_Arc_with_IFD (config : estim_config_t)
  (env : environment world) :
  useIFDsampler config = true ->
  has_Arc_param (param_names config) = true ->
  exists out,
    do_estimation config env = Some out
    /\ est_return out = (-1)%Z
    /\ est_ee out = None
    /\ est_stderr out <> [].
Proof.
  intros HIFD HArc. unfold do_estimation, est_fail.
  rewrite HIFD, HArc. simpl.
  repeat match goal with
         | |- context [if ?c then _ else _] =>
             destruct c;
             [eexists; split; [reflexivity |]; simpl;
              repeat split; discriminate |]
         end.
  eexists; split; [reflexivity |]; simpl; repeat split; discriminate.
Qed.

(** The simulation driver does not look at the parameter names beyond
    counting them: two configurations that differ only in names get the
    same treatment. *)
Lemma do_simulation_ignores_names (config : sim_config_t)
  (names : list string) (env : environment world) :
  List.length names = List.length (sim_param_names config) ->
  do_simulation
    {| sim_numNodes := sim_numNodes config;
       sim_samplerSteps := sim_samplerSteps config;
       sim_useIFDsampler := sim_useIFDsampler config;
       sim_ifd_K := sim_ifd_K config;
       sim_zone_filename := sim_zone_filename config;
       sim_useConditionalEstimation := sim_useConditionalEstimation config;
       sim_forbidReciprocity := sim_forbidReciprocity config;
       sim_param_names := names;
       sim_num_attr_change_stats_funcs :=
         sim_num_attr_change_stats_funcs config;
       sim_num_attr_interaction_change_stats_funcs :=
         sim_num_attr_interaction_change_stats_funcs config |} env
  = do_simulation config env.
Proof.
  intros Hlen. unfold do_simulation. simpl. now rewrite Hlen.
Qed.

End Driver_facts.

Lemma do_estimation_degenerate_example :
  do_estimation (E := Linked.example_engine) Examples.degenerate_config
    Examples.friendly_env
  = Some {| est_return := 0; est_stderr := [];
            est_ee := Some Examples.degenerate_ee_outcome |}.
Proof. vm_compute. reflexivity. Qed.

Lemma do_estimation_drops_errcode_witness :
  est_return
    {| est_return := 0; est_stderr := [];
       est_ee := Some Examples.degenerate_ee_outcome |} = 0%Z
  /\ main (E := Linked.example_engine) ["config.txt"%string]
       (fun _ => Some Examples.degenerate_config) Examples.friendly_env
     = Some 0%Z.
Proof.
  refine (do_estimation_drops_errcode (E := Linked.example_engine)
            Examples.degenerate_config Examples.friendly_env _
            Examples.degenerate_ee_outcome "config.txt"%string
            (fun _ => Some Examples.degenerate_config)
            do_estimation_degenerate_example eq_refl _ eq_refl).
  simpl. discriminate.
Defined.

(** C9 (where the program departs from it): the simulation driver accepts a
    configuration with the IFD sampler and the structural parameter Arc; it
    returns 0 after the IFD sampler has run (here both of its proposals are
    accepted). *)
Theorem do_simulation_runs_IFD_with_Arc :
  has_Arc_param (sim_param_names Examples.arc_with_IFD_config) = true
  /\ sim_useIFDsampler Examples.arc_with_IFD_config = true
  /\ exists out w r,
       do_simulation (E := Linked.unit_engine) Examples.arc_with_IFD_config
         Examples.friendly_env = Some out
       /\ sim_return out = 0%Z
       /\ sim_stderr out = []
       /\ sim_sampled out = Some (w, r)
       /\ acceptance_rate r = 1%float.
Proof.
  split; [reflexivity | split; [reflexivity |]].
  assert (H : exists out,
             do_simulation (E := Linked.unit_engine)
               Examples.arc_with_IFD_config Examples.friendly_env = Some out)
    by (vm_compute; eexists; reflexivity).
  destruct H as [out H]. exists out.
  vm_compute in H. injection H as <-.
  do 2 eexists. split; [vm_compute; reflexivity |].
  repeat split; reflexivity.
Qed.

(* ----------------------------------------------------------------- *)
(** ** The graph store: removing an arc and putting it back *)

Module DigraphFacts.

Import Digraph.

Lemma upd_same (A : Type) (a : nat -> A) (i : nat) (v : A) : upd a i v i = v.
Proof. unfold upd. now rewrite Nat.eqb_refl. Qed.

Lemma upd_other (A : Type) (a : nat -> A) (i k : nat) (v : A) :
  k <> i -> upd a i v k = a k.
Proof. unfold upd. intros H. apply Nat.eqb_neq in H. now rewrite H. Qed.

Lemma remove_one_perm (j : nat) (l : list nat) :
  In j l -> Permutation (remove_one j l ++ [j]) l.
Proof.
  induction l as [| k l IH]; simpl; [tauto |].
  intros Hin. destruct (Nat.eqb k j) eqn:Hk.
  - apply Nat.eqb_eq in Hk. subst k.
    rewrite Permutation_app_comm. reflexivity.
  - destruct Hin as [-> | Hin]; [now rewrite Nat.eqb_refl in Hk |].
    simpl. constructor. now apply IH.
Qed.

Lemma removelast_app_single (A : Type) (l : list A) (x : A) :
  removelast (l ++ [x]) = l.
Proof. now rewrite removelast_last. Qed.

Lemma swap_remove_perm (idx : nat) (l : list arc) (a : arc) :
  nth_error l idx = Some a -> Permutation (swap_remove idx l ++ [a]) l.
Proof.
  intros Hnth. unfold swap_remove.
  destruct (nth_error_split l idx Hnth) as [l1 [l2 [-> Hlen]]].
  assert (Hfirst : firstn idx (l1 ++ a :: l2) = l1).
  { rewrite <- Hlen. rewrite firstn_app, firstn_all, Nat.sub_diag. simpl.
    now rewrite app_nil_r. }
  assert (Hskip : skipn (S idx) (l1 ++ a :: l2) = l2).
  { rewrite <- Hlen. rewrite skipn_app, skipn_all2 by lia.
    replace (S (List.length l1) - List.length l1) with 1 by lia. reflexivity. }
  rewrite Hfirst, Hskip.
  destruct (exists_last (l := a :: l2)) as [l3 [z Hz]]; [discriminate |].
  assert (Hlast : nth_error (l1 ++ a :: l2)
                    (List.length (l1 ++ a :: l2) - 1) = Some z).
  { rewrite Hz, app_assoc, length_app. simpl.
    replace (List.length (l1 ++ l3) + 1 - 1) with (List.length (l1 ++ l3))
      by lia.
    rewrite nth_error_app2 by lia. now rewrite Nat.sub_diag. }
  rewrite Hlast.
  destruct l3 as [| y l3]; simpl in Hz.
  - injection Hz as <- ->. simpl.
    rewrite removelast_app_single. reflexivity.
  - injection Hz as <- ->.
    replace (l1 ++ z :: l3 ++ [z]) with ((l1 ++ z :: l3) ++ [z])
      by (now rewrite <- app_assoc).
    rewrite removelast_app_single.
    rewrite <- app_assoc. simpl.
    apply Permutation_app_head.
    rewrite Permutation_app_comm. simpl.
    apply perm_trans with (a :: z :: l3); [constructor |].
    constructor. rewrite Permutation_app_comm. reflexivity.
Qed.

Lemma bump_spec (keys : list arc) (m : nat -> nat -> Z) (d : Z) (a b : nat) :
  bump m keys d a b = (m a b + d * Digraph.hits keys a b)%Z.
Proof.
  unfold bump, hits. revert m.
  induction keys as [| key keys IH]; intros m.
  - simpl. lia.
  - cbn [fold_left filter]. rewrite IH.
    destruct (Nat.eqb a (fst key) && Nat.eqb b (snd key)).
    + cbn [List.length]. rewrite Nat2Z.inj_succ. ring.
    + reflexivity.
Qed.

(** Taking the contribution of an arc out of a counter and putting it back
    gives the counter its old value. *)
Lemma bump_cancel (keys : list arc) (m : nat -> nat -> Z) (a b : nat) :
  bump (bump m keys (-1)) keys 1 a b = m a b.
Proof. rewrite !bump_spec. lia. Qed.

Lemma same_graph_refl (g : graph_t) : same_graph g g.
Proof. constructor; intros; reflexivity. Qed.

Lemma same_graph_trans (g1 g2 g3 : graph_t) :
  same_graph g1 g2 -> same_graph g2 g3 -> same_graph g1 g3.
Proof.
  intros [] []. constructor; intros;
    try (etransitivity; [eauto | eauto]; fail).
Qed.

Lemma same_graph_sym (g1 g2 : graph_t) : same_graph g1 g2 -> same_graph g2 g1.
Proof. intros []. constructor; intros; symmetry; auto. Qed.

(* ----------------------------------------------------------------- *)
(** *** Lists with one entry less *)

Lemma In_snoc (A : Type) (l : list A) (x y : A) :
  In x (l ++ [y]) <-> In x l \/ x = y.
Proof.
  rewrite in_app_iff. simpl. intuition.
Qed.

Lemma NoDup_snoc (A : Type) (l : list A) (y : A) :
  NoDup l -> ~ In y l -> NoDup (l ++ [y]).
Proof.
  intros Hl Hy. apply (Permutation_NoDup (l := y :: l)).
  - apply Permutation_cons_append.
  - now constructor.
Qed.

(** A list [l'] that is [l] without its entry [a]. *)
Lemma perm_snoc_inv (A : Type) (l l' : list A) (a : A) :
  Permutation (l' ++ [a]) l -> NoDup l ->
  NoDup l' /\ ~ In a l'
  /\ (forall x, In x l' <-> In x l /\ x <> a)
  /\ List.length l = S (List.length l').
Proof.
  intros Hp Hl.
  assert (Hp' : Permutation (a :: l') l).
  { eapply perm_trans; [apply Permutation_cons_append | exact Hp]. }
  assert (Hnd : NoDup (a :: l')).
  { eapply Permutation_NoDup; [apply Permutation_sym, Hp' | exact Hl]. }
  inversion Hnd as [| a' l'' Hnotin Hnd']; subst.
  split; [exact Hnd' |]. split; [exact Hnotin |]. split.
  - intros x. split.
    + intros Hx. split.
      * eapply Permutation_in; [exact Hp' | now right].
      * intros ->. contradiction.
    + intros [Hx Hne].
      apply (Permutation_in _ (Permutation_sym Hp')) in Hx.
      destruct Hx as [-> | Hx]; [contradiction | exact Hx].
  - rewrite <- (Permutation_length Hp'). reflexivity.
Qed.

Lemma remove_one_incl (j b : nat) (l : list nat) :
  In b (remove_one j l) -> In b l.
Proof.
  induction l as [| k l IH]; simpl; [tauto |].
  destruct (Nat.eqb k j); simpl; intuition.
Qed.

Lemma remove_one_NoDup (j : nat) (l : list nat) :
  NoDup l -> NoDup (remove_one j l).
Proof.
  induction l as [| k l IH]; simpl; intros H; [constructor |].
  inversion H as [| k' l' Hk Hl]; subst.
  destruct (Nat.eqb k j); [exact Hl |].
  constructor; [| now apply IH].
  intros Hin. apply Hk. eapply remove_one_incl. exact Hin.
Qed.

Lemma remove_one_In (j b : nat) (l : list nat) :
  NoDup l -> (In b (remove_one j l) <-> In b l /\ b <> j).
Proof.
  induction l as [| k l IH]; simpl; intros H; [tauto |].
  inversion H as [| k' l' Hk Hl]; subst.
  destruct (Nat.eqb_spec k j) as [-> | Hne].
  - split.
    + intros Hb. split; [now right |]. intros ->. contradiction.
    + intros [[-> | Hb] Hnb]; [contradiction | exact Hb].
  - simpl. rewrite (IH Hl). split.
    + intros [-> | [Hb Hnb]]; auto.
    + intros [[-> | Hb] Hnb]; auto.
Qed.

Lemma arc_eqb_eq (a b : arc) : arc_eqb a b = true <-> a = b.
Proof.
  unfold arc_eqb. destruct a as [a1 a2], b as [b1 b2]. simpl.
  rewrite andb_true_iff, !Nat.eqb_eq. split.
  - intros [-> ->]. reflexivity.
  - intros H. injection H as -> ->. auto.
Qed.

Lemma index_of_nth (a : arc) (l : list arc) (k : nat) :
  index_of a l = Some k -> nth_error l k = Some a.
Proof.
  revert k. induction l as [| b l IH]; simpl; intros k H; [discriminate |].
  destruct (arc_eqb a b) eqn:Hab.
  - injection H as <-. apply arc_eqb_eq in Hab. now subst.
  - destruct (index_of a l) as [k' |]; [| discriminate].
    injection H as <-. simpl. now apply IH.
Qed.

Lemma index_of_In (a : arc) (l : list arc) :
  In a l -> exists k, index_of a l = Some k.
Proof.
  induction l as [| b l IH]; simpl; [tauto |].
  intros Hin. destruct (arc_eqb a b) eqn:Hab; [now exists 0 |].
  destruct Hin as [-> | Hin].
  - assert (Hrefl : arc_eqb a a = true) by now apply arc_eqb_eq.
    congruence.
  - destruct (IH Hin) as [k ->]. now exists (S k).
Qed.

Lemma remove_entry_perm (a : arc) (l : list arc) :
  In a l -> Permutation (remove_entry a l ++ [a]) l.
Proof.
  intros Hin. unfold remove_entry.
  destruct (index_of_In _ _ Hin) as [k Hk]. rewrite Hk.
  apply swap_remove_perm. now apply index_of_nth.
Qed.

Lemma isArc_false (g : graph_t) (i j : nat) :
  isArc g i j = false <-> ~ In j (arclist g i).
Proof.
  unfold isArc. rewrite <- not_true_iff_false, existsb_exists. split.
  - intros H Hin. apply H. exists j. split; [exact Hin | apply Nat.eqb_refl].
  - intros H [x [Hx Hb]]. apply Nat.eqb_eq in Hb. subst x. contradiction.
Qed.

(* ----------------------------------------------------------------- *)
(** *** The invariants of the store *)

(** The invariants speak of the graph that is held, not of the order of the
    lists that hold it. *)
Lemma store_invariant_same (g g' : graph_t) :
  same_graph g g' -> store_invariant g -> store_invariant g'.
Proof.
  intros Hs [Hal Hral Htr Hnd Hall Hlen].
  destruct Hs as [_ Hna Hpa Hpr Hpall _ _ _ _ _ _ _ _ _]. constructor.
  - intros i. eapply Permutation_NoDup; eauto.
  - intros j. eapply Permutation_NoDup; eauto.
  - intros i j. split; intros H.
    + eapply Permutation_in; [apply Hpr |]. apply Htr.
      eapply Permutation_in; [apply Permutation_sym, Hpa | exact H].
    + eapply Permutation_in; [apply Hpa |]. apply Htr.
      eapply Permutation_in; [apply Permutation_sym, Hpr | exact H].
  - eapply Permutation_NoDup; eauto.
  - intros i j. split; intros H.
    + eapply Permutation_in; [apply Hpa |]. apply Hall.
      eapply Permutation_in; [apply Permutation_sym, Hpall | exact H].
    + eapply Permutation_in; [apply Hpall |]. apply Hall.
      eapply Permutation_in; [apply Permutation_sym, Hpa | exact H].
  - rewrite <- (Permutation_length Hpall). congruence.
Qed.

Lemma side_list_invariant_same (g g' : graph_t) (l l' : list arc)
  (c c' : nat) :
  same_graph g g' -> Permutation l l' -> c = c' ->
  side_list_invariant g l c -> side_list_invariant g' l' c'.
Proof.
  intros Hs Hp <- [Hnd Hpres Hlen].
  destruct Hs as [_ _ Hpa _ _ _ _ _ _ _ _ _ _ _]. constructor.
  - eapply Permutation_NoDup; eauto.
  - intros i j H. eapply Permutation_in; [apply Hpa |]. apply Hpres.
    eapply Permutation_in; [apply Permutation_sym, Hp | exact H].
  - rewrite <- (Permutation_length Hp). exact Hlen.
Qed.

Lemma empty_graph_invariant (N : nat) : store_invariant (empty_graph N).
Proof.
  constructor; simpl; intros; try constructor; tauto.
Qed.

Lemma empty_side_list_invariant (g : graph_t) : side_list_invariant g [] 0.
Proof. constructor; simpl; [constructor | tauto | reflexivity]. Qed.

(** The neighbour lists after an arc that was not there is put in. *)
Lemma insert_arclist (al : nat -> list nat) (i j a b : nat) :
  In b (upd al i (al i ++ [j]) a) <-> In b (al a) \/ (a = i /\ b = j).
Proof.
  unfold upd. destruct (Nat.eqb_spec a i) as [-> | Hne].
  - rewrite In_snoc. intuition.
  - intuition.
Qed.

(** The neighbour lists after an arc is taken out. *)
Lemma remove_arclist (al : nat -> list nat) (i j a b : nat) :
  NoDup (al i) ->
  (In b (upd al i (remove_one j (al i)) a)
   <-> In b (al a) /\ ~ (a = i /\ b = j)).
Proof.
  intros Hnd. unfold upd. destruct (Nat.eqb_spec a i) as [-> | Hne].
  - rewrite (remove_one_In _ _ _ Hnd). intuition.
  - intuition.
Qed.

Lemma upd_NoDup (al : nat -> list nat) (i : nat) (l : list nat) :
  (forall k, NoDup (al k)) -> NoDup l -> forall k, NoDup (upd al i l k).
Proof.
  intros Hal Hl k. unfold upd. destruct (Nat.eqb k i); auto.
Qed.

(** [insertArc_allarcs] of an arc that is not in the graph keeps the
    invariants. *)
Lemma insertArc_allarcs_invariant (g : graph_t) (i j : nat) :
  store_invariant g -> ~ In j (arclist g i) ->
  store_invariant (insertArc_allarcs g i j).
Proof.
  intros [Hal Hral Htr Hnd Hall Hlen] Hnew.
  assert (Hnew' : ~ In i (revarclist g j)) by (now rewrite <- Htr).
  constructor; simpl.
  - apply upd_NoDup; [exact Hal |]. now apply NoDup_snoc.
  - apply upd_NoDup; [exact Hral |]. now apply NoDup_snoc.
  - intros a b. rewrite !insert_arclist, Htr. intuition.
  - apply NoDup_snoc; [exact Hnd |]. now rewrite Hall.
  - intros a b. rewrite In_snoc, insert_arclist, Hall. split.
    + intros [H | H]; [now left | injection H as -> ->; now right].
    + intros [H | [-> ->]]; [now left | now right].
  - rewrite length_app. simpl. lia.
Qed.

(** [removeArc], with [allarcs] left without the entry of the arc, keeps
    the invariants. *)
Lemma removeArc_invariant (g : graph_t) (i j : nat) (l' : list arc) :
  store_invariant g ->
  Permutation (l' ++ [(i, j)]) (allarcs g) ->
  store_invariant (set_allarcs (removeArc g i j) l').
Proof.
  intros [Hal Hral Htr Hnd Hall Hlen] Hp.
  destruct (perm_snoc_inv _ _ _ _ Hp Hnd) as [Hnd' [Hnotin [Hin' Hlen']]].
  constructor; simpl.
  - apply upd_NoDup; [exact Hal |]. now apply remove_one_NoDup.
  - apply upd_NoDup; [exact Hral |]. now apply remove_one_NoDup.
  - intros a b.
    rewrite (remove_arclist _ _ _ _ _ (Hal i)),
      (remove_arclist _ _ _ _ _ (Hral j)), Htr.
    intuition.
  - exact Hnd'.
  - intros a b.
    rewrite Hin', (remove_arclist _ _ _ _ _ (Hal i)), Hall. split.
    + intros [H Hne]. split; [exact H |]. intros [-> ->]. now apply Hne.
    + intros [H Hne]. split; [exact H |]. intros Heq.
      injection Heq as -> ->. now apply Hne.
  - rewrite <- Hlen, Hlen'. reflexivity.
Qed.

Lemma store_invariant_set_inner (g : graph_t) (c : nat) (l : list arc)
  (pwd : nat -> Z) :
  store_invariant g -> store_invariant (set_inner g c l pwd).
Proof. intros []. constructor; assumption. Qed.

Lemma store_invariant_set_maxtermsender (g : graph_t) (c : nat)
  (l : list arc) :
  store_invariant g -> store_invariant (set_maxtermsender g c l).
Proof. intros []. constructor; assumption. Qed.

(** A side list after the routines of its regime: with the new arc at its
    end, and without the entry of the arc that was removed. *)
Lemma side_list_insert (g g' : graph_t) (l : list arc) (c i j : nat) :
  side_list_invariant g l c ->
  ~ In j (arclist g i) ->
  arclist g' = upd (arclist g) i (arclist g i ++ [j]) ->
  side_list_invariant g' (l ++ [(i, j)]) (S c).
Proof.
  intros [Hnd Hpres Hlen] Hnew Hal. constructor.
  - apply NoDup_snoc; [exact Hnd |]. intros H. apply Hnew. now apply Hpres.
  - intros a b. rewrite Hal, In_snoc, insert_arclist.
    intros [H | H]; [left; now apply Hpres | injection H as -> ->; now right].
  - rewrite length_app. simpl. lia.
Qed.

Lemma side_list_remove (g g' : graph_t) (l l' : list arc) (c i j : nat) :
  side_list_invariant g l c ->
  NoDup (arclist g i) ->
  Permutation (l' ++ [(i, j)]) l ->
  arclist g' = upd (arclist g) i (remove_one j (arclist g i)) ->
  side_list_invariant g' l' (Nat.pred c).
Proof.
  intros [Hnd Hpres Hlen] Hal Hp Hal'.
  destruct (perm_snoc_inv _ _ _ _ Hp Hnd) as [Hnd' [Hnotin [Hin' Hlen']]].
  constructor.
  - exact Hnd'.
  - intros a b Hab. rewrite Hal', (remove_arclist _ _ _ _ _ Hal).
    apply Hin' in Hab. destruct Hab as [Hab Hne].
    split; [now apply Hpres |]. intros [-> ->]. now apply Hne.
  - rewrite <- Hlen, Hlen'. reflexivity.
Qed.

(* ----------------------------------------------------------------- *)
(** *** Removing an arc and putting it back *)

(** [removeArc] and then [insertArc] of the same arc, when the arc is in the
    neighbour lists and counted. *)
Lemma removeArc_insertArc (g : graph_t) (i j : nat) :
  In j (arclist g i) -> In i (revarclist g j) -> 1 <= num_arcs g ->
  same_graph (insertArc (removeArc g i j) i j) g.
Proof.
  intros Hj Hi Hn. constructor; simpl; try reflexivity.
  - lia.
  - intros k. unfold upd at 1. destruct (Nat.eqb k i) eqn:Hk.
    + apply Nat.eqb_eq in Hk. subst k. rewrite upd_same.
      now apply remove_one_perm.
    + apply Nat.eqb_neq in Hk. now rewrite upd_other.
  - intros k. unfold upd at 1. destruct (Nat.eqb k j) eqn:Hk.
    + apply Nat.eqb_eq in Hk. subst k. rewrite upd_same.
      now apply remove_one_perm.
    + apply Nat.eqb_neq in Hk. now rewrite upd_other.
  - intros a b. apply bump_cancel.
  - intros a b. apply bump_cancel.
  - intros a b. apply bump_cancel.
Qed.

(** The same for the three pairs of routines that also keep a flat list:
    the arc is entry [arcidx] of that list, and the list's counter is not
    0. *)
Lemma removeArc_insertArc_allarcs (g : graph_t) (i j arcidx : nat) :
  In j (arclist g i) -> In i (revarclist g j) -> 1 <= num_arcs g ->
  nth_error (allarcs g) arcidx = Some (i, j) ->
  same_graph (insertArc_allarcs (removeArc_allarcs g i j arcidx) i j) g.
Proof.
  intros Hj Hi Hn Hnth.
  destruct (removeArc_insertArc g i j Hj Hi Hn).
  constructor; simpl in *; auto.
  now apply swap_remove_perm.
Qed.

Lemma removeArc_insertArc_allinnerarcs (g : graph_t) (i j arcidx : nat) :
  In j (arclist g i) -> In i (revarclist g j) -> 1 <= num_arcs g ->
  In (i, j) (allarcs g) ->
  1 <= num_inner_arcs g ->
  nth_error (allinnerarcs g) arcidx = Some (i, j) ->
  same_graph
    (insertArc_allinnerarcs (removeArc_allinnerarcs g i j arcidx) i j) g.
Proof.
  intros Hj Hi Hn Hall Hn' Hnth.
  destruct (removeArc_insertArc g i j Hj Hi Hn).
  constructor; simpl in *; auto.
  - now apply remove_entry_perm.
  - intros k. repeat (unfold update_prev_wave_degree, upd; simpl).
    destruct (Nat.eqb (zone g i) (S (zone g j)));
      [| destruct (Nat.eqb (zone g j) (S (zone g i)))];
      rewrite ?Nat.eqb_refl; try reflexivity;
      (destruct (Nat.eqb k _) eqn:Hk;
       [apply Nat.eqb_eq in Hk; subst k; lia | reflexivity]).
  - lia.
  - now apply swap_remove_perm.
Qed.

Lemma removeArc_insertArc_all_maxtermsender_arcs (g : graph_t)
  (i j arcidx : nat) :
  In j (arclist g i) -> In i (revarclist g j) -> 1 <= num_arcs g ->
  In (i, j) (allarcs g) ->
  1 <= num_maxtermsender_arcs g ->
  nth_error (all_maxtermsender_arcs g) arcidx = Some (i, j) ->
  same_graph
    (insertArc_all_maxtermsender_arcs
       (removeArc_all_maxtermsender_arcs g i j arcidx) i j) g.
Proof.
  intros Hj Hi Hn Hall Hn' Hnth.
  destruct (removeArc_insertArc g i j Hj Hi Hn).
  constructor; simpl in *; auto.
  - now apply remove_entry_perm.
  - lia.
  - now apply swap_remove_perm.
Qed.

End DigraphFacts.

(* ----------------------------------------------------------------- *)
(** ** The IFD sampler: one iteration of its loop *)

Module IFDFacts.

Import Digraph IFD DigraphFacts.

Section Iteration.

Context {CS : ChangeStats}.

Variables (n : nat) (theta : list float) (performMove : bool) (aux : float).
Variables (uc fr ce al : bool).

Local Abbreviation count := (eligible_count uc ce).
Local Abbreviation arcs := (eligible_arcs uc ce).
Local Abbreviation remove := (regime_removeArc uc ce).
Local Abbreviation insert := (regime_insertArc uc ce).
Local Abbreviation iteration :=
  (ifd_iteration n theta performMove aux uc fr ce al).

Lemma pick_arc_inv (c : nat) (l : list arc) (arcidx : nat) (a : arc) :
  pick_arc c l arcidx = Some a ->
  arcidx < c /\ nth_error l arcidx = Some a.
Proof.
  unfold pick_arc. destruct (Nat.ltb_spec arcidx c); [auto | discriminate].
Qed.

(** What the first part of the loop body yields: the graph is untouched; a
    delete move has its arc from the regime's list; and the kind of move is
    the value of the [static] variable, except that the citation regime with
    no arc to delete makes an add move and warns. *)
Lemma ifd_propose_inv (st st1 : sampler_state) (d : draw)
  (i j arcidx : nat) :
  ifd_propose uc fr ce al st d = Some (st1, i, j, arcidx) ->
  ss_graph st1 = ss_graph st
  /\ (ss_isDelete st1 = true ->
      pick_arc (count (ss_graph st)) (arcs (ss_graph st)) arcidx
      = Some (i, j))
  /\ ((ss_isDelete st1 = ss_isDelete st /\ ss_stderr st1 = ss_stderr st
       /\ (citation_regime uc ce = true -> ss_isDelete st = true ->
           num_maxtermsender_arcs (ss_graph st) <> 0))
      \/ (citation_regime uc ce = true
          /\ ss_isDelete st = true
          /\ num_maxtermsender_arcs (ss_graph st) = 0
          /\ ss_isDelete st1 = false
          /\ ss_stderr st1
             = ss_stderr st ++ [Warn_num_maxtermsender_arcs_0])).
Proof.
  unfold ifd_propose, eligible_count, eligible_arcs, citation_regime.
  destruct uc, ce; simpl;
    try (destruct (fr || al); [discriminate |]);
    destruct (ss_isDelete st) eqn:Hdel; simpl;
    try (destruct (Nat.eqb_spec (num_maxtermsender_arcs (ss_graph st)) 0)
           as [Hz | Hnz]; simpl);
    rewrite ?Hdel;
    try (destruct (pick_arc _ _ _) as [[i' j'] |] eqn:Hp; [| discriminate]);
    intros H; injection H as <- <- <- <-; simpl;
    (split; [reflexivity |]);
    (split; [intros; first [assumption | congruence] |]);
    first [ left; repeat split; auto; intros; congruence
          | right; repeat split; auto ].
Qed.

(** What one iteration does: to the graph, to the [static] variable, to the
    two counters and to [stderr]. *)
Lemma ifd_iteration_inv (st st1 : sampler_state) (loc loc1 : locals)
  (d : draw) (o : outcome) :
  iteration st loc d = Some (st1, loc1, o) ->
  let g := ss_graph st in
  exists arcidx,
    (o_isDelete o = true ->
     pick_arc (count g) (arcs g) arcidx = Some (o_i o, o_j o))
    /\ ss_graph st1 =
       (if o_isDelete o then
          if o_accepted o && performMove
          then remove g (o_i o) (o_j o) arcidx
          else insert (remove g (o_i o) (o_j o) arcidx) (o_i o) (o_j o)
        else
          if o_accepted o && performMove
          then insert g (o_i o) (o_j o)
          else g)
    /\ ss_isDelete st1 = xorb (o_isDelete o) (o_accepted o)
    /\ ((o_isDelete o = ss_isDelete st /\ ss_stderr st1 = ss_stderr st
         /\ (citation_regime uc ce = true -> ss_isDelete st = true ->
             num_maxtermsender_arcs g <> 0))
        \/ (citation_regime uc ce = true
            /\ ss_isDelete st = true
            /\ num_maxtermsender_arcs g = 0
            /\ o_isDelete o = false
            /\ ss_stderr st1
               = ss_stderr st ++ [Warn_num_maxtermsender_arcs_0]))
    /\ Ndel loc1 = (if o_isDelete o then CInt.add (Ndel loc) 1 else Ndel loc)
    /\ Nadd loc1 = (if o_isDelete o then Nadd loc else CInt.add (Nadd loc) 1)
    /\ accepted loc1
       = (if o_accepted o then S (accepted loc) else accepted loc)
    /\ o_performMove o = performMove.
Proof.
  intros H. cbv zeta. unfold ifd_iteration in H.
  destruct (ifd_propose uc fr ce al st d) as [[[[st0 i] j] arcidx] |] eqn:Hp;
    [| discriminate].
  destruct (ifd_propose_inv _ _ _ _ _ _ Hp) as [Hg [Hpick Hkind]].
  exists arcidx. rewrite Hg in H.
  destruct (calcChangeStats _ _ _ _ _ _) as [total0 changestats].
  destruct (d_u d <? exp _)%float; injection H as <- <- <-; simpl;
    (split; [exact Hpick |]);
    (split; [destruct (ss_isDelete st0), performMove; reflexivity |]);
    (split; [destruct (ss_isDelete st0); reflexivity |]);
    (split; [exact Hkind |]); auto.
Qed.

(** What an iteration does to [num_arcs]. *)
Lemma regime_insertArc_num_arcs (g : graph_t) (i j : nat) :
  num_arcs (insert g i j) = S (num_arcs g).
Proof. unfold regime_insertArc. destruct uc, ce; reflexivity. Qed.

Lemma regime_removeArc_num_arcs (g : graph_t) (i j arcidx : nat) :
  num_arcs (remove g i j arcidx) = Nat.pred (num_arcs g).
Proof. unfold regime_removeArc. destruct uc, ce; reflexivity. Qed.

(** The counter of the regime's list goes up and down by one. *)
Lemma regime_insertArc_count_succ (g : graph_t) (i j : nat) :
  count (insert g i j) = S (count g).
Proof.
  unfold regime_insertArc, eligible_count. destruct uc, ce; reflexivity.
Qed.

Lemma regime_removeArc_count_pred (g : graph_t) (i j arcidx : nat) :
  count (remove g i j arcidx) = Nat.pred (count g).
Proof.
  unfold regime_removeArc, eligible_count. destruct uc, ce; reflexivity.
Qed.

(** The counter of the regime's list after an insertion is not 0. *)
Lemma regime_insertArc_count (g : graph_t) (i j : nat) :
  count (insert g i j) <> 0.
Proof.
  unfold regime_insertArc, eligible_count. destruct uc, ce; simpl; discriminate.
Qed.

(** The arc that a delete move picks is an arc of the graph, and its list
    and [allarcs] are not empty. *)
Lemma picked_arc_present (g : graph_t) (i j arcidx : nat) :
  regime_invariant uc ce g ->
  pick_arc (count g) (arcs g) arcidx = Some (i, j) ->
  In j (arclist g i) /\ In i (revarclist g j) /\ In (i, j) (allarcs g)
  /\ 1 <= num_arcs g /\ 1 <= count g
  /\ nth_error (arcs g) arcidx = Some (i, j).
Proof.
  intros [[Hal Hral Htr Hnd Hall Hlen] [Hsnd Hpres Hslen]] Hp.
  apply pick_arc_inv in Hp. destruct Hp as [Hlt Hnth].
  pose proof (Hpres i j (nth_error_In _ _ Hnth)) as Hj.
  assert (Hin : In (i, j) (allarcs g)) by (now apply Hall).
  repeat split; auto; try lia.
  - now apply Htr.
  - rewrite <- Hlen. destruct (allarcs g); [destruct Hin | simpl; lia].
Qed.

(** Removing the arc picked for deletion and inserting it again leaves the
    same graph. *)
Lemma regime_remove_insert_same (g : graph_t) (i j arcidx : nat) :
  regime_invariant uc ce g ->
  pick_arc (count g) (arcs g) arcidx = Some (i, j) ->
  same_graph (insert (remove g i j arcidx) i j) g.
Proof.
  intros Hinv Hp.
  destruct (picked_arc_present g i j arcidx Hinv Hp)
    as (Hj & Hi & Hin & Hn & Hc & Hnth).
  unfold eligible_count, eligible_arcs, regime_insertArc, regime_removeArc in *.
  destruct uc; [| destruct ce].
  - now apply removeArc_insertArc_allinnerarcs.
  - now apply removeArc_insertArc_all_maxtermsender_arcs.
  - now apply removeArc_insertArc_allarcs.
Qed.

(** The invariants of a regime speak of the graph that is held. *)
Lemma regime_invariant_same (g g' : graph_t) :
  same_graph g g' -> regime_invariant uc ce g -> regime_invariant uc ce g'.
Proof.
  intros Hs [Hst Hside]. split; [eapply store_invariant_same; eassumption |].
  unfold eligible_arcs, eligible_count in *.
  destruct uc; [| destruct ce];
    (eapply side_list_invariant_same; [exact Hs | | | exact Hside]);
    apply Hs.
Qed.

(** The regime's insertion of an arc that is not in the graph keeps the
    invariants. *)
Lemma regime_insertArc_invariant (g : graph_t) (i j : nat) :
  regime_invariant uc ce g -> ~ In j (arclist g i) ->
  regime_invariant uc ce (insert g i j).
Proof.
  intros [Hst Hside] Hnew.
  pose proof (insertArc_allarcs_invariant g i j Hst Hnew) as Hst'.
  unfold regime_invariant, eligible_arcs, eligible_count, regime_insertArc
    in *.
  destruct uc; [| destruct ce].
  - split; [now apply store_invariant_set_inner |].
    eapply side_list_insert; [exact Hside | exact Hnew | reflexivity].
  - split; [now apply store_invariant_set_maxtermsender |].
    eapply side_list_insert; [exact Hside | exact Hnew | reflexivity].
  - split; [exact Hst' |].
    eapply side_list_insert; [exact Hside | exact Hnew | reflexivity].
Qed.

(** The regime's removal of the arc that a delete move picked keeps the
    invariants. *)
Lemma regime_removeArc_invariant (g : graph_t) (i j arcidx : nat) :
  regime_invariant uc ce g ->
  pick_arc (count g) (arcs g) arcidx = Some (i, j) ->
  regime_invariant uc ce (remove g i j arcidx).
Proof.
  intros Hinv Hp.
  destruct (picked_arc_present g i j arcidx Hinv Hp)
    as (Hj & Hi & Hin & Hn & Hc & Hnth).
  destruct Hinv as [Hst Hside].
  pose proof (inv_arclist_unique Hst i) as Hnd.
  unfold regime_invariant, eligible_arcs, eligible_count, regime_removeArc
    in *.
  destruct uc; [| destruct ce].
  - split.
    + apply store_invariant_set_inner, removeArc_invariant; [exact Hst |].
      now apply remove_entry_perm.
    + eapply side_list_remove;
        [exact Hside | exact Hnd | apply swap_remove_perm; exact Hnth
        | reflexivity].
  - split.
    + apply store_invariant_set_maxtermsender, removeArc_invariant;
        [exact Hst |].
      now apply remove_entry_perm.
    + eapply side_list_remove;
        [exact Hside | exact Hnd | apply swap_remove_perm; exact Hnth
        | reflexivity].
  - split.
    + apply removeArc_invariant; [exact Hst |].
      now apply swap_remove_perm.
    + eapply side_list_remove;
        [exact Hside | exact Hnd | apply swap_remove_perm; exact Hnth
        | reflexivity].
Qed.

(** An iteration keeps the invariants of its regime, whatever it proposes
    and whether or not the move is accepted or performed, as long as an
    add move that is performed does not propose an arc of the graph. *)
Lemma ifd_iteration_invariant (st st1 : sampler_state) (loc loc1 : locals)
  (d : draw) (o : outcome) :
  iteration st loc d = Some (st1, loc1, o) ->
  regime_invariant uc ce (ss_graph st) ->
  (o_isDelete o = false -> o_accepted o && performMove = true ->
   isArc (ss_graph st) (o_i o) (o_j o) = false) ->
  regime_invariant uc ce (ss_graph st1).
Proof.
  intros H Hinv Hfresh.
  destruct (ifd_iteration_inv _ _ _ _ _ _ H)
    as [arcidx [Hpick [Hg _]]].
  rewrite Hg. destruct (o_isDelete o).
  - specialize (Hpick eq_refl).
    destruct (o_accepted o && performMove).
    + now apply regime_removeArc_invariant.
    + eapply regime_invariant_same; [| exact Hinv].
      apply same_graph_sym. now apply regime_remove_insert_same.
  - destruct (o_accepted o && performMove); [| exact Hinv].
    apply regime_insertArc_invariant; [exact Hinv |].
    apply isArc_false. now apply Hfresh.
Qed.

(** What an iteration does to the number of arcs in the regime's list. *)
Lemma ifd_iteration_count (st st1 : sampler_state) (loc loc1 : locals)
  (d : draw) (o : outcome) :
  iteration st loc d = Some (st1, loc1, o) ->
  count (ss_graph st1)
  = (if o_accepted o && o_performMove o
     then if o_isDelete o then Nat.pred (count (ss_graph st))
          else S (count (ss_graph st))
     else count (ss_graph st)).
Proof.
  intros H.
  destruct (ifd_iteration_inv _ _ _ _ _ _ H)
    as [arcidx [Hpick [Hg [_ [_ [_ [_ [_ Hpm]]]]]]]].
  rewrite Hg, Hpm.
  destruct (o_isDelete o).
  - destruct (pick_arc_inv _ _ _ _ (Hpick eq_refl)) as [Hlt _].
    destruct (o_accepted o && performMove);
      rewrite ?regime_insertArc_count_succ, regime_removeArc_count_pred;
      [reflexivity | lia].
  - destruct (o_accepted o && performMove);
      rewrite ?regime_insertArc_count_succ; reflexivity.
Qed.

End Iteration.

End IFDFacts.

(* ----------------------------------------------------------------- *)
(** ** The IFD sampler: the graph over a run of proposals *)

Module IFDGraph.

Import Digraph IFD DigraphFacts IFDFacts.

Section Runs.

Context {CS : ChangeStats}.

Variables (uc fr ce al : bool).

Lemma ifd_run_app_inv (os1 os2 : list outcome) (st st' : sampler_state) :
  ifd_run uc fr ce al st (os1 ++ os2) st' ->
  exists s, ifd_run uc fr ce al st os1 s /\ ifd_run uc fr ce al s os2 st'.
Proof.
  revert st. induction os1 as [| o os1 IH]; intros st H; simpl in H.
  - exists st. split; [constructor | exact H].
  - inversion H as [| n theta pm aux s0 s1 s2 loc loc1 d o' os Hi Hrest];
      subst.
    destruct (IH _ Hrest) as [s [H1 H2]].
    exists s. split; [| exact H2].
    econstructor; eassumption.
Qed.

(** The loop of one call is such a run. *)
Lemma ifd_loop_run (n : nat) (theta : list float) (pm : bool) (aux : float)
  (draws : list draw) (st st' : sampler_state) (loc loc' : locals)
  (trace : list outcome) :
  ifd_loop n theta pm aux uc fr ce al draws st loc = Some (st', loc', trace) ->
  ifd_run uc fr ce al st trace st'.
Proof.
  revert st loc trace. induction draws as [| d draws IH];
    intros st loc trace H; simpl in H.
  - injection H as <- <- <-. constructor.
  - destruct (ifd_iteration _ _ _ _ _ _ _ _ _ _ _) as [[[st1 loc1] o] |] eqn:Hi;
      [| discriminate].
    destruct (ifd_loop _ _ _ _ _ _ _ _ _ _ _) as [[[st2 loc2] os] |] eqn:Hl;
      [| discriminate].
    injection H as <- <- <-.
    econstructor; [exact Hi |]. eapply IH. exact Hl.
Qed.

(** A proposal that is accepted in a call with [performMove] changes
    [num_arcs] by its kind; a proposal that is rejected, in any call, leaves
    it alone when the graph has an arc. *)
Lemma ifd_step_num_arcs (n : nat) (theta : list float) (pm : bool)
  (aux : float) (st st1 : sampler_state) (loc loc1 : locals) (d : draw)
  (o : outcome) :
  ifd_iteration n theta pm aux uc fr ce al st loc d = Some (st1, loc1, o) ->
  (o_performMove o = true -> o_accepted o = true -> o_isDelete o = false ->
   num_arcs (ss_graph st1) = S (num_arcs (ss_graph st)))
  /\ (o_performMove o = true -> o_accepted o = true -> o_isDelete o = true ->
      num_arcs (ss_graph st1) = Nat.pred (num_arcs (ss_graph st)))
  /\ (o_accepted o = false -> 1 <= num_arcs (ss_graph st) ->
      num_arcs (ss_graph st1) = num_arcs (ss_graph st)).
Proof.
  intros H. destruct (ifd_iteration_inv _ _ _ _ _ _ _ _ _ _ _ _ _ _ H)
    as [arcidx [_ [Hg [_ [_ [_ [_ [_ Hpm]]]]]]]].
  rewrite Hg, Hpm.
  destruct (o_isDelete o), (o_accepted o), pm; simpl;
    rewrite ?regime_insertArc_num_arcs, ?regime_removeArc_num_arcs;
    repeat split; intros; try discriminate; try reflexivity; lia.
Qed.

Lemma ifd_run_rejected_num_arcs (os : list outcome) (st st' : sampler_state) :
  ifd_run uc fr ce al st os st' ->
  Forall (fun o => o_accepted o = false) os ->
  1 <= num_arcs (ss_graph st) ->
  num_arcs (ss_graph st') = num_arcs (ss_graph st).
Proof.
  intros H.
  induction H as [st | n theta pm aux st st1 st2 loc loc1 d o os Hi Hr IH];
    intros Hrej Hpos.
  - reflexivity.
  - inversion Hrej; subst.
    destruct (ifd_step_num_arcs _ _ _ _ _ _ _ _ _ _ Hi) as [_ [_ Hsame]].
    rewrite IH; auto; rewrite Hsame; auto.
Qed.

(** C3: with [performMove = TRUE], over one alternation round -- an accepted
    add move, then any number of rejected proposals, then an accepted delete
    move -- [num_arcs] ends at the value it started from, in every regime,
    from every state and for all random numbers, whether the round lies in
    one call or runs over several. *)
Theorem ifd_round_preserves_num_arcs (st st' : sampler_state)
  (o_add o_del : outcome) (rejected : list outcome) :
  ifd_run uc fr ce al st (o_add :: rejected ++ [o_del]) st' ->
  o_performMove o_add = true ->
  o_isDelete o_add = false -> o_accepted o_add = true ->
  Forall (fun o => o_accepted o = false) rejected ->
  o_performMove o_del = true ->
  o_isDelete o_del = true -> o_accepted o_del = true ->
  num_arcs (ss_graph st') = num_arcs (ss_graph st).
Proof.
  intros Hrun Hpm1 Hadd1 Hadd2 Hrej Hpm2 Hdel1 Hdel2.
  inversion Hrun as [| n theta pm aux s0 s1 s2 loc loc1 d o os Hi Hrest];
    subst.
  destruct (ifd_step_num_arcs _ _ _ _ _ _ _ _ _ _ Hi) as [Hplus _].
  specialize (Hplus Hpm1 Hadd2 Hadd1).
  destruct (ifd_run_app_inv _ _ _ _ Hrest) as [s [Hmid Hlast]].
  pose proof (ifd_run_rejected_num_arcs _ _ _ Hmid Hrej) as Hkeep.
  rewrite Hplus in Hkeep. specialize (Hkeep ltac:(lia)).
  inversion Hlast
    as [| n' theta' pm' aux' t0 t1 t2 loc' loc1' d' o' os' Hi' Hnil];
    subst.
  inversion Hnil; subst.
  destruct (ifd_step_num_arcs _ _ _ _ _ _ _ _ _ _ Hi') as [_ [Hminus _]].
  rewrite (Hminus Hpm2 Hdel2 Hdel1), Hkeep. reflexivity.
Qed.








End Runs.

End IFDGraph.

(* ----------------------------------------------------------------- *)
(** ** Worked runs of the IFD sampler *)

Module IFDExamples.

Import Digraph IFD DigraphFacts IFDFacts IFDGraph Linked Examples.

Lemma round_step1 :
  step 0 round_start
  = Some (round_state1, locals_after (step 0 round_start),
          {| o_isDelete := false; o_i := 0; o_j := 1; o_accepted := true;
             o_performMove := true |}).
Proof. vm_compute. reflexivity. Qed.

Lemma round_step2 :
  step infinity round_state1
  = Some (round_state2, locals_after (step infinity round_state1),
          {| o_isDelete := true; o_i := 0; o_j := 1; o_accepted := false;
             o_performMove := true |}).
Proof. vm_compute. reflexivity. Qed.

Lemma round_step3 :
  step 0 round_state2
  = Some (round_state3, locals_after (step 0 round_state2),
          {| o_isDelete := true; o_i := 0; o_j := 1; o_accepted := true;
             o_performMove := true |}).
Proof. vm_compute. reflexivity. Qed.

(** The round of [Examples] as a run of three proposals. *)
Lemma round_run :
  ifd_run (CS := zero_stats) false false false false round_start
    ({| o_isDelete := false; o_i := 0; o_j := 1; o_accepted := true;
             o_performMove := true |}
     :: [{| o_isDelete := true; o_i := 0; o_j := 1; o_accepted := false;
             o_performMove := true |}]
     ++ [{| o_isDelete := true; o_i := 0; o_j := 1; o_accepted := true;
             o_performMove := true |}])
    round_state3.
Proof.
  eapply ifd_run_cons; [exact round_step1 |].
  eapply ifd_run_cons; [exact round_step2 |].
  eapply ifd_run_cons; [exact round_step3 |].
  apply ifd_run_nil.
Qed.

Lemma ifd_round_preserves_num_arcs_witness :
  num_arcs (ss_graph round_state3) = num_arcs (ss_graph round_start).
Proof.
  refine (ifd_round_preserves_num_arcs (CS := zero_stats)
            false false false false round_start round_state3
            {| o_isDelete := false; o_i := 0; o_j := 1; o_accepted := true;
             o_performMove := true |}
            {| o_isDelete := true; o_i := 0; o_j := 1; o_accepted := true;
             o_performMove := true |}
            [{| o_isDelete := true; o_i := 0; o_j := 1; o_accepted := false;
             o_performMove := true |}]
            round_run eq_refl eq_refl eq_refl _ eq_refl eq_refl eq_refl).
  repeat constructor.
Defined.

(** The graphs of the worked examples satisfy the invariants: they are
    built from the empty graph by insertions of arcs that are not there. *)
Lemma empty_graph_regime_invariant (uc ce : bool) (N : nat) :
  regime_invariant uc ce (empty_graph N).
Proof.
  split; [apply empty_graph_invariant |].
  unfold eligible_arcs, eligible_count. destruct uc, ce; simpl;
    apply empty_side_list_invariant.
Qed.

Lemma one_arc_graph_invariant : regime_invariant false false one_arc_graph.
Proof.
  apply (regime_insertArc_invariant false false).
  - apply empty_graph_regime_invariant.
  - simpl. tauto.
Qed.





End IFDExamples.

(* ----------------------------------------------------------------- *)
(** ** The IFD sampler: the kind of move *)

Module IFDKind.

Import Digraph IFD DigraphFacts IFDFacts IFDGraph Linked Examples IFDExamples.

Section Kinds.

Context {CS : ChangeStats}.

Variables (uc fr ce al : bool).

Lemma ifd_iteration_kind (n : nat) (theta : list float) (pm : bool)
  (aux : float) (st st1 : sampler_state) (loc loc1 : locals) (d : draw)
  (o : outcome) :
  ifd_iteration n theta pm aux uc fr ce al st loc d = Some (st1, loc1, o) ->
  kind_from uc ce st o
  /\ ss_isDelete st1 = xorb (o_isDelete o) (o_accepted o)
  /\ (citation_regime uc ce = true -> o_isDelete o = true ->
      o_accepted o = false ->
      num_maxtermsender_arcs (ss_graph st1) <> 0).
Proof.
  intros H.
  destruct (ifd_iteration_inv _ _ _ _ _ _ _ _ _ _ _ _ _ _ H)
    as [arcidx [_ [Hg [Hflag [Hkind _]]]]].
  split; [| split; [exact Hflag |]].
  - unfold kind_from. destruct Hkind as [[Hk _] | [Hc [Hd [Hz [Hk _]]]]]; auto.
  - intros Hc Hdel Hrej. rewrite Hg, Hdel, Hrej. simpl.
    pose proof (regime_insertArc_count uc ce
                  (regime_removeArc uc ce (ss_graph st) (o_i o) (o_j o) arcidx)
                  (o_i o) (o_j o)) as Hcount.
    unfold citation_regime in Hc. unfold eligible_count in Hcount.
    destruct uc; [discriminate |]. destruct ce; [exact Hcount | discriminate].
Qed.

(** One proposal, from the state [st] before it to the state [st1] after
    it: the guard of the citation regime decides between the kind that the
    [static] variable holds and a forced add move with its warning; the
    variable is then flipped if the proposal is accepted; the number of
    arcs in the regime's list, which the guard reads, changes by one when a
    move is performed and not otherwise; and after a rejected proposal the
    guard does not fire. *)
Lemma ifd_iteration_guard (n : nat) (theta : list float) (pm : bool)
  (aux : float) (st st1 : sampler_state) (loc loc1 : locals) (d : draw)
  (o : outcome) :
  ifd_iteration n theta pm aux uc fr ce al st loc d = Some (st1, loc1, o) ->
  (forced_add uc ce st = false ->
   o_isDelete o = ss_isDelete st /\ ss_stderr st1 = ss_stderr st)
  /\ (forced_add uc ce st = true ->
      o_isDelete o = false
      /\ ss_stderr st1 = ss_stderr st ++ [Warn_num_maxtermsender_arcs_0])
  /\ ss_isDelete st1 = xorb (o_isDelete o) (o_accepted o)
  /\ eligible_count uc ce (ss_graph st1)
     = (if o_accepted o && o_performMove o
        then if o_isDelete o
             then Nat.pred (eligible_count uc ce (ss_graph st))
             else S (eligible_count uc ce (ss_graph st))
        else eligible_count uc ce (ss_graph st))
  /\ (o_accepted o = false -> forced_add uc ce st1 = false).
Proof.
  intros H.
  destruct (ifd_iteration_kind _ _ _ _ _ _ _ _ _ _ H) as [_ [Hflag Hcount]].
  destruct (ifd_iteration_inv _ _ _ _ _ _ _ _ _ _ _ _ _ _ H)
    as [arcidx [_ [_ [_ [Hkind _]]]]].
  unfold forced_add.
  split; [| split; [| split; [exact Hflag |
    split; [exact (ifd_iteration_count _ _ _ _ _ _ _ _ _ _ _ _ _ _ H) |]]]].
  - intros Hf. destruct Hkind as [[Hk [He _]] | [Hc [Hd [Hz _]]]]; [auto |].
    rewrite Hc, Hd, Hz in Hf. discriminate Hf.
  - intros Hf. apply andb_true_iff in Hf. destruct Hf as [Hf Hz].
    apply andb_true_iff in Hf. destruct Hf as [Hc Hd].
    apply Nat.eqb_eq in Hz.
    destruct Hkind as [[_ [_ Hnz]] | [_ [_ [_ [Hk He]]]]]; [| auto].
    now destruct (Hnz Hc Hd).
  - intros Hrej. rewrite Hflag, Hrej, xorb_false_r.
    destruct (citation_regime uc ce) eqn:Hc; [| reflexivity].
    destruct (o_isDelete o) eqn:Hdel; [| reflexivity]. simpl.
    apply Nat.eqb_neq. now apply Hcount.
Qed.

(** C10 (amended): the proposals of a process, in one call or several, with
    the states between them.  The kind of each proposal is the value that
    the [static] variable [isDelete] holds, except that the citation
    regime, when a delete move is due and [num_maxtermsender_arcs] is 0,
    resets the variable, writes a warning and makes an add move.  After the
    proposal the variable holds its kind, flipped if and only if the
    proposal was accepted, and the number of arcs in the regime's list
    ([num_maxtermsender_arcs] in the citation regime) has changed by one if
    the move was performed and not otherwise: the variable and the guard at
    every proposal follow from the first state and the proposals before it.
    Hence after a rejected proposal the next is of
    the same kind; after an accepted proposal the next is of the other
    kind, unless that guard fires, which it does only after an accepted add
    move and with an add move.  The first proposal of a process, whose
    variable has its initial value, is an add move. *)
Theorem ifd_run_kinds (st st' : sampler_state) (trace : list outcome) :
  ifd_run uc fr ce al st trace st' ->
  exists states : list sampler_state,
    List.length states = S (List.length trace)
    /\ nth_error states 0 = Some st
    /\ nth_error states (List.length trace) = Some st'
    /\ (forall k s o s',
          nth_error states k = Some s -> nth_error trace k = Some o ->
          nth_error states (S k) = Some s' ->
          (forced_add uc ce s = false ->
           o_isDelete o = ss_isDelete s /\ ss_stderr s' = ss_stderr s)
          /\ (forced_add uc ce s = true ->
              o_isDelete o = false
              /\ ss_stderr s'
                 = ss_stderr s ++ [Warn_num_maxtermsender_arcs_0])
          /\ ss_isDelete s' = xorb (o_isDelete o) (o_accepted o)
          /\ eligible_count uc ce (ss_graph s')
             = (if o_accepted o && o_performMove o
                then if o_isDelete o
                     then Nat.pred (eligible_count uc ce (ss_graph s))
                     else S (eligible_count uc ce (ss_graph s))
                else eligible_count uc ce (ss_graph s)))
    /\ (forall k o1 o2 s,
          nth_error trace k = Some o1 -> nth_error trace (S k) = Some o2 ->
          nth_error states (S k) = Some s ->
          (o_accepted o1 = false -> o_isDelete o2 = o_isDelete o1)
          /\ (o_accepted o1 = true -> forced_add uc ce s = false ->
              o_isDelete o2 = negb (o_isDelete o1))
          /\ (o_accepted o1 = true -> forced_add uc ce s = true ->
              o_isDelete o1 = false /\ o_isDelete o2 = false))
    /\ (forall o, nth_error trace 0 = Some o ->
          ss_isDelete st = isDelete_initial -> o_isDelete o = false).
Proof.
  intros H.
  induction H as [st | n theta pm aux st st1 st2 loc loc1 d o os Hi Hr IH].
  - exists [st]. simpl.
    split; [reflexivity |]. split; [reflexivity |]. split; [reflexivity |].
    split; [| split].
    + intros k s o s' _ Ho. destruct k; discriminate Ho.
    + intros k o1 o2 s Ho1. destruct k; discriminate Ho1.
    + intros o Ho. discriminate Ho.
  - destruct IH as [states [Hlen [Hfirst [Hlast [Hstep [Hnext _]]]]]].
    destruct (ifd_iteration_guard _ _ _ _ _ _ _ _ _ _ Hi)
      as [Hplain [Hforced [Hflag [Hcount Hrej]]]].
    exists (st :: states). simpl.
    split; [now rewrite Hlen |]. split; [reflexivity |].
    split; [exact Hlast |]. split; [| split].
    + intros k s o' s' Hs Ho Hs'. destruct k as [| k]; simpl in *.
      * injection Hs as <-. injection Ho as <-.
        rewrite Hfirst in Hs'. injection Hs' as <-. auto.
      * exact (Hstep k s o' s' Hs Ho Hs').
    + intros k o1 o2 s Ho1 Ho2 Hs. destruct k as [| k]; simpl in *.
      * injection Ho1 as <-. rewrite Hfirst in Hs. injection Hs as <-.
        destruct os as [| o2' os']; [discriminate Ho2 |].
        simpl in Ho2, Hlen. injection Ho2 as <-.
        destruct (nth_error states 1) as [s1 |] eqn:Hs1;
          [| apply nth_error_None in Hs1; lia].
        destruct (Hstep 0 st1 o2' s1 Hfirst eq_refl Hs1)
          as [Hp2 [Hf2 _]].
        split; [| split].
        -- intros Hacc. destruct (Hp2 (Hrej Hacc)) as [Hk _].
           rewrite Hk, Hflag, Hacc. apply xorb_false_r.
        -- intros Hacc Hnf. destruct (Hp2 Hnf) as [Hk _].
           rewrite Hk, Hflag, Hacc. apply xorb_true_r.
        -- intros Hacc Hf. destruct (Hf2 Hf) as [Hk _].
           split; [| exact Hk].
           unfold forced_add in Hf. apply andb_true_iff in Hf.
           destruct Hf as [Hf _]. apply andb_true_iff in Hf.
           destruct Hf as [_ Hd]. rewrite Hflag, Hacc in Hd.
           now destruct (o_isDelete o).
      * exact (Hnext k o1 o2 s Ho1 Ho2 Hs).
    + intros o' Ho Hinit. injection Ho as <-.
      unfold isDelete_initial in Hinit.
      assert (Hnf : forced_add uc ce st = false).
      { unfold forced_add. rewrite Hinit, andb_false_r. reflexivity. }
      destruct (Hplain Hnf) as [Hk _]. congruence.
Qed.

(** A call hands the [static] variable and the graph of the end of its loop
    to the next call. *)
Lemma ifdSampler_run (n : nat) (theta : list float) (pm : bool)
  (aux : float) (st : sampler_state) (sampler_m : nat) (K : float)
  (rng : nat -> draw) (r : ifd_return) :
  ifdSampler n theta pm aux uc fr ce al st sampler_m K rng = Some r ->
  exists st1,
    ifd_run uc fr ce al st (ret_trace r) st1
    /\ ss_isDelete (ret_state r) = ss_isDelete st1
    /\ ss_graph (ret_state r) = ss_graph st1.
Proof.
  unfold ifdSampler. intros H.
  destruct (ifd_loop _ _ _ _ _ _ _ _ _ _ _) as [[[st1 loc] trace] |] eqn:Hl;
    [| discriminate].
  injection H as <-. simpl. exists st1.
  split; [| split; reflexivity].
  eapply ifd_loop_run. exact Hl.
Qed.

(** What an iteration does depends on the graph and the [static] variable
    only, not on what has been written to [stderr]. *)
Lemma ifd_iteration_stderr (n : nat) (theta : list float) (pm : bool)
  (aux : float) (st st0 st1 : sampler_state) (loc loc1 : locals) (d : draw)
  (o : outcome) :
  ifd_iteration n theta pm aux uc fr ce al st loc d = Some (st1, loc1, o) ->
  ss_graph st0 = ss_graph st -> ss_isDelete st0 = ss_isDelete st ->
  exists st1',
    ifd_iteration n theta pm aux uc fr ce al st0 loc d = Some (st1', loc1, o)
    /\ ss_graph st1' = ss_graph st1 /\ ss_isDelete st1' = ss_isDelete st1.
Proof.
  destruct st as [g b e], st0 as [g0 b0 e0]. simpl. intros H -> ->.
  revert H. unfold ifd_iteration, ifd_propose. simpl.
  destruct uc, ce, (fr || al), b; simpl;
    try discriminate;
    try (destruct (Nat.eqb (num_maxtermsender_arcs g) 0); simpl);
    try (destruct (pick_arc _ _ _) as [[i j] |]; [| discriminate]);
    destruct (calcChangeStats _ _ _ _ _ _) as [total0 changestats];
    destruct (d_u d <? exp _)%float;
    intros H; injection H as <- <- <-; simpl;
    eexists; (split; [reflexivity |]); simpl; auto.
Qed.

Lemma ifd_run_stderr (st st' : sampler_state) (trace : list outcome) :
  ifd_run uc fr ce al st trace st' ->
  forall st0,
    ss_graph st0 = ss_graph st -> ss_isDelete st0 = ss_isDelete st ->
    exists st0',
      ifd_run uc fr ce al st0 trace st0'
      /\ ss_graph st0' = ss_graph st' /\ ss_isDelete st0' = ss_isDelete st'.
Proof.
  intros H.
  induction H as [st | n theta pm aux st st1 st2 loc loc1 d o os Hi Hr IH];
    intros st0 Hg Hb.
  - exists st0. split; [constructor | auto].
  - destruct (ifd_iteration_stderr _ _ _ _ _ _ _ _ _ _ _ Hi Hg Hb)
      as [st1' [Hi' [Hg' Hb']]].
    destruct (IH st1' Hg' Hb') as [st2' [Hr' [Hg2 Hb2]]].
    exists st2'. split; [| auto]. econstructor; eassumption.
Qed.

Lemma ifd_run_app (st s st' : sampler_state) (os1 os2 : list outcome) :
  ifd_run uc fr ce al st os1 s -> ifd_run uc fr ce al s os2 st' ->
  ifd_run uc fr ce al st (os1 ++ os2) st'.
Proof.
  intros H1 H2.
  induction H1 as [st | n theta pm aux st st1 st2 loc loc1 d o os Hi Hr IH];
    simpl; [exact H2 |].
  econstructor; [exact Hi |]. apply IH. exact H2.
Qed.

(** X19: two calls one after the other, whatever their [theta], [performMove]
    and auxiliary parameter (such as the last call of Algorithm S and the
    first of Algorithm EE): their proposals form one run. *)
Lemma ifdSampler_successive_calls
  (n1 n2 : nat) (theta1 theta2 : list float) (pm1 pm2 : bool)
  (aux1 aux2 : float) (st : sampler_state) (m1 m2 : nat) (K1 K2 : float)
  (rng1 rng2 : nat -> draw) (r1 r2 : ifd_return) :
  ifdSampler n1 theta1 pm1 aux1 uc fr ce al st m1 K1 rng1 = Some r1 ->
  ifdSampler n2 theta2 pm2 aux2 uc fr ce al (ret_state r1) m2 K2 rng2
    = Some r2 ->
  exists st2,
    ifd_run uc fr ce al st (ret_trace r1 ++ ret_trace r2) st2
    /\ ss_isDelete (ret_state r2) = ss_isDelete st2
    /\ ss_graph (ret_state r2) = ss_graph st2.
Proof.
  intros H1 H2.
  destruct (ifdSampler_run _ _ _ _ _ _ _ _ _ H1) as [s1 [Hr1 [Hb1 Hg1]]].
  destruct (ifdSampler_run _ _ _ _ _ _ _ _ _ H2) as [s2 [Hr2 [Hb2 Hg2]]].
  destruct (ifd_run_stderr _ _ _ Hr2 s1 (eq_sym Hg1) (eq_sym Hb1))
    as [s2' [Hr2' [Hg2' Hb2']]].
  exists s2'. split; [eapply ifd_run_app; eassumption |].
  split; congruence.
Qed.

(** The citation regime: a delete move with no arc to delete becomes an add
    move, with a warning on [stderr]. *)
Lemma ifd_citation_switches_to_add (st : sampler_state) (d : draw) :
  citation_regime uc ce = true -> fr || al = false ->
  ss_isDelete st = true ->
  num_maxtermsender_arcs (ss_graph st) = 0 ->
  ifd_propose uc fr ce al st d
  = Some ({| ss_graph := ss_graph st; ss_isDelete := false;
             ss_stderr := ss_stderr st ++ [Warn_num_maxtermsender_arcs_0] |},
          d_i d, d_j d, 0).
Proof.
  unfold citation_regime, ifd_propose. intros Hc Ha Hd Hz.
  destruct uc; [discriminate |]. destruct ce; [| discriminate].
  rewrite Ha, Hd, Hz. reflexivity.
Qed.

(** C8 (where the program departs from it): in the plain and the snowball
    regime a delete move with no arc to delete is not turned into an add
    move and no warning is written: the program goes on to pick an arc
    from an empty array, and the iteration has no defined result. *)
Theorem ifd_delete_without_arcs (n : nat) (theta : list float) (pm : bool)
  (aux : float) (st : sampler_state) (loc : locals) (d : draw) :
  citation_regime uc ce = false ->
  ss_isDelete st = true ->
  eligible_count uc ce (ss_graph st) = 0 ->
  ifd_propose uc fr ce al st d = None
  /\ ifd_iteration n theta pm aux uc fr ce al st loc d = None.
Proof.
  intros Hc Hd Hz.
  assert (Hp : ifd_propose uc fr ce al st d = None).
  { unfold citation_regime, ifd_propose, eligible_count, pick_arc in *.
    destruct uc; simpl in *.
    - destruct (fr || al); [reflexivity |]. rewrite Hd, Hz.
      now destruct (d_arcidx d).
    - destruct ce; [discriminate |]. rewrite Hd, Hz.
      now destruct (d_arcidx d). }
  split; [exact Hp |]. unfold ifd_iteration. now rewrite Hp.
Qed.

End Kinds.

Lemma ifd_delete_without_arcs_witness :
  ifd_propose false false false false
    {| ss_graph := empty_graph 2; ss_isDelete := true; ss_stderr := [] |}
    example_draw = None
  /\ ifd_iteration (CS := zero_stats) 0 [] false 0 false false false false
       {| ss_graph := empty_graph 2; ss_isDelete := true; ss_stderr := [] |}
       (locals_initial 0) example_draw = None.
Proof.
  exact (ifd_delete_without_arcs (CS := zero_stats) false false false false
           0 [] false 0
           {| ss_graph := empty_graph 2; ss_isDelete := true;
              ss_stderr := [] |}
           (locals_initial 0) example_draw eq_refl eq_refl eq_refl).
Defined.

(** That state is reached: Algorithm S with the IFD sampler on an empty
    graph, one proposal per call.  The first call accepts an add move and,
    without [performMove], leaves the graph empty; the second call starts
    with a delete move and does not return. *)
Lemma algorithm_S_on_empty_graph :
  algorithm_S (E := example_engine) (example_world isDelete_initial)
    1 1 1 0x1p-3 true 0x1p-3 false false <> None
  /\ algorithm_S (E := example_engine) (example_world isDelete_initial)
       1 2 1 0x1p-3 true 0x1p-3 false false = None.
Proof. split; [vm_compute; discriminate | vm_compute; reflexivity]. Qed.

(** The run of [Examples.citation_trace]: an add move that is accepted
    without [performMove]; the guard of the citation regime fires and the
    next proposal is an add move again, accepted and performed; the last
    proposal is the delete move of the arc just added. *)
Lemma citation_step1 :
  citation_step false citation_start
  = Some (citation_state1, locals_after (citation_step false citation_start),
          outcome_after (citation_step false citation_start)).
Proof. vm_compute. reflexivity. Qed.

Lemma citation_step2 :
  citation_step true citation_state1
  = Some (citation_state2, locals_after (citation_step true citation_state1),
          outcome_after (citation_step true citation_state1)).
Proof. vm_compute. reflexivity. Qed.

Lemma citation_step3 :
  citation_step true citation_state2
  = Some (citation_state3, locals_after (citation_step true citation_state2),
          outcome_after (citation_step true citation_state2)).
Proof. vm_compute. reflexivity. Qed.

Lemma citation_run :
  ifd_run (CS := zero_stats) false false true false citation_start
    citation_trace citation_state3.
Proof.
  unfold citation_trace.
  eapply ifd_run_cons; [exact citation_step1 |].
  eapply ifd_run_cons; [exact citation_step2 |].
  eapply ifd_run_cons; [exact citation_step3 |].
  apply ifd_run_nil.
Qed.

Lemma ifd_run_kinds_witness :
  map o_isDelete citation_trace = [false; false; true]
  /\ map o_accepted citation_trace = [true; true; true]
  /\ ss_stderr citation_state3 = [Warn_num_maxtermsender_arcs_0]
  /\ map (fun s => num_maxtermsender_arcs (ss_graph s))
       [citation_start; citation_state1; citation_state2; citation_state3]
     = [0; 0; 1; 0]
  /\ exists states : list sampler_state,
       List.length states = S (List.length citation_trace)
       /\ nth_error states 0 = Some citation_start
       /\ nth_error states (List.length citation_trace)
          = Some citation_state3
       /\ (forall k s o s',
             nth_error states k = Some s ->
             nth_error citation_trace k = Some o ->
             nth_error states (S k) = Some s' ->
             (forced_add false true s = false ->
              o_isDelete o = ss_isDelete s /\ ss_stderr s' = ss_stderr s)
             /\ (forced_add false true s = true ->
                 o_isDelete o = false
                 /\ ss_stderr s'
                    = ss_stderr s ++ [Warn_num_maxtermsender_arcs_0])
             /\ ss_isDelete s' = xorb (o_isDelete o) (o_accepted o)
             /\ num_maxtermsender_arcs (ss_graph s')
                = (if o_accepted o && o_performMove o
                   then if o_isDelete o
                        then Nat.pred (num_maxtermsender_arcs (ss_graph s))
                        else S (num_maxtermsender_arcs (ss_graph s))
                   else num_maxtermsender_arcs (ss_graph s)))
       /\ (forall k o1 o2 s,
             nth_error citation_trace k = Some o1 ->
             nth_error citation_trace (S k) = Some o2 ->
             nth_error states (S k) = Some s ->
             (o_accepted o1 = false -> o_isDelete o2 = o_isDelete o1)
             /\ (o_accepted o1 = true -> forced_add false true s = false ->
                 o_isDelete o2 = negb (o_isDelete o1))
             /\ (o_accepted o1 = true -> forced_add false true s = true ->
                 o_isDelete o1 = false /\ o_isDelete o2 = false))
       /\ (forall o, nth_error citation_trace 0 = Some o ->
             ss_isDelete citation_start = isDelete_initial ->
             o_isDelete o = false).
Proof.
  split; [vm_compute; reflexivity |]. split; [vm_compute; reflexivity |].
  split; [vm_compute; reflexivity |]. split; [vm_compute; reflexivity |].
  exact (ifd_run_kinds (CS := zero_stats) false false true false
           citation_start citation_state3 citation_trace citation_run).
Defined.

(** C10 (as stated) fails: in the citation regime without [performMove], on
    a graph with no arc from a max-term node, the first proposal is an add
    move that is accepted and the second is an add move again. *)
Lemma kind_does_not_always_flip : ~ kind_flips_iff_accepted.
Proof.
  intros H.
  assert (Hl : exists st' loc',
             citation_loop
             = Some (st', loc',
                     [{| o_isDelete := false; o_i := 0; o_j := 1;
                         o_accepted := true; o_performMove := false |};
                      {| o_isDelete := false; o_i := 0; o_j := 1;
                         o_accepted := true; o_performMove := false |}]))
    by (vm_compute; do 2 eexists; reflexivity).
  destruct Hl as [st' [loc' Hl]].
  destruct (H _ _ _ _ _ _ _ _ _ _ _ _ _ _ _ Hl 0 _ _ eq_refl eq_refl)
    as [_ Hflip].
  specialize (Hflip eq_refl). discriminate Hflip.
Qed.

End IFDKind.

(* ----------------------------------------------------------------- *)
(** ** The IFD sampler: the auxiliary parameter *)

Module IFDAux.

Import Digraph IFD DigraphFacts IFDFacts IFDGraph Linked Examples.

Lemma wrap_small (z : Z) :
  (- 2 ^ 31 <= z < 2 ^ 31)%Z -> CInt.wrap z = z.
Proof. intros H. unfold CInt.wrap. rewrite Z.mod_small; lia. Qed.

Lemma add_wrap (a b : Z) : CInt.add (CInt.wrap a) b = CInt.wrap (a + b).
Proof.
  unfold CInt.add, CInt.wrap. f_equal.
  replace ((a + 2 ^ 31) mod 2 ^ 32 - 2 ^ 31 + b + 2 ^ 31)%Z
    with ((a + 2 ^ 31) mod 2 ^ 32 + b)%Z by lia.
  rewrite Z.add_mod_idemp_l by lia. f_equal. lia.
Qed.

Lemma count_kind_cons (b : bool) (o : outcome) (os : list outcome) :
  count_kind b (o :: os)
  = (if Bool.eqb (o_isDelete o) b then 1 else 0) + count_kind b os.
Proof.
  unfold count_kind. simpl. now destruct (Bool.eqb (o_isDelete o) b).
Qed.

Lemma count_kind_total (trace : list outcome) :
  count_kind true trace + count_kind false trace = List.length trace.
Proof.
  induction trace as [| o os IH]; [reflexivity |].
  rewrite !count_kind_cons. simpl. destruct (o_isDelete o); simpl; lia.
Qed.

Section Counters.

Context {CS : ChangeStats}.

Variables (n : nat) (theta : list float) (pm : bool) (aux : float).
Variables (uc fr ce al : bool).

(** Every proposal is counted, in [Ndel] or in [Nadd] by its kind, whether
    it is accepted or not. *)
Lemma ifd_loop_counts (draws : list draw) (st st' : sampler_state)
  (loc loc' : locals) (trace : list outcome) (a b : Z) :
  ifd_loop n theta pm aux uc fr ce al draws st loc = Some (st', loc', trace) ->
  Ndel loc = CInt.wrap a -> Nadd loc = CInt.wrap b ->
  Ndel loc' = CInt.wrap (a + Z.of_nat (count_kind true trace))
  /\ Nadd loc' = CInt.wrap (b + Z.of_nat (count_kind false trace))
  /\ List.length trace = List.length draws.
Proof.
  revert st loc trace a b. induction draws as [| d draws IH];
    intros st loc trace a b H Ha Hb; simpl in H.
  - injection H as <- <- <-. simpl. rewrite !Z.add_0_r. auto.
  - destruct (ifd_iteration _ _ _ _ _ _ _ _ _ _ _) as [[[st1 loc1] o] |] eqn:Hi;
      [| discriminate].
    destruct (ifd_loop _ _ _ _ _ _ _ _ _ _ _) as [[[st2 loc2] os] |] eqn:Hl;
      [| discriminate].
    injection H as <- <- <-.
    destruct (ifd_iteration_inv _ _ _ _ _ _ _ _ _ _ _ _ _ _ Hi)
      as [arcidx [_ [_ [_ [_ [Hd [Hadd _]]]]]]].
    rewrite !count_kind_cons. simpl.
    destruct (o_isDelete o); simpl in *.
    + rewrite Ha, add_wrap in Hd.
      destruct (IH _ _ _ _ _ Hl Hd (eq_trans Hadd Hb)) as [H1 [H2 H3]].
      rewrite H1, H2, H3. repeat split; f_equal; lia.
    + rewrite Hb, add_wrap in Hadd.
      destruct (IH _ _ _ _ _ Hl (eq_trans Hd Ha) Hadd) as [H1 [H2 H3]].
      rewrite H1, H2, H3. repeat split; f_equal; lia.
Qed.

(** X18: the auxiliary parameter is read, never written, inside the loop, and
    updated once after it from the two counters; [dzArc] is their
    difference.  As long as the square of [sampler_m] fits an [int], the
    counters are the numbers of delete and add proposals and the update is
    by [ifd_K * (Ndel - Nadd)^2 / (Ndel + Nadd)^2] against the excess. *)
Lemma ifdSampler_aux_param (st : sampler_state) (sampler_m : nat)
  (K : float) (rng : nat -> draw) (r : ifd_return) :
  ifdSampler n theta pm aux uc fr ce al st sampler_m K rng = Some r ->
  (Z.of_nat sampler_m * Z.of_nat sampler_m <= CInt.INT_MAX)%Z ->
  let nd := Z.of_nat (count_kind true (ret_trace r)) in
  let na := Z.of_nat (count_kind false (ret_trace r)) in
  let step :=
    (K * of_int (nd - na) * of_int (nd - na)
     / of_int ((nd + na) * (nd + na)))%float in
  (nd + na = Z.of_nat sampler_m)%Z
  /\ ret_ifd_aux_param r
     = (if (nd >? na)%Z then (aux - step)%float
        else if (nd <? na)%Z then (aux + step)%float
        else aux)
  /\ ret_dzArc r = (of_int nd - of_int na)%float.
Proof.
  unfold ifdSampler. intros H Hfit.
  destruct (ifd_loop _ _ _ _ _ _ _ _ _ _ _) as [[[st1 loc] trace] |] eqn:Hl;
    [| discriminate].
  injection H as <-. cbv zeta. simpl.
  destruct (ifd_loop_counts _ _ _ _ _ _ 0%Z 0%Z Hl eq_refl eq_refl)
    as [Hd [Ha Hlen]].
  rewrite length_map, length_seq in Hlen.
  pose proof (count_kind_total trace) as Htot.
  simpl in Hd, Ha.
  set (nd := Z.of_nat (count_kind true trace)) in *.
  set (na := Z.of_nat (count_kind false trace)) in *.
  assert (Hsum : (nd + na = Z.of_nat sampler_m)%Z) by (subst nd na; lia).
  assert (Hnd : (0 <= nd)%Z) by (subst nd; lia).
  assert (Hna : (0 <= na)%Z) by (subst na; lia).
  unfold CInt.INT_MAX in Hfit.
  assert (Hm : (Z.of_nat sampler_m < 2 ^ 31)%Z) by nia.
  rewrite wrap_small in Hd by lia. rewrite wrap_small in Ha by lia.
  split; [exact Hsum |].
  unfold ifd_aux_param_update, ifd_aux_param_step.
  rewrite Hd, Ha.
  unfold CInt.sub, CInt.add, CInt.mul.
  rewrite (wrap_small (nd - na)) by lia.
  rewrite (wrap_small (nd + na)) by lia.
  rewrite (wrap_small ((nd + na) * (nd + na))) by (rewrite Hsum; lia).
  split; [| reflexivity].
  destruct (Z.gtb_spec (nd - na) 0), (Z.gtb_spec nd na); try lia; auto.
  destruct (Z.ltb_spec (nd - na) 0), (Z.ltb_spec nd na); try lia; auto.
Qed.

End Counters.

(** C5 (where the program departs from it): a call with
    [sampler_m = 50000] and [ifd_K = 0.125] in which every proposal is an
    add move, so that [Nadd = 50000 > Ndel = 0]: the auxiliary parameter
    should go up from 0 by [ifd_K * 50000^2 / 50000^2 = 0.125]; the [int]
    product [(Ndel + Nadd) * (Ndel + Nadd)] wraps around to [-1794967296],
    the step comes out negative, and the parameter goes down. *)
Theorem ifd_aux_param_overflow :
  CInt.mul 50000 50000 = (-1794967296)%Z
  /\ option_map
       (fun r => (ret_Ndel r, ret_Nadd r, ret_dzArc r, ret_ifd_aux_param r,
                  (ret_ifd_aux_param r <? 0)%float))
       big_call
     = Some (0%Z, 50000%Z, (-50000)%float,
             (0 + 0x1p-3 * -50000 * -50000 / -1794967296)%float, true).
Proof. split; vm_compute; reflexivity. Qed.

End IFDAux.
(* ================================================================= *)
(** * Further properties of the code *)
(* ================================================================= *)

(* ----------------------------------------------------------------- *)
(** ** The estimation engine *)

Module EngineFacts.

(** Loops whose bodies agree, or keep a relation, behave alike. *)
Lemma iter_opt_ext (A : Type) (f g : A -> option A) (k : nat) (a : A) :
  (forall x, f x = g x) -> iter_opt k f a = iter_opt k g a.
Proof.
  intros Hfg. revert a. induction k as [| k IH]; intros a; simpl.
  - reflexivity.
  - rewrite Hfg. destruct (g a) as [a' |]; [apply IH | reflexivity].
Qed.

Lemma iter_opt_rel (A : Type) (R : A -> A -> Prop) (f g : A -> option A) :
  (forall a b, R a b -> option_rel R (f a) (g b)) ->
  forall k a b, R a b -> option_rel R (iter_opt k f a) (iter_opt k g b).
Proof.
  intros Hstep. induction k as [| k IH]; intros a b Hab; simpl.
  - exact Hab.
  - specialize (Hstep a b Hab).
    destruct (f a) as [a' |], (g b) as [b' |]; simpl in Hstep;
      try contradiction; [now apply IH | exact I].
Qed.

(** A positive double divided by zero is [+inf]. *)
Lemma div_zero_infinity (x : float) :
  (0 <? x)%float = true -> (x / 0)%float = infinity.
Proof.
  intros H. apply FloatAxioms.Prim2SF_inj.
  rewrite FloatAxioms.div_spec.
  rewrite FloatAxioms.ltb_spec in H.
  change (Prim2SF 0) with (S754_zero false) in *.
  change (Prim2SF infinity) with (S754_infinity false).
  unfold SFltb in H.
  destruct (Prim2SF x) as [s | s | | s m e]; simpl in *;
    try discriminate; destruct s; try discriminate; reflexivity.
Qed.

Section Engine.

Context {world : Type} {E : Engine world}.

(** The warnings of the degeneracy test, for the indices [idx] still to be
    looked at. *)
Lemma degeneracy_test_warnings (Dmean : list float) (idx : list nat)
  (acc : Z * list message) :
  snd (fold_left
         (fun (a : Z * list message) (i : nat) =>
            if isinf (at_ Dmean i)
            then (1%Z, snd a ++ [Warn_D0_degenerate i])
            else a) idx acc)
  = snd acc
    ++ map Warn_D0_degenerate (filter (fun i => isinf (at_ Dmean i)) idx).
Proof.
  revert acc. induction idx as [| i idx IH]; intros acc; simpl.
  - now rewrite app_nil_r.
  - rewrite IH. destruct (isinf (at_ Dmean i)); simpl.
    + now rewrite <- app_assoc.
    + reflexivity.
Qed.

(** The error code and the warnings of the degeneracy test. *)
Lemma degeneracy_test_eq (n : nat) (Dmean : list float) :
  degeneracy_test n Dmean
  = (if existsb (fun i => isinf (at_ Dmean i)) (seq 0 n) then 1%Z else 0%Z,
     map Warn_D0_degenerate
       (filter (fun i => isinf (at_ Dmean i)) (seq 0 n))).
Proof.
  rewrite (surjective_pairing (degeneracy_test n Dmean)).
  rewrite degeneracy_test_errcode.
  unfold degeneracy_test. rewrite degeneracy_test_warnings.
  reflexivity.
Qed.

(** X1: the degeneracy test of [ee_estimate] sets the error code to 1
    exactly when some [Dmean_i] with [i < n] is an infinity, and leaves it
    0 otherwise; it writes one warning for each such [i], in increasing
    order of [i], and nothing else. *)
Theorem degeneracy_test_reports (n : nat) (Dmean : list float) :
  (fst (degeneracy_test n Dmean) = 1%Z
   <-> exists i, i < n /\ isinf (at_ Dmean i) = true)
  /\ (fst (degeneracy_test n Dmean) = 0%Z
      <-> forall i, i < n -> isinf (at_ Dmean i) = false)
  /\ snd (degeneracy_test n Dmean)
     = map Warn_D0_degenerate
         (filter (fun i => isinf (at_ Dmean i)) (seq 0 n)).
Proof.
  rewrite degeneracy_test_eq. simpl.
  destruct (existsb (fun i => isinf (at_ Dmean i)) (seq 0 n)) eqn:Hex.
  - apply existsb_exists in Hex. destruct Hex as [i [Hi Hinf]].
    apply in_seq in Hi.
    split; [| split; [| reflexivity]].
    + split; [intros _; exists i; split; [lia | exact Hinf] | reflexivity].
    + split; [discriminate |]. intros Hall.
      rewrite (Hall i ltac:(lia)) in Hinf. discriminate.
  - split; [| split; [| reflexivity]].
    + split; [discriminate |]. intros [i [Hi Hinf]]. exfalso.
      assert (Hc : existsb (fun i => isinf (at_ Dmean i)) (seq 0 n) = true).
      { apply existsb_exists. exists i. split; [apply in_seq; lia | exact Hinf]. }
      rewrite Hc in Hex. discriminate.
    + split; [| reflexivity]. intros _ i Hi.
      destruct (isinf (at_ Dmean i)) eqn:Hinf; [| reflexivity].
      exfalso.
      assert (Hc : existsb (fun i => isinf (at_ Dmean i)) (seq 0 n) = true).
      { apply existsb_exists. exists i. split; [apply in_seq; lia | exact Hinf]. }
      rewrite Hc in Hex. discriminate.
Qed.

(** X3: with [Ssteps = 0] Algorithm S makes no iteration, so that every
    [D0_l] is still 0 and every [Dmean_l = sampler_m / D0_l] is [+inf]: as
    soon as there is a parameter and [sampler_m] is positive, [ee_estimate]
    warns about every parameter, does not run Algorithm EE, leaves the
    graph alone and returns 1 with [theta = 0]. *)
Theorem ee_estimate_without_S_iterations (w : world)
  (n sampler_m Mouter Msteps : nat) (ACA_S ACA_EE compC : float)
  (useIFD : bool) (K : float) (useCond forbidRecip useBorisenko : bool)
  (learningRate minTheta : float) :
  0 < n ->
  (0 <? of_uint sampler_m)%float = true ->
  ee_estimate w n sampler_m 0 Mouter Msteps ACA_S ACA_EE compC useIFD K
    useCond forbidRecip useBorisenko learningRate minTheta
  = Some {| ee_errcode := 1; ee_world := w; ee_theta := zeros n;
            ee_Dmean := tabulate n (fun _ => infinity);
            ee_log :=
              Msg_running_S :: map Warn_D0_degenerate (seq 0 n) |}.
Proof.
  intros Hn Hm. unfold ee_estimate, algorithm_S, S_loop. simpl.
  assert (HD : tabulate n
                 (fun l => (of_uint sampler_m / at_ (zeros n) l)%float)
               = tabulate n (fun _ => infinity)).
  { unfold tabulate. apply map_ext. intros l.
    rewrite at_zeros. now apply div_zero_infinity. }
  rewrite HD, degeneracy_test_eq.
  assert (Hall : forall i, In i (seq 0 n) ->
                   isinf (at_ (tabulate n (fun _ => infinity)) i) = true).
  { intros i Hi. apply in_seq in Hi.
    rewrite at_tabulate by lia. reflexivity. }
  assert (Hex : existsb
                  (fun i => isinf (at_ (tabulate n (fun _ => infinity)) i))
                  (seq 0 n) = true).
  { apply existsb_exists. exists 0. split; [apply in_seq; lia |].
    apply Hall, in_seq. lia. }
  rewrite Hex. simpl.
  rewrite forallb_filter_id; [reflexivity |].
  apply forallb_forall. exact Hall.
Qed.

(** With [useBorisenkoUpdate] the update of [theta] reads neither [ACA] nor
    [D0], and the rescaling of [D0] is skipped: runs of Algorithm EE that
    differ in [ACA], [compC] and [D0] only go through the same worlds,
    [theta] and [dzA]. *)
Lemma algorithm_EE_Borisenko_ignores_D0 (w : world)
  (n Mouter Minner sampler_m : nat) (ACA ACA' compC compC' : float)
  (D0 D0' theta : list float) (useIFD : bool) (K : float)
  (useCond forbidRecip : bool) (learningRate minTheta : float) :
  algorithm_EE w n Mouter Minner sampler_m ACA compC D0 theta useIFD K
    useCond forbidRecip true learningRate minTheta
  = algorithm_EE w n Mouter Minner sampler_m ACA' compC' D0' theta useIFD K
      useCond forbidRecip true learningRate minTheta.
Proof.
  set (R := fun a b : @EE_state world =>
              EE_world a = EE_world b /\ EE_theta a = EE_theta b
              /\ EE_dzA a = EE_dzA b /\ EE_dzArc a = EE_dzArc b
              /\ EE_ifd_aux_param a = EE_ifd_aux_param b
              /\ EE_thetamatrix a = EE_thetamatrix b).
  assert (Hinner : forall a b, R a b ->
            option_rel R
              (EE_inner n sampler_m ACA useIFD K useCond forbidRecip true
                 learningRate minTheta a)
              (EE_inner n sampler_m ACA' useIFD K useCond forbidRecip true
                 learningRate minTheta b)).
  { intros a b (Hw & Ht & Hd & Hz & Ha & Hm). unfold EE_inner.
    rewrite Hw, Ht, Hd, Hz, Ha, Hm.
    destruct (call_sampler _ _ _ _ _ _ _ _ _ _ _)
      as [[[[w1 r] dzArc] aux] |]; simpl; [| exact I].
    unfold R; simpl. repeat split; reflexivity. }
  assert (Houter : forall a b, R a b ->
            option_rel R
              (EE_outer n Minner sampler_m ACA compC useIFD K useCond
                 forbidRecip true learningRate minTheta a)
              (EE_outer n Minner sampler_m ACA' compC' useIFD K useCond
                 forbidRecip true learningRate minTheta b)).
  { intros a b (Hw & Ht & Hd & Hz & Ha & Hm).
    rewrite !EE_outer_Borisenko.
    apply iter_opt_rel; [exact Hinner |].
    unfold R; simpl. repeat split; assumption. }
  unfold algorithm_EE.
  pose proof (iter_opt_rel _ R _ _ Houter Mouter
                (EE_init n w D0 theta) (EE_init n w D0' theta)) as H.
  destruct (iter_opt Mouter _ (EE_init n w D0 theta)) as [a |],
           (iter_opt Mouter _ (EE_init n w D0' theta)) as [b |];
    simpl in H.
  - destruct H as (Hw & Ht & _); [unfold R; simpl; repeat split |].
    now rewrite Hw, Ht.
  - exfalso. apply H. unfold R; simpl; repeat split.
  - exfalso. apply H. unfold R; simpl; repeat split.
  - reflexivity.
Qed.

(** X4: with [useBorisenkoUpdate] the settings [ACA_EE] and [compC] have no
    effect on an estimation, as the warning of [do_estimation] says: two
    calls of [ee_estimate] that differ in them only return the same error
    code, world, [theta], [Dmean] and messages; nor has the derivative
    estimate [D0] that Algorithm EE is handed. *)
Theorem ee_estimate_Borisenko_ignores_ACA_EE_compC (w : world)
  (n sampler_m M1_steps Mouter Msteps : nat)
  (ACA_S ACA_EE ACA_EE' compC compC' : float)
  (useIFD : bool) (K : float) (useCond forbidRecip : bool)
  (learningRate minTheta : float) :
  ee_estimate w n sampler_m M1_steps Mouter Msteps ACA_S ACA_EE compC
    useIFD K useCond forbidRecip true learningRate minTheta
  = ee_estimate w n sampler_m M1_steps Mouter Msteps ACA_S ACA_EE' compC'
      useIFD K useCond forbidRecip true learningRate minTheta
  /\ forall (w1 : world) (D0 D0' theta : list float),
       algorithm_EE w1 n Mouter Msteps sampler_m ACA_EE compC D0 theta
         useIFD K useCond forbidRecip true learningRate minTheta
       = algorithm_EE w1 n Mouter Msteps sampler_m ACA_EE' compC' D0' theta
           useIFD K useCond forbidRecip true learningRate minTheta.
Proof.
  split; [| intros; apply algorithm_EE_Borisenko_ignores_D0].
  unfold ee_estimate.
  destruct (algorithm_S _ _ _ _ _ _ _ _ _) as [[[w1 theta1] Dmean] |];
    [| reflexivity].
  destruct (degeneracy_test n Dmean) as [errcode warnings].
  destruct (errcode =? 0)%Z; [| reflexivity].
  now rewrite (algorithm_EE_Borisenko_ignores_D0 w1 n Mouter Msteps
                 sampler_m ACA_EE ACA_EE' compC compC' Dmean Dmean).
Qed.

(** X5: without [useBorisenkoUpdate] the settings [learningRate] and
    [minTheta] have no effect on an estimation, as the warning of
    [do_estimation] says: two calls of [ee_estimate] that differ in them
    only return the same. *)
Theorem ee_estimate_classical_ignores_learningRate (w : world)
  (n sampler_m M1_steps Mouter Msteps : nat) (ACA_S ACA_EE compC : float)
  (useIFD : bool) (K : float) (useCond forbidRecip : bool)
  (learningRate learningRate' minTheta minTheta' : float) :
  ee_estimate w n sampler_m M1_steps Mouter Msteps ACA_S ACA_EE compC
    useIFD K useCond forbidRecip false learningRate minTheta
  = ee_estimate w n sampler_m M1_steps Mouter Msteps ACA_S ACA_EE compC
      useIFD K useCond forbidRecip false learningRate' minTheta'.
Proof.
  assert (Hinner : forall st,
            EE_inner n sampler_m ACA_EE useIFD K useCond forbidRecip false
              learningRate minTheta st
            = EE_inner n sampler_m ACA_EE useIFD K useCond forbidRecip false
                learningRate' minTheta' st)
    by reflexivity.
  assert (Houter : forall st,
            EE_outer n Msteps sampler_m ACA_EE compC useIFD K useCond
              forbidRecip false learningRate minTheta st
            = EE_outer n Msteps sampler_m ACA_EE compC useIFD K useCond
                forbidRecip false learningRate' minTheta' st).
  { intros st. unfold EE_outer.
    now rewrite (iter_opt_ext _ _ _ Msteps _ Hinner). }
  unfold ee_estimate, algorithm_EE.
  destruct (algorithm_S _ _ _ _ _ _ _ _ _) as [[[w1 theta1] Dmean] |];
    [| reflexivity].
  destruct (degeneracy_test n Dmean) as [errcode warnings].
  destruct (errcode =? 0)%Z; [| reflexivity].
  now rewrite (iter_opt_ext _ _ _ Mouter _ Houter).
Qed.

(** Entries of an array that a loop with a body that may abort has built. *)
Lemma sequence_opt_nth (A : Type) (xs : list (option A)) (ys : list A) :
  sequence_opt xs = Some ys ->
  List.length ys = List.length xs
  /\ forall i y, nth_error ys i = Some y -> nth_error xs i = Some (Some y).
Proof.
  revert ys. induction xs as [| x xs IH]; intros ys H; simpl in H.
  - injection H as <-. split; [reflexivity |]. intros [| i] y Hy; discriminate.
  - destruct x as [x |]; [| discriminate].
    destruct (sequence_opt xs) as [zs |]; [| discriminate].
    injection H as <-. destruct (IH zs eq_refl) as [Hlen Hnth].
    split; [simpl; now rewrite Hlen |].
    intros [| i] y Hy; simpl in *; [congruence | now apply Hnth].
Qed.

Lemma tabulate_opt_at (n : nat) (f : nat -> option float) (a : list float) :
  tabulate_opt n f = Some a ->
  List.length a = n /\ forall l, l < n -> f l = Some (at_ a l).
Proof.
  unfold tabulate_opt, tabulate. intros H.
  destruct (sequence_opt_nth _ _ _ H) as [Hlen Hnth].
  rewrite length_map, length_seq in Hlen.
  split; [exact Hlen |]. intros l Hl.
  destruct (nth_error a l) as [y |] eqn:Hy.
  - specialize (Hnth l y Hy).
    rewrite nth_error_map, nth_error_seq in Hnth.
    destruct (Nat.ltb_spec l n); [| lia]. simpl in Hnth.
    injection Hnth as ->. f_equal. unfold at_.
    symmetry. now apply nth_error_nth.
  - apply nth_error_None in Hy. lia.
Qed.

Lemma tabulate_opt_none (n : nat) (f : nat -> option float) (l : nat) :
  l < n -> f l = None -> tabulate_opt n f = None.
Proof.
  intros Hl Hf.
  destruct (tabulate_opt n f) as [a |] eqn:Ha; [| reflexivity].
  destruct (tabulate_opt_at _ _ _ Ha) as [_ Hat].
  rewrite (Hat l Hl) in Hf. discriminate.
Qed.

Lemma sequence_opt_some (A : Type) (xs : list (option A)) :
  (forall x, In x xs -> x <> None) -> exists ys, sequence_opt xs = Some ys.
Proof.
  induction xs as [| x xs IH]; intros H; simpl.
  - now exists [].
  - destruct x as [x |]; [| now destruct (H None (or_introl eq_refl))].
    destruct IH as [ys ->]; [intros y Hy; apply H; now right |].
    now exists (x :: ys).
Qed.

Lemma tabulate_opt_some (n : nat) (f : nat -> option float) :
  (forall l, l < n -> f l <> None) -> exists a, tabulate_opt n f = Some a.
Proof.
  intros H. unfold tabulate_opt, tabulate. apply sequence_opt_some.
  intros x Hx. apply in_map_iff in Hx. destruct Hx as [l [<- Hl]].
  apply in_seq in Hl. apply H. lia.
Qed.

Section Classical.

Variables (n sampler_m : nat) (ACA : float) (useIFD : bool) (K : float).
Variables (useCond forbidRecip : bool) (learningRate minTheta : float).

Local Abbreviation inner :=
  (EE_inner n sampler_m ACA useIFD K useCond forbidRecip false
     learningRate minTheta).

(** X6: an inner step of Algorithm EE without [useBorisenkoUpdate] calls
    the sampler with [performMove = TRUE], adds [addSum_l - delSum_l] to
    the accumulator [dzA_l], and moves [theta_l] against the sign of the new
    [dzA_l] by [D0_l * ACA * dzA_l^2]; it leaves [D0] alone and appends the
    new [theta] to the rows kept for the end of the outer iteration. *)
Theorem EE_inner_classical (st st' : @EE_state world) :
  inner st = Some st' ->
  exists w1 r dzArc aux,
    call_sampler useIFD K useCond forbidRecip true n sampler_m
      (EE_world st) (EE_theta st) (EE_dzArc st) (EE_ifd_aux_param st)
      = Some (w1, r, dzArc, aux)
    /\ EE_world st' = w1
    /\ EE_D0 st' = EE_D0 st
    /\ EE_thetamatrix st' = EE_thetamatrix st ++ [EE_theta st']
    /\ forall l, l < n ->
         let dzA := at_ (EE_dzA st') l in
         dzA = (at_ (EE_dzA st) l
                + (at_ (addChangeStats r) l - at_ (delChangeStats r) l))%float
         /\ at_ (EE_theta st') l
            = (at_ (EE_theta st) l
               + (if (dzA <? 0)%float then 1 else -1)
                 * (at_ (EE_D0 st) l * ACA) * dzA * dzA)%float.
Proof.
  unfold EE_inner. intros H.
  destruct (call_sampler useIFD K useCond forbidRecip true n sampler_m
              (EE_world st) (EE_theta st) (EE_dzArc st)
              (EE_ifd_aux_param st))
    as [[[[w1 r] dzArc] aux] |] eqn:Hs; [| discriminate].
  injection H as <-. exists w1, r, dzArc, aux. simpl.
  repeat (split; [reflexivity |]).
  intros l Hl. cbv zeta. rewrite !at_tabulate by assumption.
  split; reflexivity.
Qed.

(** No inner step writes to [D0]. *)
Lemma EE_inner_D0 (st st' : @EE_state world) :
  inner st = Some st' -> EE_D0 st' = EE_D0 st.
Proof.
  unfold EE_inner.
  destruct (call_sampler _ _ _ _ _ _ _ _ _ _ _)
    as [[[[w1 r] dzArc] aux] |]; [| discriminate].
  intros H. now injection H as <-.
Qed.

Lemma EE_inner_loop_D0 (k : nat) (st st' : @EE_state world) :
  iter_opt k inner st = Some st' -> EE_D0 st' = EE_D0 st.
Proof.
  revert st'. induction k as [| k IH]; intros st' H.
  - simpl in H. now injection H as <-.
  - rewrite iter_opt_succ in H.
    destruct (iter_opt k inner st) as [st1 |]; [| discriminate].
    rewrite <- (IH st1 eq_refl). now apply EE_inner_D0.
Qed.

(** X7: an outer iteration of Algorithm EE without [useBorisenkoUpdate] is
    its [Minner] inner steps and then, for every parameter, a rescaling of
    [D0_l] from the mean and standard deviation of the [theta_l] of those
    steps: [D0_l] is multiplied by [sqrt(compC / (sd / |mean|))], with a
    mean below 0.1 in size taken as 0.1, and only if [sd > 1e-10].  When
    some standard deviation is negative or not a number the assertion
    fails and the iteration does not return; otherwise it returns. *)
Theorem EE_outer_rescales_D0 (Minner : nat) (compC : float)
  (st st1 : @EE_state world) :
  iter_opt Minner inner
    {| EE_world := EE_world st; EE_theta := EE_theta st;
       EE_dzA := EE_dzA st; EE_D0 := EE_D0 st; EE_dzArc := EE_dzArc st;
       EE_ifd_aux_param := EE_ifd_aux_param st; EE_thetamatrix := [] |}
  = Some st1 ->
  let sd l :=
    snd (mean_and_sd (map (fun row => at_ row l) (EE_thetamatrix st1))) in
  let mean l :=
    fst (mean_and_sd (map (fun row => at_ row l) (EE_thetamatrix st1))) in
  let outer :=
    EE_outer n Minner sampler_m ACA compC useIFD K useCond forbidRecip false
      learningRate minTheta st in
  (forall st', outer = Some st' ->
     EE_world st' = EE_world st1 /\ EE_theta st' = EE_theta st1
     /\ EE_dzA st' = EE_dzA st1
     /\ List.length (EE_D0 st') = n
     /\ forall l, l < n ->
          (0 <=? sd l)%float = true
          /\ at_ (EE_D0 st') l
             = if (c_1e_10 <? sd l)%float
               then (at_ (EE_D0 st) l
                     * PrimFloat.sqrt
                         (compC
                          / (sd l
                             / fabs (if (fabs (mean l) <? c_0_1)%float
                                     then c_0_1 else mean l))))%float
               else at_ (EE_D0 st) l)
  /\ (forall l, l < n -> (0 <=? sd l)%float = false -> outer = None)
  /\ ((forall l, l < n -> (0 <=? sd l)%float = true) ->
      exists st', outer = Some st').
Proof.
  intros Hin. cbv zeta. unfold EE_outer. rewrite Hin.
  pose proof (EE_inner_loop_D0 _ _ _ Hin) as HD0. simpl in HD0.
  split; [| split].
  - intros st' H.
    destruct (tabulate_opt n _) as [D0' |] eqn:Ht; [| discriminate].
    injection H as <-. simpl.
    destruct (tabulate_opt_at _ _ _ Ht) as [Hlen Hat].
    repeat (split; [reflexivity |]). split; [exact Hlen |].
    intros l Hl. specialize (Hat l Hl). unfold EE_rescale_D0 in Hat.
    rewrite HD0 in Hat.
    destruct (mean_and_sd _) as [m s]. simpl.
    destruct (0 <=? s)%float; [| discriminate]. split; [reflexivity |].
    destruct (c_1e_10 <? s)%float; now injection Hat as <-.
  - intros l Hl Hsd.
    rewrite (tabulate_opt_none n _ l Hl); [reflexivity |].
    unfold EE_rescale_D0.
    destruct (mean_and_sd _) as [m s]. simpl in Hsd. now rewrite Hsd.
  - intros Hsd.
    destruct (tabulate_opt_some n
                (fun l =>
                   EE_rescale_D0 compC
                     (map (fun row => at_ row l) (EE_thetamatrix st1))
                     (at_ (EE_D0 st1) l))) as [D0' HD0'].
    + intros l Hl. specialize (Hsd l Hl). unfold EE_rescale_D0.
      destruct (mean_and_sd _) as [m s]. simpl in Hsd. rewrite Hsd.
      destruct (c_1e_10 <? s)%float; discriminate.
    + rewrite HD0'. eexists. reflexivity.
Qed.

End Classical.

End Engine.

(** The degenerate task of [Examples.degenerate_config]: one iteration of
    Algorithm S in which the proposal changes no statistic. *)
Lemma algorithm_S_degenerate_example :
  algorithm_S (E := Linked.example_engine)
    (Linked.example_world IFD.isDelete_initial)
    1 1 1 0x1p-3%float true 0x1p-3%float false false
  = Some (ee_world Examples.degenerate_ee_outcome, [0%float], [infinity]).
Proof. vm_compute. reflexivity. Qed.

Lemma ee_estimate_aborts_on_infinity_witness :
  exists out,
    ee_estimate (E := Linked.example_engine)
      (Linked.example_world IFD.isDelete_initial)
      1 1 1 1 1 0x1p-3%float 0x1p-10%float 0x1p-7%float
      true 0x1p-3%float false false true 0x1p-7%float 0x1p-7%float
    = Some out
    /\ ee_errcode out = 1%Z
    /\ ~ In Msg_running_EE (ee_log out)
    /\ ee_world out = ee_world Examples.degenerate_ee_outcome
    /\ ee_theta out = [0%float].
Proof.
  exact (ee_estimate_aborts_on_infinity (E := Linked.example_engine)
           1 1 1 1 1 0x1p-3%float 0x1p-10%float 0x1p-7%float
           true 0x1p-3%float false false true 0x1p-7%float 0x1p-7%float
           (Linked.example_world IFD.isDelete_initial) _ _ _
           algorithm_S_degenerate_example eq_refl).
Defined.

Lemma ee_estimate_without_S_iterations_witness :
  ee_estimate (E := Linked.example_engine)
    (Linked.example_world IFD.isDelete_initial)
    2 1000 0 5 7 0x1p-3%float 0x1p-10%float 0x1p-7%float
    true 0x1p-3%float false false false 0x1p-7%float 0x1p-7%float
  = Some {| ee_errcode := 1;
            ee_world := Linked.example_world IFD.isDelete_initial;
            ee_theta := zeros 2;
            ee_Dmean := tabulate 2 (fun _ => infinity);
            ee_log :=
              Msg_running_S :: map Warn_D0_degenerate (seq 0 2) |}.
Proof.
  apply (ee_estimate_without_S_iterations (E := Linked.example_engine)
           (Linked.example_world IFD.isDelete_initial)
           2 1000 5 7 0x1p-3%float 0x1p-10%float 0x1p-7%float
           true 0x1p-3%float false false false 0x1p-7%float 0x1p-7%float).
  - lia.
  - reflexivity.
Defined.

(** An inner step on the graph with the arc [1 -> 0], with one unit change
    statistic, [D0 = 1] and [ACA = 1/8]: the sampler makes one proposal,
    the add move [0 -> 1], which is accepted and performed; [dzA] goes from
    0 to 1 and [theta] from 0 to [-1/8]. *)
Lemma EE_inner_classical_example :
  EE_inner (E := Linked.worked_engine) 1 1 0x1p-3%float true 0x1p-3%float
    false false false 0x1p-7%float 0x1p-7%float
    (EE_init 1 Linked.one_arc_world [1%float] [0%float])
  = Some {| EE_world :=
              ({| IFD.ss_graph :=
                    Digraph.insertArc_allarcs Linked.one_arc_graph 0 1;
                  IFD.ss_isDelete := true;
                  IFD.ss_stderr := [IFD.Warn_increase_ifd_K] |},
               fun k => snd Linked.one_arc_world (k + 1));
            EE_theta := [(-0x1p-3)%float];
            EE_dzA := [1%float];
            EE_D0 := [1%float];
            EE_dzArc := (-1)%float;
            EE_ifd_aux_param := 0x1p-3%float;
            EE_thetamatrix := [[(-0x1p-3)%float]] |}.
Proof. vm_compute. reflexivity. Qed.

Lemma EE_inner_classical_witness :
  exists w1 r dzArc aux,
    call_sampler (E := Linked.worked_engine) true 0x1p-3%float false false
      true 1 1 Linked.one_arc_world [0%float] 0%float 0%float
      = Some (w1, r, dzArc, aux)
    /\ addChangeStats r = [1%float] /\ delChangeStats r = [0%float]
    /\ ({| IFD.ss_graph :=
             Digraph.insertArc_allarcs Linked.one_arc_graph 0 1;
           IFD.ss_isDelete := true;
           IFD.ss_stderr := [IFD.Warn_increase_ifd_K] |},
        fun k => snd Linked.one_arc_world (k + 1)) = w1
    /\ [1%float] = [1%float]
    /\ [[(-0x1p-3)%float]] = [] ++ [[(-0x1p-3)%float]]
    /\ forall l, l < 1 ->
         let dzA := at_ [1%float] l in
         dzA = (at_ [0%float] l
                + (at_ (addChangeStats r) l - at_ (delChangeStats r) l))%float
         /\ at_ [(-0x1p-3)%float] l
            = (at_ [0%float] l
               + (if (dzA <? 0)%float then 1 else -1)
                 * (at_ [1%float] l * 0x1p-3) * dzA * dzA)%float.
Proof.
  destruct (EE_inner_classical (E := Linked.worked_engine) 1 1 0x1p-3%float
              true 0x1p-3%float false false 0x1p-7%float 0x1p-7%float
              _ _ EE_inner_classical_example)
    as [w1 [r [dzArc [aux [Hcall Hrest]]]]].
  exists w1, r, dzArc, aux. split; [exact Hcall |].
  pose proof Hcall as Hc. vm_compute in Hc. injection Hc as _ Hr _ _.
  split; [rewrite <- Hr; reflexivity |].
  split; [rewrite <- Hr; reflexivity |].
  exact Hrest.
Defined.

(** An outer iteration of two such inner steps, with the mean and standard
    deviation of [Linked.mean_sd] and [compC = 1/128]: the add move
    [0 -> 1] and then the delete move of [1 -> 0], both accepted and
    performed.  [theta] goes to [-1/8] and to [-5/8], with mean [-3/8] and
    standard deviation [1/4], and [D0] is multiplied by
    [sqrt(compC / (0.25 / 0.375))]. *)
Lemma EE_outer_rescales_D0_witness :
  exists st1 st',
    iter_opt 2
      (EE_inner (E := Linked.worked_engine) 1 1 0x1p-3%float true
         0x1p-3%float false false false 0x1p-7%float 0x1p-7%float)
      (EE_init 1 Linked.one_arc_world [1%float] [0%float])
    = Some st1
    /\ EE_outer (E := Linked.worked_engine) 1 2 1 0x1p-3%float 0x1p-7%float
         true 0x1p-3%float false false false 0x1p-7%float 0x1p-7%float
         (EE_init 1 Linked.one_arc_world [1%float] [0%float])
       = Some st'
    /\ EE_thetamatrix st1 = [[(-0x1p-3)%float]; [(-0x1.4p-1)%float]]
    /\ mean_and_sd (Engine := Linked.worked_engine)
         [(-0x1p-3)%float; (-0x1.4p-1)%float]
       = ((-0x1.8p-2)%float, 0x1p-2%float)
    /\ EE_world st' = EE_world st1
    /\ EE_theta st' = [(-0x1.4p-1)%float]
    /\ EE_dzA st' = [2%float]
    /\ List.length (EE_D0 st') = 1
    /\ (forall l, l < 1 ->
          at_ (EE_D0 st') l
          = (1 * PrimFloat.sqrt (0x1p-7 / (0x1p-2 / fabs (-0x1.8p-2))))%float).
Proof.
  destruct (iter_opt 2
              (EE_inner (E := Linked.worked_engine) 1 1 0x1p-3%float true
                 0x1p-3%float false false false 0x1p-7%float 0x1p-7%float)
              (EE_init 1 Linked.one_arc_world [1%float] [0%float]))
    as [st1 |] eqn:Hin; [| vm_compute in Hin; discriminate Hin].
  destruct (EE_outer_rescales_D0 (E := Linked.worked_engine) 1 1 0x1p-3%float
              true 0x1p-3%float false false 0x1p-7%float 0x1p-7%float 2
              0x1p-7%float
              (EE_init 1 Linked.one_arc_world [1%float] [0%float]) st1 Hin)
    as [Hreturned [_ Hreturns]].
  pose proof Hin as Hst1. vm_compute in Hst1. injection Hst1 as Hst1.
  destruct Hreturns as [st' Hout].
  { intros l Hl. assert (l = 0) as -> by lia. rewrite <- Hst1.
    vm_compute. reflexivity. }
  exists st1, st'. split; [reflexivity |]. split; [exact Hout |].
  destruct (Hreturned st' Hout) as (Hw & Hth & Hdz & Hlen & HD0).
  split; [rewrite <- Hst1; reflexivity |].
  split; [vm_compute; reflexivity |].
  split; [exact Hw |].
  split; [rewrite Hth, <- Hst1; reflexivity |].
  split; [rewrite Hdz, <- Hst1; reflexivity |].
  split; [exact Hlen |].
  intros l Hl. destruct (HD0 l Hl) as [_ HD]. rewrite HD.
  assert (l = 0) as -> by lia. rewrite <- Hst1.
  vm_compute. reflexivity.
Defined.

End EngineFacts.

(* ----------------------------------------------------------------- *)
(** ** Algorithm S on top of the IFD sampler *)

Module EngineIFD.

Import Digraph IFD DigraphFacts IFDFacts IFDGraph Linked.

Section Linked_engine.

Variable CS : ChangeStats.
Variable basic :
  ifd_world -> nat -> list float -> nat -> bool -> bool -> bool ->
  option (ifd_world * sampler_result).
Variable msd : list float -> float * float.

Variables (n sampler_m : nat) (ACA K : float) (fr : bool).

Local Abbreviation engine := (ifd_engine CS basic msd).

(** What the loop of Algorithm S keeps from the world [w] it starts in:
    the graph, and the random numbers still to come, [t] calls on. *)
Local Abbreviation S_world_after t w w' :=
  (same_graph (ss_graph (fst w')) (ss_graph (fst w))
   /\ forall k, snd w' k = snd w (k + t * sampler_m)).




End Linked_engine.


End EngineIFD.

(* ----------------------------------------------------------------- *)
(** ** The drivers: what they return *)

Module DriverFacts.

Import DriverExamples.

(** [strcasecmp] finds the arc term whatever the case of its letters. *)
Lemma has_Arc_param_any_case (names : list string) (name : string) :
  In name names ->
  Strings.lowercase name = "arc"%string ->
  has_Arc_param names = true.
Proof.
  intros Hin Hlow. unfold has_Arc_param. apply existsb_exists.
  exists name. split; [exact Hin |].
  unfold Strings.strcasecmp_eq. rewrite Hlow. reflexivity.
Qed.

Section Drivers.

Context {world : Type} {E : Engine world}.

(** X9: with the IFD sampler, a structural parameter whose name is the arc
    term in any letter case makes [do_estimation] return -1, in every
    environment, with an error message and before [ee_estimate] or any
    sampler is called. *)
Theorem do_estimation_refuses_any_case_Arc (config : estim_config_t)
  (env : environment world) (name : string) :
  useIFDsampler config = true ->
  In name (param_names config) ->
  Strings.lowercase name = "arc"%string ->
  exists out,
    do_estimation config env = Some out
    /\ est_return out = (-1)%Z
    /\ est_ee out = None
    /\ est_stderr out <> [].
Proof.
  intros HIFD Hin Hlow.
  apply do_estimation_refuses_Arc_with_IFD; [exact HIFD |].
  eapply has_Arc_param_any_case; eassumption.
Qed.


(** X10: [do_estimation] has two ways to return.  Either it returns 0, has
    written no error line and has called [ee_estimate] (whose own return
    value does not matter); or it returns -1, has written exactly one error
    line and has not called [ee_estimate].  It returns no other value. *)
Theorem do_estimation_returns (config : estim_config_t)
  (env : environment world) (out : @estimation_outcome world) :
  do_estimation config env = Some out ->
  (est_return out = 0%Z /\ est_stderr out = []
   /\ exists eo, est_ee out = Some eo)
  \/ (est_return out = (-1)%Z /\ List.length (est_stderr out) = 1
      /\ est_ee out = None).
Proof.
  unfold do_estimation, est_fail. intros H.
  repeat match type of H with
         | (if ?c then _ else _) = _ =>
             destruct c; [injection H as <-; right; repeat split |]
         end.
  destruct (ee_estimate _ _ _ _ _ _ _ _ _ _ _ _ _ _ _ _) as [eo |];
    [| discriminate].
  injection H as <-. left. simpl. repeat split. now exists eo.
Qed.


(** X12: conditional estimation needs the snowball zones in both drivers
    alike: when it is asked for and no zone file is named, or the zones
    that were read have only one wave ([max_zone = 0]), [do_estimation] and
    [do_simulation] return -1 in every environment, and no sampler is
    called. *)
Theorem conditional_estimation_needs_zones (env : environment world) :
  (forall config : estim_config_t,
     useConditionalEstimation config = true ->
     zone_filename config = None \/ env_max_zone env = 0 ->
     exists out,
       do_estimation config env = Some out
       /\ est_return out = (-1)%Z /\ est_ee out = None)
  /\ (forall config : sim_config_t,
        sim_useConditionalEstimation config = true ->
        sim_zone_filename config = None \/ env_max_zone env = 0 ->
        exists out,
          do_simulation config env = Some out
          /\ sim_return out = (-1)%Z /\ sim_sampled out = None).
Proof.
  split; intros config Hc Hz.
  - unfold do_estimation, est_fail. rewrite Hc.
    destruct (zone_filename config) as [zf |] eqn:Hzf;
      (destruct Hz as [Hz | Hz]; [try discriminate Hz | rewrite ?Hz]);
      simpl;
      repeat match goal with
             | |- context [if ?c then _ else _] =>
                 destruct c;
                 [eexists; split; [reflexivity |]; simpl; auto |]
             end;
      try (eexists; split; [reflexivity |]; simpl; auto).
  - unfold do_simulation, sim_fail. rewrite Hc.
    destruct (sim_zone_filename config) as [zf |] eqn:Hzf;
      (destruct Hz as [Hz | Hz]; [try discriminate Hz | rewrite ?Hz]);
      simpl;
      repeat match goal with
             | |- context [if ?c then _ else _] =>
                 destruct c;
                 [eexists; split; [reflexivity |]; simpl; auto |]
             end;
      try (eexists; split; [reflexivity |]; simpl; auto).
Qed.

(** X13: a simulation that gets to its sampler runs it once, with
    [performMove], from the graph that was loaded, with auxiliary parameter
    0 and with every one of the [num_param] parameters equal to 0 (the
    array comes from [calloc] and is not written before the call),
    whatever the configuration says; [do_simulation] then returns 0 and
    has written no error line.  A simulation that does not get to its
    sampler returns -1 after one error line. *)
Theorem do_simulation_samples_at_zero_theta (config : sim_config_t)
  (env : environment world) (out : @simulation_outcome world) :
  do_simulation config env = Some out ->
  let num_param :=
    List.length (sim_param_names config)
    + sim_num_attr_change_stats_funcs config
    + num_dyadic_after_build env
    + sim_num_attr_interaction_change_stats_funcs config in
  (forall w' r,
     sim_sampled out = Some (w', r) ->
     sim_return out = 0%Z
     /\ sim_stderr out = []
     /\ exists dzArc aux,
          call_sampler (sim_useIFDsampler config) (sim_ifd_K config)
            (sim_useConditionalEstimation config)
            (sim_forbidReciprocity config)
            true num_param (sim_samplerSteps config) (loaded_world env)
            (zeros num_param) 0%float 0%float
          = Some (w', r, dzArc, aux))
  /\ (sim_sampled out = None ->
      sim_return out = (-1)%Z /\ List.length (sim_stderr out) = 1).
Proof.
  unfold do_simulation, sim_fail, simulate_ergm. intros H. cbv zeta.
  repeat match type of H with
         | (if ?c then _ else _) = _ =>
             destruct c;
             [injection H as <-; simpl;
              split; [intros w' r Hs; discriminate Hs | auto] |]
         end.
  destruct (call_sampler _ _ _ _ _ _ _ _ _ _ _)
    as [[[[w1 r1] dzArc] aux] |]; [| discriminate].
  injection H as <-. simpl. split.
  - intros w' r Hs. injection Hs as <- <-.
    split; [reflexivity |]. split; [reflexivity |]. now exists dzArc, aux.
  - discriminate.
Qed.

End Drivers.

Lemma do_estimation_refuses_any_case_Arc_witness :
  exists out,
    do_estimation (E := Linked.example_engine) capital_ARC_config
      Examples.friendly_env = Some out
    /\ est_return out = (-1)%Z
    /\ est_ee out = None
    /\ est_stderr out <> [].
Proof.
  apply (do_estimation_refuses_any_case_Arc (E := Linked.example_engine)
           capital_ARC_config Examples.friendly_env "ARC"%string).
  - reflexivity.
  - simpl. auto.
  - reflexivity.
Defined.

Lemma do_estimation_returns_witness :
  (est_return
     {| est_return := 0; est_stderr := [];
        est_ee := Some Examples.degenerate_ee_outcome |} = 0%Z
   /\ est_stderr
        {| est_return := 0; est_stderr := [];
           est_ee := Some Examples.degenerate_ee_outcome |} = []
   /\ exists eo,
        est_ee
          {| est_return := 0; est_stderr := [];
             est_ee := Some Examples.degenerate_ee_outcome |} = Some eo)
  \/ (est_return
        {| est_return := 0; est_stderr := [];
           est_ee := Some Examples.degenerate_ee_outcome |} = (-1)%Z
      /\ List.length
           (est_stderr
              {| est_return := 0; est_stderr := [];
                 est_ee := Some Examples.degenerate_ee_outcome |}) = 1
      /\ est_ee
           {| est_return := 0; est_stderr := [];
              est_ee := Some Examples.degenerate_ee_outcome |} = None).
Proof.
  exact (do_estimation_returns (E := Linked.example_engine)
           Examples.degenerate_config Examples.friendly_env _
           do_estimation_degenerate_example).
Defined.


Lemma conditional_estimation_needs_zones_witness :
  (exists out,
     do_estimation (E := Linked.example_engine) conditional_without_zones
       Examples.friendly_env = Some out
     /\ est_return out = (-1)%Z /\ est_ee out = None)
  /\ (exists out,
        do_simulation (E := Linked.example_engine)
          sim_conditional_without_zones Examples.friendly_env = Some out
        /\ sim_return out = (-1)%Z /\ sim_sampled out = None).
Proof.
  destruct (conditional_estimation_needs_zones (E := Linked.example_engine)
              Examples.friendly_env) as [Hest Hsim].
  split.
  - apply Hest; [reflexivity | left; reflexivity].
  - apply Hsim; [reflexivity | left; reflexivity].
Defined.

(** The simulation of [Examples.arc_with_IFD_config]: two proposals of the
    IFD sampler on the empty graph, both accepted and performed. *)
Lemma do_simulation_samples_at_zero_theta_witness :
  exists out w' r,
    do_simulation (E := Linked.unit_engine) Examples.arc_with_IFD_config
      Examples.friendly_env = Some out
    /\ sim_sampled out = Some (w', r)
    /\ acceptance_rate r = 1%float
    /\ sim_return out = 0%Z
    /\ sim_stderr out = []
    /\ exists dzArc aux,
         call_sampler (E := Linked.unit_engine) true 0x1p-3%float false false
           true 1 2 (loaded_world Examples.friendly_env) (zeros 1)
           0%float 0%float
         = Some (w', r, dzArc, aux).
Proof.
  destruct (do_simulation (E := Linked.unit_engine)
              Examples.arc_with_IFD_config Examples.friendly_env)
    as [out |] eqn:H; [| vm_compute in H; discriminate H].
  destruct (sim_sampled out) as [[w' r] |] eqn:Hs.
  - exists out, w', r. split; [reflexivity |]. split; [exact Hs |].
    split.
    + pose proof H as Hc. vm_compute in Hc. injection Hc as Hc.
      rewrite <- Hc in Hs. vm_compute in Hs. injection Hs as _ Hr.
      rewrite <- Hr. reflexivity.
    + destruct (do_simulation_samples_at_zero_theta
                  (E := Linked.unit_engine) Examples.arc_with_IFD_config
                  Examples.friendly_env out H) as [Hsampled _].
      exact (Hsampled w' r Hs).
  - exfalso. pose proof H as Hc. vm_compute in Hc. injection Hc as Hc.
    rewrite <- Hc in Hs. vm_compute in Hs. discriminate Hs.
Defined.

End DriverFacts.

(* ----------------------------------------------------------------- *)
(** ** The IFD sampler: what a call returns *)

Module IFDCalls.

Import Digraph IFD DigraphFacts IFDFacts IFDGraph IFDKind IFDAux Linked
  Examples IFDExamples.

Section Calls.

Context {CS : ChangeStats}.

Variables (uc fr ce al : bool).

Local Abbreviation count := (eligible_count uc ce).
Local Abbreviation remove := (regime_removeArc uc ce).
Local Abbreviation insert := (regime_insertArc uc ce).

(** One performed proposal keeps the counter of the regime's list, less one
    when the next move is a delete move, where it was: [k] below. *)
Lemma ifd_step_density (n : nat) (theta : list float) (pm : bool)
  (aux : float) (st st1 : sampler_state) (loc loc1 : locals) (d : draw)
  (o : outcome) (k : Z) :
  ifd_iteration n theta pm aux uc fr ce al st loc d = Some (st1, loc1, o) ->
  o_performMove o = true ->
  (0 <= k)%Z ->
  Z.of_nat (count (ss_graph st)) = (k + Z.b2z (ss_isDelete st))%Z ->
  Z.of_nat (count (ss_graph st1)) = (k + Z.b2z (ss_isDelete st1))%Z.
Proof.
  intros H Hpm Hk Hc.
  destruct (ifd_iteration_inv _ _ _ _ _ _ _ _ _ _ _ _ _ _ H)
    as [arcidx [Hpick [Hg [Hflag [Hkind [_ [_ [_ Hpm']]]]]]]].
  rewrite Hpm in Hpm'. subst pm. rewrite andb_true_r in Hg.
  destruct Hkind as [[Hk1 _] | [Hcit [Hd [Hz _]]]].
  - rewrite Hg, Hflag. rewrite <- Hk1 in Hc.
    destruct (o_isDelete o) eqn:Hdel; simpl in *.
    + destruct (pick_arc_inv _ _ _ _ (Hpick eq_refl)) as [Hlt _].
      destruct (o_accepted o); simpl;
        rewrite ?regime_insertArc_count_succ, regime_removeArc_count_pred;
        lia.
    + destruct (o_accepted o); simpl;
        rewrite ?regime_insertArc_count_succ; lia.
  - exfalso. unfold citation_regime in Hcit. unfold eligible_count in Hc.
    destruct uc; [discriminate |]. destruct ce; [| discriminate].
    rewrite Hd, Hz in Hc. simpl in Hc. lia.
Qed.

Lemma ifd_run_density (st st' : sampler_state) (trace : list outcome)
  (k : Z) :
  ifd_run uc fr ce al st trace st' ->
  Forall (fun o => o_performMove o = true) trace ->
  (0 <= k)%Z ->
  Z.of_nat (count (ss_graph st)) = (k + Z.b2z (ss_isDelete st))%Z ->
  Z.of_nat (count (ss_graph st')) = (k + Z.b2z (ss_isDelete st'))%Z.
Proof.
  intros H.
  induction H as [st | n theta pm aux st st1 st2 loc loc1 d o os Hi Hr IH];
    intros Hpm Hk Hc; [exact Hc |].
  inversion Hpm; subst.
  apply IH; auto. eapply ifd_step_density; eauto.
Qed.

(** Whatever a proposal does to the counter of the regime's list it does to
    [num_arcs], as long as the list does not claim more arcs than there
    are. *)
Lemma ifd_step_num_arcs_follow (n : nat) (theta : list float) (pm : bool)
  (aux : float) (st st1 : sampler_state) (loc loc1 : locals) (d : draw)
  (o : outcome) :
  ifd_iteration n theta pm aux uc fr ce al st loc d = Some (st1, loc1, o) ->
  count (ss_graph st) <= num_arcs (ss_graph st) ->
  count (ss_graph st1) <= num_arcs (ss_graph st1)
  /\ (Z.of_nat (num_arcs (ss_graph st1)) - Z.of_nat (count (ss_graph st1))
      = Z.of_nat (num_arcs (ss_graph st)) - Z.of_nat (count (ss_graph st)))%Z.
Proof.
  intros H Hle.
  destruct (ifd_iteration_inv _ _ _ _ _ _ _ _ _ _ _ _ _ _ H)
    as [arcidx [Hpick [Hg _]]].
  rewrite Hg.
  destruct (o_isDelete o) eqn:Hdel.
  - destruct (pick_arc_inv _ _ _ _ (Hpick eq_refl)) as [Hlt _].
    destruct (o_accepted o && pm);
      rewrite ?regime_insertArc_count_succ, ?regime_insertArc_num_arcs,
        regime_removeArc_count_pred, regime_removeArc_num_arcs; lia.
  - destruct (o_accepted o && pm);
      rewrite ?regime_insertArc_count_succ, ?regime_insertArc_num_arcs; lia.
Qed.

Lemma ifd_run_num_arcs_follow (st st' : sampler_state)
  (trace : list outcome) :
  ifd_run uc fr ce al st trace st' ->
  count (ss_graph st) <= num_arcs (ss_graph st) ->
  count (ss_graph st') <= num_arcs (ss_graph st')
  /\ (Z.of_nat (num_arcs (ss_graph st')) - Z.of_nat (count (ss_graph st'))
      = Z.of_nat (num_arcs (ss_graph st)) - Z.of_nat (count (ss_graph st)))%Z.
Proof.
  intros H.
  induction H as [st | n theta pm aux st st1 st2 loc loc1 d o os Hi Hr IH];
    intros Hle; [split; [exact Hle | reflexivity] |].
  destruct (ifd_step_num_arcs_follow _ _ _ _ _ _ _ _ _ _ Hi Hle)
    as [Hle1 Heq1].
  destruct (IH Hle1) as [Hle2 Heq2]. split; [exact Hle2 | lia].
Qed.

(** X14: the density stays fixed.  Over any run of proposals that are made
    with [performMove] (one call or several, as in Algorithm EE), in every
    regime, the number of arcs in the list the regime samples from ends
    within one of where it started.  Outside the citation regime it is
    exactly conserved once the pending delete move is counted: the number
    of arcs minus one if the next move is a delete move.  [num_arcs]
    moves in step with that list. *)
Theorem ifd_run_fixed_density (st st' : sampler_state)
  (trace : list outcome) :
  ifd_run uc fr ce al st trace st' ->
  Forall (fun o => o_performMove o = true) trace ->
  let c := Z.of_nat (count (ss_graph st)) in
  let c' := Z.of_nat (count (ss_graph st')) in
  (-1 <= c' - c <= 1)%Z
  /\ (citation_regime uc ce = false ->
      (c' - Z.b2z (ss_isDelete st') = c - Z.b2z (ss_isDelete st))%Z)
  /\ (count (ss_graph st) <= num_arcs (ss_graph st) ->
      (Z.of_nat (num_arcs (ss_graph st'))
       - Z.of_nat (num_arcs (ss_graph st)) = c' - c)%Z).
Proof.
  intros Hrun Hpm. cbv zeta.
  assert (Hthird : count (ss_graph st) <= num_arcs (ss_graph st) ->
            (Z.of_nat (num_arcs (ss_graph st'))
             - Z.of_nat (num_arcs (ss_graph st))
             = Z.of_nat (count (ss_graph st'))
               - Z.of_nat (count (ss_graph st)))%Z).
  { intros Hle. destruct (ifd_run_num_arcs_follow _ _ _ Hrun Hle). lia. }
  destruct (Z_le_gt_dec (Z.b2z (ss_isDelete st))
              (Z.of_nat (count (ss_graph st)))) as [Hge | Hlt].
  - (* no delete move is pending on an empty list *)
    pose proof (ifd_run_density st st' trace
                  (Z.of_nat (count (ss_graph st)) - Z.b2z (ss_isDelete st))
                  Hrun Hpm ltac:(lia) ltac:(lia)) as Hc.
    split; [| split; [intros _; lia | exact Hthird]].
    destruct (ss_isDelete st), (ss_isDelete st'); simpl in *; lia.
  - (* a delete move is pending and the list is empty *)
    assert (Hd : ss_isDelete st = true)
      by (destruct (ss_isDelete st); [reflexivity | simpl in Hlt; lia]).
    assert (Hz : count (ss_graph st) = 0)
      by (rewrite Hd in Hlt; simpl in Hlt; lia).
    inversion Hrun
      as [| n theta pm aux s0 st1 s2 loc loc1 d o os Hi Hrest]; subst.
    + rewrite Hd, Hz. simpl. repeat split; lia.
    + inversion Hpm as [| o' os' Hpm1 Hpm2]; subst.
      destruct (ifd_iteration_inv _ _ _ _ _ _ _ _ _ _ _ _ _ _ Hi)
        as [arcidx [Hpick [Hg [Hflag [Hkind [_ [_ [_ Hpm']]]]]]]].
      destruct Hkind as [[Hk1 _] | [Hcit [_ [_ [Hadd _]]]]].
      * exfalso. rewrite Hd in Hk1.
        destruct (pick_arc_inv _ _ _ _ (Hpick Hk1)) as [Habs _]. lia.
      * assert (H1 : Z.of_nat (count (ss_graph st1))
                     = (0 + Z.b2z (ss_isDelete st1))%Z).
        { rewrite Hg, Hflag, Hadd. rewrite Hpm1 in Hpm'. subst pm.
          rewrite andb_true_r. simpl.
          destruct (o_accepted o); simpl;
            rewrite ?regime_insertArc_count_succ; lia. }
        pose proof (ifd_run_density st1 st' os 0%Z Hrest Hpm2
                      ltac:(lia) H1) as Hc.
        split; [| split; [intros Hn; congruence | exact Hthird]].
        rewrite Hz. destruct (ss_isDelete st'); simpl in *; lia.
Qed.

(** A rejected proposal leaves the two arrays of sums alone. *)
Lemma ifd_iteration_rejected_sums (n : nat) (theta : list float)
  (pm : bool) (aux : float) (st st1 : sampler_state) (loc loc1 : locals)
  (d : draw) (o : outcome) :
  ifd_iteration n theta pm aux uc fr ce al st loc d = Some (st1, loc1, o) ->
  o_accepted o = false ->
  addStats loc1 = addStats loc /\ delStats loc1 = delStats loc.
Proof.
  unfold ifd_iteration. intros H Hrej.
  destruct (ifd_propose uc fr ce al st d) as [[[[st0 i] j] arcidx] |];
    [| discriminate].
  destruct (calcChangeStats _ _ _ _ _ _) as [total0 changestats].
  destruct (d_u d <? exp _)%float; injection H as <- <- <-;
    [discriminate Hrej | split; reflexivity].
Qed.

(** The two arrays of sums keep their length [n]. *)
Lemma ifd_iteration_sums_length (n : nat) (theta : list float)
  (pm : bool) (aux : float) (st st1 : sampler_state) (loc loc1 : locals)
  (d : draw) (o : outcome) :
  ifd_iteration n theta pm aux uc fr ce al st loc d = Some (st1, loc1, o) ->
  List.length (addStats loc) = n -> List.length (delStats loc) = n ->
  List.length (addStats loc1) = n /\ List.length (delStats loc1) = n.
Proof.
  unfold ifd_iteration. intros H Ha Hd.
  destruct (ifd_propose uc fr ce al st d) as [[[[st0 i] j] arcidx] |];
    [| discriminate].
  destruct (calcChangeStats _ _ _ _ _ _) as [total0 changestats].
  destruct (d_u d <? exp _)%float; injection H as <- <- <-; simpl;
    [| auto].
  destruct (ss_isDelete st0); unfold accumulate;
    rewrite ?tabulate_length; auto.
Qed.

Variables (n : nat) (theta : list float) (pm : bool) (aux : float).

(** The loop counts the proposals it accepts. *)
Lemma ifd_loop_accepted (draws : list draw) (st st' : sampler_state)
  (loc loc' : locals) (trace : list outcome) :
  ifd_loop n theta pm aux uc fr ce al draws st loc = Some (st', loc', trace) ->
  accepted loc' = accepted loc + List.length (filter o_accepted trace)
  /\ List.length trace = List.length draws
  /\ (List.length (addStats loc) = n -> List.length (delStats loc) = n ->
      List.length (addStats loc') = n /\ List.length (delStats loc') = n).
Proof.
  revert st loc trace. induction draws as [| d draws IH];
    intros st loc trace H; simpl in H.
  - injection H as <- <- <-. simpl. repeat split; auto.
  - destruct (ifd_iteration _ _ _ _ _ _ _ _ _ _ _) as [[[st1 loc1] o] |] eqn:Hi;
      [| discriminate].
    destruct (ifd_loop _ _ _ _ _ _ _ _ _ _ _) as [[[st2 loc2] os] |] eqn:Hl;
      [| discriminate].
    injection H as <- <- <-.
    destruct (ifd_iteration_inv _ _ _ _ _ _ _ _ _ _ _ _ _ _ Hi)
      as [arcidx [_ [_ [_ [_ [_ [_ [Hacc _]]]]]]]].
    destruct (IH _ _ _ Hl) as [H1 [H2 H3]].
    split; [| split].
    + rewrite H1, Hacc. simpl. destruct (o_accepted o); simpl; lia.
    + simpl. now rewrite H2.
    + intros Ha Hd.
      destruct (ifd_iteration_sums_length _ _ _ _ _ _ _ _ _ _ Hi Ha Hd).
      apply H3; assumption.
Qed.

(** X15: what a call returns as its acceptance rate is the number of
    proposals it accepted over [sampler_m]; it made [sampler_m] proposals,
    and both arrays of sums have [n] entries. *)
Theorem ifdSampler_acceptance_rate (st : sampler_state) (sampler_m : nat)
  (K : float) (rng : nat -> draw) (r : ifd_return) :
  ifdSampler n theta pm aux uc fr ce al st sampler_m K rng = Some r ->
  let acc := List.length (filter o_accepted (ret_trace r)) in
  ret_acceptance_rate r = (of_uint acc / of_uint sampler_m)%float
  /\ acc <= sampler_m
  /\ List.length (ret_trace r) = sampler_m
  /\ List.length (ret_addChangeStats r) = n
  /\ List.length (ret_delChangeStats r) = n.
Proof.
  unfold ifdSampler. intros H.
  destruct (ifd_loop _ _ _ _ _ _ _ _ _ _ _) as [[[st1 loc] trace] |] eqn:Hl;
    [| discriminate].
  injection H as <-. cbv zeta. simpl.
  destruct (ifd_loop_accepted _ _ _ _ _ _ Hl) as [Hacc [Hlen Hsums]].
  rewrite length_map, length_seq in Hlen. simpl in Hacc.
  destruct Hsums as [Ha Hd];
    [unfold zeros; apply tabulate_length
    | unfold zeros; apply tabulate_length |].
  rewrite Hacc. repeat split; auto.
  rewrite <- Hlen. apply filter_length_le.
Qed.

(** Rejected proposals only: the loop leaves the same graph, the sums and
    the counter of accepted moves as they were, and outside the citation
    regime the kind of move. *)
Lemma ifd_loop_all_rejected (draws : list draw) (st st' : sampler_state)
  (loc loc' : locals) (trace : list outcome) :
  regime_invariant uc ce (ss_graph st) ->
  ifd_loop n theta pm aux uc fr ce al draws st loc = Some (st', loc', trace) ->
  Forall (fun o => o_accepted o = false) trace ->
  same_graph (ss_graph st') (ss_graph st)
  /\ addStats loc' = addStats loc /\ delStats loc' = delStats loc
  /\ accepted loc' = accepted loc
  /\ (citation_regime uc ce = false -> ss_isDelete st' = ss_isDelete st).
Proof.
  revert st loc trace. induction draws as [| d draws IH];
    intros st loc trace Hinv H Hrej; simpl in H.
  - injection H as <- <- <-.
    split; [apply same_graph_refl | repeat split; auto].
  - destruct (ifd_iteration _ _ _ _ _ _ _ _ _ _ _) as [[[st1 loc1] o] |] eqn:Hi;
      [| discriminate].
    destruct (ifd_loop _ _ _ _ _ _ _ _ _ _ _) as [[[st2 loc2] os] |] eqn:Hl;
      [| discriminate].
    injection H as <- <- <-.
    inversion Hrej as [| o' os' Hrej1 Hrej2]; subst.
    destruct (ifd_iteration_inv _ _ _ _ _ _ _ _ _ _ _ _ _ _ Hi)
      as [arcidx [Hpick [Hg [Hflag [Hkind [_ [_ [Hacc _]]]]]]]].
    destruct (ifd_iteration_rejected_sums _ _ _ _ _ _ _ _ _ _ Hi Hrej1)
      as [Ha Hd].
    rewrite Hrej1 in Hg, Hflag, Hacc. simpl in Hg.
    assert (Hs1 : same_graph (ss_graph st1) (ss_graph st)).
    { rewrite Hg. destruct (o_isDelete o).
      - apply regime_remove_insert_same; auto.
      - apply same_graph_refl. }
    assert (Hinv1 : regime_invariant uc ce (ss_graph st1)).
    { eapply regime_invariant_same; [| exact Hinv]. now apply same_graph_sym. }
    destruct (IH _ _ _ Hinv1 Hl Hrej2) as [Hs2 [Ha2 [Hd2 [Hacc2 Hk2]]]].
    split; [eapply same_graph_trans; eassumption |].
    split; [congruence |]. split; [congruence |]. split; [congruence |].
    intros Hcit. rewrite (Hk2 Hcit), Hflag, xorb_false_r.
    destruct Hkind as [[Hk _] | [Hc _]]; congruence.
Qed.

(** X16: a call in which every proposal is rejected, on a graph that
    satisfies the invariants of the store, has no effect beyond its
    counters: it returns with the same graph (the arc of a delete move was
    removed and put back), with both arrays of sums all zero and an
    acceptance rate of [0 / sampler_m], and outside the citation regime
    with the kind of move it started with, whether or not [performMove] is
    set. *)
Theorem ifdSampler_all_rejected (st : sampler_state) (sampler_m : nat)
  (K : float) (rng : nat -> draw) (r : ifd_return) :
  regime_invariant uc ce (ss_graph st) ->
  ifdSampler n theta pm aux uc fr ce al st sampler_m K rng = Some r ->
  Forall (fun o => o_accepted o = false) (ret_trace r) ->
  same_graph (ss_graph (ret_state r)) (ss_graph st)
  /\ ret_addChangeStats r = zeros n
  /\ ret_delChangeStats r = zeros n
  /\ ret_acceptance_rate r = (of_uint 0 / of_uint sampler_m)%float
  /\ (citation_regime uc ce = false ->
      ss_isDelete (ret_state r) = ss_isDelete st).
Proof.
  unfold ifdSampler. intros Hinv H.
  destruct (ifd_loop _ _ _ _ _ _ _ _ _ _ _) as [[[st1 loc] trace] |] eqn:Hl;
    [| discriminate].
  injection H as <-. simpl. intros Hrej.
  destruct (ifd_loop_all_rejected _ _ _ _ _ _ Hinv Hl Hrej)
    as [Hs [Ha [Hd [Hacc Hk]]]].
  simpl in Ha, Hd, Hacc. rewrite Ha, Hd, Hacc. auto.
Qed.

(** The loop keeps the invariants of the store when its add moves propose
    pairs that are not arcs. *)
Lemma ifd_loop_invariant (draws : list draw) (st st' : sampler_state)
  (loc loc' : locals) (trace : list outcome) :
  ifd_loop n theta pm aux uc fr ce al draws st loc = Some (st', loc', trace) ->
  regime_invariant uc ce (ss_graph st) ->
  add_draws_fresh n theta pm aux uc fr ce al draws st loc = true ->
  regime_invariant uc ce (ss_graph st').
Proof.
  revert st loc trace. induction draws as [| d draws IH];
    intros st loc trace H Hinv Hfresh; simpl in H, Hfresh.
  - now injection H as <- <- <-.
  - destruct (ifd_iteration _ _ _ _ _ _ _ _ _ _ _) as [[[st1 loc1] o] |] eqn:Hi;
      [| discriminate].
    destruct (ifd_loop _ _ _ _ _ _ _ _ _ _ _) as [[[st2 loc2] os] |] eqn:Hl;
      [| discriminate].
    injection H as <- <- <-.
    apply andb_true_iff in Hfresh. destruct Hfresh as [Hd Hrest].
    apply (IH st1 loc1 os Hl); [| exact Hrest].
    apply (ifd_iteration_invariant n theta pm aux uc fr ce al
             st st1 loc loc1 d o Hi Hinv).
    intros Hadd _. rewrite Hadd in Hd. simpl in Hd.
    now apply negb_true_iff.
Qed.

(** X26: a call keeps the invariants of the store that its regime relies
    on: every neighbour listed once, the reverse lists the transpose of the
    forward lists, [allarcs] and the list the regime's delete moves pick
    from holding arcs of the graph, each once, and their counters equal to
    their lengths.  This holds whether or not moves are performed, whatever
    is accepted, as long as every add move proposes a pair that is not an
    arc at that time, which the resampling loops of the add moves ensure. *)
Theorem ifdSampler_keeps_invariant (st : sampler_state) (sampler_m : nat)
  (K : float) (rng : nat -> draw) (r : ifd_return) :
  regime_invariant uc ce (ss_graph st) ->
  ifdSampler n theta pm aux uc fr ce al st sampler_m K rng = Some r ->
  add_draws_fresh n theta pm aux uc fr ce al (map rng (seq 0 sampler_m)) st
    (locals_initial n) = true ->
  regime_invariant uc ce (ss_graph (ret_state r)).
Proof.
  unfold ifdSampler. intros Hinv H Hfresh.
  destruct (ifd_loop _ _ _ _ _ _ _ _ _ _ _) as [[[st1 loc] trace] |] eqn:Hl;
    [| discriminate].
  injection H as <-. simpl.
  exact (ifd_loop_invariant _ _ _ _ _ _ Hl Hinv Hfresh).
Qed.

(** X17: a call with [sampler_m = 0] makes no proposal: it returns at once
    with the state it was given (graph, kind of move, [stderr]), zero sums,
    [dzArc = 0] and the auxiliary parameter unchanged (the step [0/0] is
    not applied, and the imbalance test on [0/0] writes no warning); the
    acceptance rate it returns is [0/0], not a number. *)
Theorem ifdSampler_without_proposals (st : sampler_state) (K : float)
  (rng : nat -> draw) :
  ifdSampler n theta pm aux uc fr ce al st 0 K rng
  = Some {| ret_state := st;
            ret_acceptance_rate := nan;
            ret_addChangeStats := zeros n;
            ret_delChangeStats := zeros n;
            ret_dzArc := 0%float;
            ret_ifd_aux_param := aux;
            ret_Ndel := 0%Z;
            ret_Nadd := 0%Z;
            ret_trace := [] |}.
Proof.
  destruct st as [g b e].
  unfold ifdSampler, ifd_aux_param_update, ifd_aux_param_step. simpl.
  change (CInt.sub 0 0) with 0%Z. change (CInt.add 0 0) with 0%Z.
  change (CInt.abs 0) with 0%Z. simpl.
  reflexivity.
Qed.

End Calls.

End IFDCalls.

(* ----------------------------------------------------------------- *)
(** ** Worked calls of the IFD sampler *)

Module IFDCallExamples.

Import Digraph IFD DigraphFacts IFDFacts IFDGraph IFDKind IFDAux Linked
  Examples IFDExamples IFDCalls.

Lemma ifd_run_fixed_density_witness :
  let c := Z.of_nat (eligible_count false false (ss_graph round_start)) in
  let c' := Z.of_nat (eligible_count false false (ss_graph round_state3)) in
  (-1 <= c' - c <= 1)%Z
  /\ (citation_regime false false = false ->
      (c' - Z.b2z (ss_isDelete round_state3)
       = c - Z.b2z (ss_isDelete round_start))%Z)
  /\ (eligible_count false false (ss_graph round_start)
      <= num_arcs (ss_graph round_start) ->
      (Z.of_nat (num_arcs (ss_graph round_state3))
       - Z.of_nat (num_arcs (ss_graph round_start)) = c' - c)%Z).
Proof.
  refine (ifd_run_fixed_density (CS := zero_stats) false false false false
            round_start round_state3 _ round_run _).
  repeat constructor.
Defined.

(** The call of two proposals on the graph with one arc, without
    [performMove], in which both proposals are accepted. *)
Lemma ifdSampler_acceptance_rate_witness :
  exists r,
    ifdSampler (CS := unit_stats) 1 [0%float] false 0 false false false false
      (fst one_arc_world) 2 0x1p-3 (fun _ => example_draw) = Some r
    /\ (let acc := List.length (filter o_accepted (ret_trace r)) in
        ret_acceptance_rate r = (of_uint acc / of_uint 2)%float
        /\ acc <= 2
        /\ List.length (ret_trace r) = 2
        /\ List.length (ret_addChangeStats r) = 1
        /\ List.length (ret_delChangeStats r) = 1).
Proof.
  destruct (ifdSampler (CS := unit_stats) 1 [0%float] false 0 false false
              false false (fst one_arc_world) 2 0x1p-3
              (fun _ => example_draw)) as [r |] eqn:H.
  - exists r. split; [reflexivity |].
    exact (ifdSampler_acceptance_rate (CS := unit_stats)
             false false false false 1 [0%float] false 0
             (fst one_arc_world) 2 0x1p-3 (fun _ => example_draw) r H).
  - vm_compute in H. discriminate H.
Defined.

(** A call of three proposals on the graph with one arc, without
    [performMove]: two add moves and one delete move, all accepted, so that
    the auxiliary parameter goes up. *)
Lemma ifdSampler_aux_param_witness :
  exists r,
    ifdSampler (CS := unit_stats) 1 [0%float] false 0 false false false false
      (fst one_arc_world) 3 0x1p-3 (fun _ => example_draw) = Some r
    /\ count_kind true (ret_trace r) = 1
    /\ count_kind false (ret_trace r) = 2
    /\ (let nd := Z.of_nat (count_kind true (ret_trace r)) in
        let na := Z.of_nat (count_kind false (ret_trace r)) in
        let step :=
          (0x1p-3 * of_int (nd - na) * of_int (nd - na)
           / of_int ((nd + na) * (nd + na)))%float in
        (nd + na = Z.of_nat 3)%Z
        /\ ret_ifd_aux_param r
           = (if (nd >? na)%Z then (0 - step)%float
              else if (nd <? na)%Z then (0 + step)%float
              else 0%float)
        /\ ret_dzArc r = (of_int nd - of_int na)%float).
Proof.
  destruct (ifdSampler (CS := unit_stats) 1 [0%float] false 0 false false
              false false (fst one_arc_world) 3 0x1p-3
              (fun _ => example_draw)) as [r |] eqn:H;
    [| vm_compute in H; discriminate H].
  pose proof H as Hc. vm_compute in Hc. injection Hc as Hc.
  exists r. split; [reflexivity |].
  split; [rewrite <- Hc; reflexivity |].
  split; [rewrite <- Hc; reflexivity |].
  refine (ifdSampler_aux_param (CS := unit_stats) 1 [0%float] false 0
            false false false false (fst one_arc_world) 3 0x1p-3
            (fun _ => example_draw) r H _).
  vm_compute. discriminate.
Defined.

(** Three delete moves on the graph with one arc, all rejected: with a unit
    change statistic and [theta_0 = +inf] the acceptance probability is
    [exp(-inf) = 0].  Each of them removes the arc [1 -> 0] and puts it
    back. *)
Lemma ifdSampler_all_rejected_witness :
  exists r,
    ifdSampler (CS := unit_stats) 1 [infinity] true 0 false false false
      false
      {| ss_graph := one_arc_graph; ss_isDelete := true; ss_stderr := [] |}
      3 0x1p-3 (fun _ => example_draw) = Some r
    /\ map o_isDelete (ret_trace r) = [true; true; true]
    /\ same_graph (ss_graph (ret_state r)) one_arc_graph
    /\ ret_addChangeStats r = zeros 1
    /\ ret_delChangeStats r = zeros 1
    /\ ret_acceptance_rate r = (of_uint 0 / of_uint 3)%float
    /\ (citation_regime false false = false ->
        ss_isDelete (ret_state r) = true).
Proof.
  destruct (ifdSampler (CS := unit_stats) 1 [infinity] true 0 false
              false false false
              {| ss_graph := one_arc_graph; ss_isDelete := true;
                 ss_stderr := [] |}
              3 0x1p-3 (fun _ => example_draw)) as [r |] eqn:H;
    [| vm_compute in H; discriminate H].
  pose proof H as Hc. vm_compute in Hc. injection Hc as Hc.
  exists r. split; [reflexivity |].
  split; [rewrite <- Hc; reflexivity |].
  refine (ifdSampler_all_rejected (CS := unit_stats)
            false false false false 1 [infinity] true 0
            {| ss_graph := one_arc_graph; ss_isDelete := true;
               ss_stderr := [] |}
            3 0x1p-3 (fun _ => example_draw) r
            one_arc_graph_invariant H _).
  rewrite <- Hc. repeat constructor.
Defined.

(** A call of two proposals with [performMove] on the graph with the arc
    [1 -> 0]: the add move [0 -> 1] and the delete move of [1 -> 0], both
    accepted and performed. *)
Lemma ifdSampler_keeps_invariant_witness :
  exists r,
    ifdSampler (CS := unit_stats) 1 [0%float] true 0 false false false false
      (fst one_arc_world) 2 0x1p-3 (fun _ => example_draw) = Some r
    /\ map o_accepted (ret_trace r) = [true; true]
    /\ allarcs (ss_graph (ret_state r)) = [(0, 1)]
    /\ regime_invariant false false (ss_graph (ret_state r)).
Proof.
  destruct (ifdSampler (CS := unit_stats) 1 [0%float] true 0 false false
              false false (fst one_arc_world) 2 0x1p-3
              (fun _ => example_draw)) as [r |] eqn:H;
    [| vm_compute in H; discriminate H].
  pose proof H as Hc. vm_compute in Hc. injection Hc as Hc.
  exists r. split; [reflexivity |].
  split; [rewrite <- Hc; reflexivity |].
  split; [rewrite <- Hc; reflexivity |].
  refine (ifdSampler_keeps_invariant (CS := unit_stats)
            false false false false 1 [0%float] true 0
            (fst one_arc_world) 2 0x1p-3 (fun _ => example_draw) r
            one_arc_graph_invariant H _).
  vm_compute. reflexivity.
Defined.

(** A call of Algorithm S and then a call of Algorithm EE on the graph with
    one arc: two proposals without [performMove], two with it. *)
Lemma ifdSampler_successive_calls_witness :
  exists r1 r2 st2,
    ifdSampler (CS := unit_stats) 1 [0%float] false 0 false false false false
      (fst one_arc_world) 2 0x1p-3 (fun _ => example_draw) = Some r1
    /\ ifdSampler (CS := unit_stats) 1 [0%float] true 0 false false false
         false (ret_state r1) 2 0x1p-3 (fun _ => example_draw) = Some r2
    /\ ifd_run (CS := unit_stats) false false false false
         (fst one_arc_world) (ret_trace r1 ++ ret_trace r2) st2
    /\ ss_isDelete (ret_state r2) = ss_isDelete st2
    /\ ss_graph (ret_state r2) = ss_graph st2.
Proof.
  destruct (ifdSampler (CS := unit_stats) 1 [0%float] false 0 false false
              false false (fst one_arc_world) 2 0x1p-3
              (fun _ => example_draw)) as [r1 |] eqn:H1;
    [| vm_compute in H1; discriminate H1].
  destruct (ifdSampler (CS := unit_stats) 1 [0%float] true 0 false false
              false false (ret_state r1) 2 0x1p-3
              (fun _ => example_draw)) as [r2 |] eqn:H2.
  - destruct (ifdSampler_successive_calls (CS := unit_stats)
                false false false false 1 1 [0%float] [0%float] false true
                0 0 (fst one_arc_world) 2 2 0x1p-3 0x1p-3
                (fun _ => example_draw) (fun _ => example_draw) r1 r2 H1 H2)
      as [st2 Hst2].
    exists r1, r2, st2. auto.
  - exfalso. revert H2. pose proof H1 as H1'. vm_compute in H1'.
    injection H1' as <-. vm_compute. discriminate.
Defined.

End IFDCallExamples.

(* ----------------------------------------------------------------- *)
(** ** Change statistics for undirected graphs *)

Module UndirectedFacts.

Import Undirected.

Section Statistics.

Context {ST : Store}.

(** X20: when the two ends of an edge differ in degree, the alternating
    k-triangle statistic is the same whichever end is passed as [i]: the
    swap makes both calls scan the neighbours of the same end, and they
    return the very same double, or abort alike.  (With equal degrees there
    is no swap, and nothing is said here about that case.) *)
Theorem changeAltKTriangles_symmetric (g : graph_t) (i j : nat)
  (lambda : float) :
  degree g i <> degree g j ->
  changeAltKTriangles g i j lambda = changeAltKTriangles g j i lambda.
Proof.
  intros Hdeg. unfold changeAltKTriangles.
  destruct (negb (1 <? lambda)%float); [reflexivity |].
  destruct (is_directed g); [reflexivity |].
  rewrite (Nat.eqb_sym j i).
  destruct (Nat.eqb i j); [reflexivity |].
  destruct (Nat.ltb_spec (degree g i) (degree g j)),
           (Nat.ltb_spec (degree g j) (degree g i));
    try lia; reflexivity.
Qed.

(** X21: on an undirected graph whose binary attribute [a] is 0, 1 or
    missing at both ends, [changeActivity] is the number of ends that have
    the attribute, a missing value counting as not having it; it is the
    same for [j -- i] and does not look at [isDelete]. *)
Theorem changeActivity_counts_ends (g : graph_t) (i j a : nat)
  (isDelete isDelete' : bool) :
  is_directed g = false ->
  binattr g a i = BIN_NA \/ binattr g a i = 0%Z \/ binattr g a i = 1%Z ->
  binattr g a j = BIN_NA \/ binattr g a j = 0%Z \/ binattr g a j = 1%Z ->
  changeActivity g i j a isDelete
  = Some (of_int (Z.b2z (binattr g a i =? 1)%Z
                  + Z.b2z (binattr g a j =? 1)%Z))
  /\ changeActivity g j i a isDelete' = changeActivity g i j a isDelete.
Proof.
  intros Hund Hi Hj. unfold changeActivity, activity_of. rewrite Hund.
  split.
  - destruct Hi as [-> | [-> | ->]], Hj as [-> | [-> | ->]]; reflexivity.
  - destruct Hi as [-> | [-> | ->]], Hj as [-> | [-> | ->]]; reflexivity.
Qed.

(** A loop of [changeAltTwoPaths] over neighbours that are all skipped
    adds nothing. *)
Lemma two_paths_loop_skips (g : graph_t) (lambda : float)
  (i j other : nat) (vs : list nat) (delta : float) :
  (forall v, In v vs -> v = i \/ v = j) ->
  two_paths_loop g lambda i j other vs delta = delta.
Proof.
  unfold two_paths_loop. revert delta.
  induction vs as [| v vs IH]; intros delta Hvs; simpl; [reflexivity |].
  assert (Hv : Nat.eqb v i || Nat.eqb v j = true).
  { destruct (Hvs v (or_introl eq_refl)) as [-> | ->];
      rewrite Nat.eqb_refl; [reflexivity | apply orb_true_r]. }
  rewrite Hv. apply IH. intros w Hw. apply Hvs. now right.
Qed.

(** X22: adding an edge creates no two-path when neither end has a
    neighbour besides the two ends themselves: [changeAltTwoPaths] returns
    0 for a self-edge ([i = j], without reading the neighbour arrays at
    all), and for two distinct nodes whose neighbour arrays hold nothing
    but [i] and [j]. *)
Theorem changeAltTwoPaths_without_other_neighbours (g : graph_t)
  (i j : nat) (lambda : float) :
  (1 <? lambda)%float = true ->
  is_directed g = false ->
  i = j
  \/ (degree g i <= List.length (edgelist g i)
      /\ degree g j <= List.length (edgelist g j)
      /\ (forall v, In v (firstn (degree g i) (edgelist g i)) ->
            v = i \/ v = j)
      /\ (forall v, In v (firstn (degree g j) (edgelist g j)) ->
            v = i \/ v = j)) ->
  changeAltTwoPaths g i j lambda = Some 0%float.
Proof.
  intros Hl Hund Hcase. unfold changeAltTwoPaths.
  rewrite Hl, Hund. simpl.
  destruct (Nat.eqb_spec i j) as [Heq | Hne]; [reflexivity |].
  destruct Hcase as [Heq | (Hi & Hj & Hvi & Hvj)]; [contradiction |].
  unfold visited.
  destruct (Nat.leb_spec (degree g j) (List.length (edgelist g j)));
    [| lia].
  destruct (Nat.leb_spec (degree g i) (List.length (edgelist g i)));
    [| lia].
  now rewrite !two_paths_loop_skips.
Qed.

End Statistics.

Lemma changeAltKTriangles_symmetric_witness :
  changeAltKTriangles (ST := example_store) path_graph 0 1 0x1p+1%float
  = changeAltKTriangles (ST := example_store) path_graph 1 0 0x1p+1%float.
Proof.
  apply (changeAltKTriangles_symmetric (ST := example_store) path_graph 0 1).
  simpl. lia.
Defined.

Lemma changeActivity_counts_ends_witness :
  changeActivity path_graph 0 2 0 false
  = Some (of_int (Z.b2z (binattr path_graph 0 0 =? 1)%Z
                  + Z.b2z (binattr path_graph 0 2 =? 1)%Z))
  /\ changeActivity path_graph 2 0 0 true
     = changeActivity path_graph 0 2 0 false.
Proof.
  apply (changeActivity_counts_ends path_graph 0 2 0 false true).
  - reflexivity.
  - right. right. reflexivity.
  - left. reflexivity.
Defined.

Lemma changeAltTwoPaths_without_other_neighbours_witness :
  changeAltTwoPaths (ST := example_store) single_edge_graph 0 1 0x1p+1%float
  = Some 0%float.
Proof.
  apply (changeAltTwoPaths_without_other_neighbours (ST := example_store)
           single_edge_graph 0 1 0x1p+1%float).
  - reflexivity.
  - reflexivity.
  - right. simpl. repeat split; lia.
Defined.

End UndirectedFacts.

(* ----------------------------------------------------------------- *)
(** ** The output files: lines and columns *)

Module OutputFacts.

Import Output.

(** The lines of a loop, through a function [g] of a line, when the lines
    of an iteration depend through [g] on its counter only. *)
Lemma iter_lines_map (A L B : Type) (g : L -> B) (H : nat -> list B)
  (body : A -> option A) (lines : nat -> A -> option (list L)) :
  (forall t a l, lines t a = Some l -> map g l = H t) ->
  forall k t a ls,
    iter_lines k body lines t a = Some ls ->
    map g ls = flat_map H (seq t k).
Proof.
  intros Hg. induction k as [| k IH]; intros t a ls Hk; simpl in Hk.
  - now injection Hk as <-.
  - destruct (lines t a) as [l |] eqn:Hl; [| discriminate].
    destruct (body a) as [a' |]; [| discriminate].
    destruct (iter_lines k body lines (S t) a') as [rest |] eqn:Hr;
      [| discriminate].
    injection Hk as <-. simpl.
    now rewrite map_app, (Hg _ _ _ Hl), (IH _ _ _ Hr).
Qed.

Lemma iter_lines_Forall (A L : Type) (P : L -> Prop)
  (body : A -> option A) (lines : nat -> A -> option (list L)) :
  (forall t a l, lines t a = Some l -> Forall P l) ->
  forall k t a ls,
    iter_lines k body lines t a = Some ls -> Forall P ls.
Proof.
  intros HP. induction k as [| k IH]; intros t a ls Hk; simpl in Hk.
  - injection Hk as <-. constructor.
  - destruct (lines t a) as [l |] eqn:Hl; [| discriminate].
    destruct (body a) as [a' |]; [| discriminate].
    destruct (iter_lines k body lines (S t) a') as [rest |] eqn:Hr;
      [| discriminate].
    injection Hk as <-. apply Forall_app. split; eauto.
Qed.

(** A loop that completes has written its lines, when every iteration that
    finishes has. *)
Lemma iter_lines_some (A L : Type) (body : A -> option A)
  (lines : nat -> A -> option (list L)) :
  (forall t a a', body a = Some a' -> lines t a <> None) ->
  forall k t a b,
    iter_opt k body a = Some b ->
    exists ls, iter_lines k body lines t a = Some ls.
Proof.
  intros Hl. induction k as [| k IH]; intros t a b Hk; simpl in *.
  - now exists [].
  - destruct (body a) as [a' |] eqn:Ha; [| discriminate].
    destruct (lines t a) as [l |] eqn:Hla;
      [| now destruct (Hl t a a' Ha)].
    destruct (IH (S t) a' b Hk) as [rest Hrest]. rewrite Hrest.
    now exists (l ++ rest).
Qed.

Lemma last_app_nonempty (A : Type) (l1 l2 : list A) (d : A) :
  l2 <> [] -> last (l1 ++ l2) d = last l2 d.
Proof.
  intros Hne. induction l1 as [| x l1 IH]; simpl; [reflexivity |].
  rewrite <- IH. destruct (l1 ++ l2) eqn:Happ; [| reflexivity].
  apply app_eq_nil in Happ. now destruct Happ.
Qed.

(** When every iteration writes one line, and that line shows [g] of the
    state the iteration ends in, the last line of a loop shows [g] of the
    state the loop ends in. *)
Lemma iter_lines_last (A L B : Type) (f : L -> B) (g : A -> B)
  (body : A -> option A) (lines : nat -> A -> option (list L)) :
  (forall t a a' l, lines t a = Some l -> body a = Some a' ->
     exists x, l = [x] /\ f x = g a') ->
  forall k t a b ls d,
    iter_opt (S k) body a = Some b ->
    iter_lines (S k) body lines t a = Some ls ->
    f (last ls d) = g b.
Proof.
  intros Hone. induction k as [| k IH]; intros t a b ls d Hloop Hls.
  - simpl in Hloop, Hls.
    destruct (lines t a) as [l |] eqn:Hl; [| discriminate].
    destruct (body a) as [a1 |] eqn:Hb; [| discriminate].
    injection Hloop as <-. injection Hls as <-.
    destruct (Hone _ _ _ _ Hl Hb) as [x [-> Hx]]. exact Hx.
  - change (iter_opt (S (S k)) body a)
      with (match body a with
            | Some a' => iter_opt (S k) body a'
            | None => None
            end) in Hloop.
    change (iter_lines (S (S k)) body lines t a)
      with (match lines t a, body a with
            | Some l, Some a' =>
                match iter_lines (S k) body lines (S t) a' with
                | Some rest => Some (l ++ rest)
                | None => None
                end
            | _, _ => None
            end) in Hls.
    destruct (lines t a) as [l |] eqn:Hl; [| discriminate].
    destruct (body a) as [a1 |] eqn:Hb; [| discriminate].
    destruct (iter_lines (S k) body lines (S t) a1) as [rest |] eqn:Hr;
      [| discriminate].
    injection Hls as <-.
    specialize (IH _ _ _ _ d Hloop Hr).
    destruct rest as [| x rest].
    + exfalso. simpl in Hr.
      destruct (lines (S t) a1) as [l1 |] eqn:Hl1; [| discriminate].
      destruct (body a1) as [a2 |] eqn:Hb1; [| discriminate].
      destruct (Hone _ _ _ _ Hl1 Hb1) as [y [-> _]].
      destruct (iter_lines k _ _ _ _); discriminate.
    + rewrite last_app_nonempty by discriminate. exact IH.
Qed.

Lemma flat_map_singleton (A B : Type) (f : A -> B) (l : list A) :
  flat_map (fun x => [f x]) l = map f l.
Proof. induction l as [| x l IH]; simpl; [reflexivity | now rewrite IH]. Qed.

(** [Mouter] blocks of [Minner] consecutive numbers are the numbers below
    [Mouter * Minner]. *)
Lemma seq_blocks (Minner Mouter touter : nat) :
  flat_map (fun k => seq (k * Minner) Minner) (seq touter Mouter)
  = seq (touter * Minner) (Mouter * Minner).
Proof.
  revert touter. induction Mouter as [| Mouter IH]; intros touter; simpl.
  - reflexivity.
  - rewrite IH, seq_app. do 2 f_equal. lia.
Qed.

Lemma flat_map_all_nil (A B : Type) (f : A -> list B) (l : list A) :
  (forall x, In x l -> f x = []) -> flat_map f l = [].
Proof.
  induction l as [| x l IH]; simpl; intros H; [reflexivity |].
  rewrite (H x (or_introl eq_refl)). apply IH. intros y Hy. apply H. now right.
Qed.

Lemma map_flat_map (A B C : Type) (g : B -> C) (f : A -> list B)
  (l : list A) :
  map g (flat_map f l) = flat_map (fun x => map g (f x)) l.
Proof.
  induction l as [| x l IH]; simpl; [reflexivity |].
  now rewrite map_app, IH.
Qed.

(** A block of lines whose numbers start at [c]. *)
Lemma flat_map_seq_shift (B : Type) (f : nat -> B) (c m : nat) :
  flat_map (fun t => [f (c + t)]) (seq 0 m) = map f (seq c m).
Proof.
  rewrite flat_map_singleton.
  rewrite <- (map_map (fun t => c + t) f). f_equal.
  revert c. induction m as [| m IH]; intros c; simpl; [reflexivity |].
  rewrite Nat.add_0_r. f_equal.
  rewrite <- seq_shift, map_map. rewrite <- (IH (S c)).
  apply map_ext. intros t. lia.
Qed.

(** A block of which only the first iteration writes a line. *)
Lemma flat_map_seq_first (B : Type) (f : nat -> B) (m : nat) :
  flat_map (fun t => if Nat.eqb t 0 then [f t] else []) (seq 0 m)
  = if Nat.eqb m 0 then [] else [f 0].
Proof.
  destruct m as [| m]; simpl; [reflexivity |]. f_equal.
  assert (H : forall k, flat_map
                (fun t => if Nat.eqb t 0 then [f t] else []) (seq 1 k) = []).
  { intros k. apply flat_map_all_nil. intros t Ht.
    apply in_seq in Ht. destruct t; [lia | reflexivity]. }
  apply H.
Qed.

Section Files.

Context {world : Type} {E : Engine world}.

Variables (n sampler_m : nat) (ACA : float).
Variables (useIFD : bool) (K : float) (useCond forbidRecip : bool).
Variable arc_correction_val : float.

Local Abbreviation S_body :=
  (S_iteration n sampler_m ACA useIFD K useCond forbidRecip).
Local Abbreviation S_lines :=
  (S_line n sampler_m ACA useIFD K useCond forbidRecip arc_correction_val).

Lemma S_line_inv (M1 t : nat) (st : @S_state world) (l : list theta_line) :
  S_lines M1 t st = Some l ->
  exists st' ln,
    S_body st = Some st' /\ l = [ln]
    /\ line_t ln = CInt.wrap (Z.of_nat t - Z.of_nat M1)
    /\ line_theta ln = S_theta st'
    /\ (line_arc ln <> None <-> useIFD = true).
Proof.
  unfold S_line. intros H.
  destruct (S_sample _ _ _ _ _ _ _) as [[[[w1 r] dz] aux] |];
    [| discriminate].
  destruct (S_body st) as [st' |]; [| discriminate].
  injection H as <-. do 2 eexists. split; [reflexivity |].
  split; [reflexivity |]. simpl. repeat split; try reflexivity.
  - destruct useIFD; [reflexivity | intros H; now destruct H].
  - intros ->. discriminate.
Qed.

Lemma S_line_some (M1 t : nat) (st st' : @S_state world) :
  S_body st = Some st' -> S_lines M1 t st <> None.
Proof.
  unfold S_line. intros H. rewrite H. revert H. unfold S_iteration.
  destruct (S_sample _ _ _ _ _ _ _) as [[[[w1 r] dz] aux] |]; discriminate.
Qed.

Lemma S_body_theta_length (st st' : @S_state world) :
  S_body st = Some st' -> List.length (S_theta st') = n.
Proof.
  unfold S_iteration.
  destruct (S_sample _ _ _ _ _ _ _) as [[[[w1 r] dz] aux] |];
    [| discriminate].
  intros H. injection H as <-. simpl. apply tabulate_length.
Qed.

Lemma S_lines_shape (M1 k t : nat) (st : @S_state world)
  (ls : list theta_line) :
  iter_lines k S_body (S_lines M1) t st = Some ls ->
  Forall (fun ln => List.length (line_theta ln) = n
                    /\ (line_arc ln <> None <-> useIFD = true)) ls.
Proof.
  apply (iter_lines_Forall _ _ _ S_body (S_lines M1)).
  intros t' a l Hl.
  destruct (S_line_inv _ _ _ _ Hl) as [st' [ln [Hb [-> [_ [Hth Harc]]]]]].
  constructor; [| constructor]. split; [| exact Harc].
  rewrite Hth. eapply S_body_theta_length. exact Hb.
Qed.

(** X23: the theta file of Algorithm S.  When Algorithm S returns after
    [M1] iterations (at most [2^31]), it has written [M1] lines, numbered
    [-M1, ..., -1]; every line holds [n] values of [theta], after the arc
    parameter if and only if the IFD sampler is used; and the last line
    holds the [theta] that Algorithm S returns. *)
Theorem algorithm_S_lines_written (w w' : world) (M1 : nat)
  (theta Dmean : list float) :
  (Z.of_nat M1 <= 2 ^ 31)%Z ->
  algorithm_S w n M1 sampler_m ACA useIFD K useCond forbidRecip
    = Some (w', theta, Dmean) ->
  exists ls,
    algorithm_S_lines n sampler_m ACA useIFD K useCond forbidRecip
      arc_correction_val w M1 = Some ls
    /\ map line_t ls
       = map (fun t => (Z.of_nat t - Z.of_nat M1)%Z) (seq 0 M1)
    /\ Forall (fun ln => List.length (line_theta ln) = n
                         /\ (line_arc ln <> None <-> useIFD = true)) ls
    /\ (0 < M1 -> forall d, line_theta (last ls d) = theta).
Proof.
  intros HM1. unfold algorithm_S, algorithm_S_lines, S_loop.
  destruct (iter_opt M1 S_body (S_init n w)) as [st |] eqn:Hloop;
    [| discriminate].
  intros H. injection H as <- <- <-.
  destruct (iter_lines_some _ _ S_body (S_lines M1)
              (fun t a a' => S_line_some M1 t a a') M1 0 _ _ Hloop)
    as [ls Hls].
  exists ls. split; [exact Hls |]. split; [| split].
  - rewrite (iter_lines_map _ _ _ line_t
               (fun t => [CInt.wrap (Z.of_nat t - Z.of_nat M1)])
               S_body (S_lines M1)) with (k := M1) (t := 0) (a := S_init n w);
      [| | exact Hls].
    + rewrite flat_map_singleton. apply map_ext_in.
      intros t Ht. apply in_seq in Ht. apply IFDAux.wrap_small. lia.
    + intros t a l Hl.
      destruct (S_line_inv _ _ _ _ Hl) as [st' [ln [_ [-> [Ht _]]]]].
      simpl. now rewrite Ht.
  - eapply S_lines_shape. exact Hls.
  - intros Hpos d. destruct M1 as [| k]; [lia |].
    apply (iter_lines_last _ _ _ line_theta (@S_theta world) S_body
             (S_lines (S k))) with (k := k) (t := 0) (a := S_init n w);
      [| exact Hloop | exact Hls].
    intros t a a' l Hl Hb.
    destruct (S_line_inv _ _ _ _ Hl) as [st' [ln [Hb2 [-> [_ [Hth _]]]]]].
    rewrite Hb in Hb2. injection Hb2 as <-. now exists ln.
Qed.

Variables (useBorisenko : bool) (learningRate minTheta : float).
Variable outputAllSteps : bool.
Variables (Minner : nat) (compC : float).

Local Abbreviation inner :=
  (EE_inner n sampler_m ACA useIFD K useCond forbidRecip useBorisenko
     learningRate minTheta).
Local Abbreviation outer :=
  (EE_outer n Minner sampler_m ACA compC useIFD K useCond forbidRecip
     useBorisenko learningRate minTheta).
Local Abbreviation EE_lines :=
  (EE_line n sampler_m ACA useIFD K useCond forbidRecip arc_correction_val
     useBorisenko learningRate minTheta outputAllSteps).
Local Abbreviation outer_lines :=
  (EE_outer_lines n sampler_m ACA useIFD K useCond forbidRecip
     arc_correction_val useBorisenko learningRate minTheta outputAllSteps
     Minner compC).

Local Abbreviation EE_line_shape := (EE_line_shape n useIFD).
Local Abbreviation EE_line_numbers :=
  (EE_line_numbers outputAllSteps Minner).

Lemma EE_line_inv (t tinner : nat) (st : @EE_state world)
  (l : list (theta_line * dzA_line)) :
  EE_lines t tinner st = Some l ->
  exists st',
    inner st = Some st'
    /\ if outputAllSteps || Nat.eqb tinner 0
       then exists p,
              l = [p] /\ line_t (fst p) = uint_counter t
              /\ line_theta (fst p) = EE_theta st'
              /\ EE_line_shape p
       else l = [].
Proof.
  unfold EE_line. intros H.
  destruct (call_sampler _ _ _ _ _ _ _ _ _ _ _)
    as [[[[w1 r] dz] aux] |] eqn:Hs; [| discriminate].
  destruct (inner st) as [st' |] eqn:Hi; [| discriminate].
  exists st'. split; [reflexivity |].
  destruct (outputAllSteps || Nat.eqb tinner 0); injection H as <-;
    [| reflexivity].
  eexists. split; [reflexivity |]. simpl.
  split; [reflexivity |]. split; [reflexivity |].
  unfold EE_inner in Hi. rewrite Hs in Hi. injection Hi as <-.
  unfold EE_line_shape. simpl. rewrite !tabulate_length.
  repeat split; try reflexivity;
    destruct useIFD; try discriminate; try reflexivity;
    intros H; now destruct H.
Qed.

Lemma EE_line_some (t tinner : nat) (st st' : @EE_state world) :
  inner st = Some st' -> EE_lines t tinner st <> None.
Proof.
  unfold EE_line. intros H. rewrite H. revert H. unfold EE_inner.
  destruct (call_sampler _ _ _ _ _ _ _ _ _ _ _)
    as [[[[w1 r] dz] aux] |]; [| discriminate].
  intros _. destruct (outputAllSteps || Nat.eqb tinner 0); discriminate.
Qed.

Lemma outer_inner_loop (st st' : @EE_state world) :
  outer st = Some st' ->
  exists st1,
    iter_opt Minner inner
      {| EE_world := EE_world st; EE_theta := EE_theta st;
         EE_dzA := EE_dzA st; EE_D0 := EE_D0 st; EE_dzArc := EE_dzArc st;
         EE_ifd_aux_param := EE_ifd_aux_param st; EE_thetamatrix := [] |}
    = Some st1
    /\ EE_theta st' = EE_theta st1.
Proof.
  unfold EE_outer. intros H.
  destruct (iter_opt Minner inner _) as [st1 |]; [| discriminate].
  exists st1. split; [reflexivity |].
  destruct useBorisenko; [now injection H as <- |].
  destruct (tabulate_opt n _); [| discriminate]. now injection H as <-.
Qed.

Lemma EE_outer_lines_spec (Mouter : nat) :
  forall (touter : nat) (st st' : @EE_state world),
    iter_opt Mouter outer st = Some st' ->
    exists ls,
      outer_lines Mouter touter st = Some ls
      /\ map (fun p => line_t (fst p)) ls = EE_line_numbers Mouter touter
      /\ Forall EE_line_shape ls
      /\ (outputAllSteps = true -> 0 < Mouter -> 0 < Minner ->
          forall d, line_theta (fst (last ls d)) = EE_theta st').
Proof.
  induction Mouter as [| Mouter IH]; intros touter st st' Hloop.
  - exists []. simpl. repeat split; auto. intros _ H. lia.
  - simpl in Hloop.
    destruct (outer st) as [st2 |] eqn:Hout; [| discriminate].
    destruct (outer_inner_loop _ _ Hout) as [st1 [Hin Hth]].
    destruct (iter_lines_some _ _ inner
                (fun tinner s => EE_lines (touter * Minner + tinner) tinner s)
                (fun t a a' => EE_line_some _ t a a') Minner 0 _ _ Hin)
      as [l1 Hl1].
    destruct (IH (S touter) st2 st' Hloop) as [rest [Hrest [Hnum [Hshape Hlast]]]].
    exists (l1 ++ rest). simpl. rewrite Hl1, Hout, Hrest.
    split; [reflexivity |]. split; [| split].
    + rewrite map_app, Hnum. unfold EE_line_numbers. simpl. f_equal.
      apply (iter_lines_map _ _ _ (fun p => line_t (fst p))
               (fun tinner =>
                  if outputAllSteps || Nat.eqb tinner 0
                  then [uint_counter (touter * Minner + tinner)] else [])
               inner
               (fun tinner s =>
                  EE_lines (touter * Minner + tinner) tinner s))
        with (k := Minner) (t := 0) (a :=
          {| EE_world := EE_world st; EE_theta := EE_theta st;
             EE_dzA := EE_dzA st; EE_D0 := EE_D0 st;
             EE_dzArc := EE_dzArc st;
             EE_ifd_aux_param := EE_ifd_aux_param st;
             EE_thetamatrix := [] |}); [| exact Hl1].
      intros t a l Hl. destruct (EE_line_inv _ _ _ _ Hl) as [a' [_ Hcase]].
      destruct (outputAllSteps || Nat.eqb t 0).
      * destruct Hcase as [p [-> [Ht _]]]. simpl. now rewrite Ht.
      * now subst l.
    + apply Forall_app. split; [| exact Hshape].
      apply (iter_lines_Forall _ _ _ inner
               (fun tinner s =>
                  EE_lines (touter * Minner + tinner) tinner s))
        with (k := Minner) (t := 0) (a :=
          {| EE_world := EE_world st; EE_theta := EE_theta st;
             EE_dzA := EE_dzA st; EE_D0 := EE_D0 st;
             EE_dzArc := EE_dzArc st;
             EE_ifd_aux_param := EE_ifd_aux_param st;
             EE_thetamatrix := [] |}); [| exact Hl1].
      intros t a l Hl. destruct (EE_line_inv _ _ _ _ Hl) as [a' [_ Hcase]].
      destruct (outputAllSteps || Nat.eqb t 0).
      * destruct Hcase as [p [-> [_ [_ Hp]]]]. now constructor.
      * subst l. constructor.
    + intros Hall _ Hpos d.
      destruct Mouter as [| Mouter'].
      * simpl in Hloop, Hrest. injection Hloop as <-. injection Hrest as <-.
        rewrite app_nil_r, Hth.
        destruct Minner as [| k]; [lia |].
        apply (iter_lines_last _ _ _ (fun p => line_theta (fst p))
                 (@EE_theta world) inner
                 (fun tinner s =>
                    EE_lines (touter * S k + tinner) tinner s))
          with (k := k) (t := 0) (a :=
            {| EE_world := EE_world st; EE_theta := EE_theta st;
               EE_dzA := EE_dzA st; EE_D0 := EE_D0 st;
               EE_dzArc := EE_dzArc st;
               EE_ifd_aux_param := EE_ifd_aux_param st;
               EE_thetamatrix := [] |}); [| exact Hin | exact Hl1].
        intros t a a' l Hl Hb.
        destruct (EE_line_inv _ _ _ _ Hl) as [a2 [Hb2 Hcase]].
        rewrite Hb in Hb2. injection Hb2 as <-.
        rewrite Hall in Hcase. simpl in Hcase.
        destruct Hcase as [p [-> [_ [Hp _]]]]. now exists p.
      * specialize (Hlast Hall ltac:(lia) Hpos d).
        destruct rest as [| x rest].
        -- exfalso.
           assert (Hn : map (fun p : theta_line * dzA_line => line_t (fst p))
                          (@nil (theta_line * dzA_line))
                        = EE_line_numbers (S Mouter') (S touter))
             by exact Hnum.
           unfold EE_line_numbers in Hn. simpl in Hn.
           destruct Minner as [| k]; [lia |]. simpl in Hn.
           rewrite Hall in Hn. simpl in Hn. discriminate Hn.
        -- rewrite last_app_nonempty by discriminate. exact Hlast.
Qed.

(** A counter that has not reached [2^32] holds the number of its
    increments. *)
Lemma uint_counter_small (t : nat) :
  (Z.of_nat t < 2 ^ 32)%Z -> uint_counter t = Z.of_nat t.
Proof. intros H. unfold uint_counter. apply Z.mod_small. lia. Qed.

(** X24: the theta file and the dzA file of Algorithm EE.  When Algorithm
    EE returns, it has written to both files the same number of lines with
    the same numbers.  The numbers are those of the counter [t], a
    [uint_t] that is incremented in every inner iteration; as long as
    [Mouter * Minner] is at most [2^32] it does not wrap around, and then:
    with [outputAllSteps] there is a line for every inner iteration,
    numbered [0, 1, ..., Mouter * Minner - 1], and the last line of the
    theta file holds the [theta] that Algorithm EE returns; without it there
    is one line for every outer iteration, written by its first inner
    iteration and numbered [0, Minner, 2 * Minner, ...].  Every line holds
    [n] values, after the arc parameter (or [dzArc]) if and only if the IFD
    sampler is used. *)
Theorem algorithm_EE_lines_written (w w' : world) (Mouter : nat)
  (D0 theta theta' : list float) :
  (Z.of_nat (Mouter * Minner) <= 2 ^ 32)%Z ->
  algorithm_EE w n Mouter Minner sampler_m ACA compC D0 theta useIFD K
    useCond forbidRecip useBorisenko learningRate minTheta
    = Some (w', theta') ->
  exists ls,
    algorithm_EE_lines n sampler_m ACA useIFD K useCond forbidRecip
      arc_correction_val useBorisenko learningRate minTheta outputAllSteps
      Minner compC w Mouter D0 theta = Some ls
    /\ map (fun p => line_t (fst p)) ls
       = (if outputAllSteps then map Z.of_nat (seq 0 (Mouter * Minner))
          else if Nat.eqb Minner 0 then []
               else map (fun touter => Z.of_nat (touter * Minner))
                      (seq 0 Mouter))
    /\ Forall EE_line_shape ls
    /\ (outputAllSteps = true -> 0 < Mouter -> 0 < Minner ->
        forall d, line_theta (fst (last ls d)) = theta').
Proof.
  intros Hbound. unfold algorithm_EE, algorithm_EE_lines.
  destruct (iter_opt Mouter outer (EE_init n w D0 theta)) as [st' |] eqn:Hloop;
    [| discriminate].
  intros H. injection H as <- <-.
  destruct (EE_outer_lines_spec Mouter 0 _ _ Hloop)
    as [ls [Hls [Hnum [Hshape Hlast]]]].
  exists ls. split; [exact Hls |]. split; [| split; assumption].
  rewrite Hnum. unfold EE_line_numbers.
  destruct outputAllSteps; simpl.
  - rewrite (flat_map_ext _
               (fun b => map uint_counter (seq (b * Minner) Minner))).
    + rewrite <- map_flat_map.
      pose proof (seq_blocks Minner Mouter 0) as Hb. simpl in Hb.
      rewrite Hb. apply map_ext_in. intros t Ht. apply in_seq in Ht.
      apply uint_counter_small. lia.
    + intros b. apply (flat_map_seq_shift _ uint_counter (b * Minner) Minner).
  - rewrite (flat_map_ext _
               (fun b => if Nat.eqb Minner 0 then []
                         else [uint_counter (b * Minner)])).
    + destruct (Nat.eqb_spec Minner 0) as [Hz | Hnz].
      * apply flat_map_all_nil. intros; reflexivity.
      * rewrite flat_map_singleton. apply map_ext_in.
        intros b Hb. apply in_seq in Hb. apply uint_counter_small.
        assert (b * Minner < Mouter * Minner) by nia. lia.
    + intros b.
      rewrite (flat_map_seq_first _
                 (fun tinner => uint_counter (b * Minner + tinner)) Minner).
      now rewrite Nat.add_0_r.
Qed.

(** The pairs of lines of Algorithm EE have their shape, whether or not
    the run goes on to return. *)
Lemma EE_outer_lines_shape (Mouter : nat) :
  forall (touter : nat) (st : @EE_state world)
    (ls : list (theta_line * dzA_line)),
    outer_lines Mouter touter st = Some ls -> Forall EE_line_shape ls.
Proof.
  induction Mouter as [| Mouter IH]; intros touter st ls H; simpl in H.
  - injection H as <-. constructor.
  - destruct (iter_lines Minner inner _ 0 _) as [l1 |] eqn:Hl1;
      [| discriminate].
    destruct (outer st) as [st2 |]; [| discriminate].
    destruct (outer_lines Mouter (S touter) st2) as [rest |] eqn:Hrest;
      [| discriminate].
    injection H as <-. apply Forall_app. split; [| eapply IH; exact Hrest].
    revert Hl1. apply iter_lines_Forall.
    intros t a l Hl. destruct (EE_line_inv _ _ _ _ Hl) as [a' [_ Hcase]].
    destruct (outputAllSteps || Nat.eqb t 0).
    + destruct Hcase as [p [-> [_ [_ Hp]]]]. now constructor.
    + subst l. constructor.
Qed.

Lemma fold_header_append_none (ps : list string) :
  fold_left header_append ps None = None.
Proof. induction ps as [| p ps IH]; simpl; [reflexivity | exact IH]. Qed.

(** A header that fits its array is the texts in the order they were
    appended. *)
Lemma fold_header_append (ps : list string) (s h : string) :
  fold_left header_append ps (Some s) = Some h ->
  h = fold_left String.append ps s.
Proof.
  revert s. induction ps as [| p ps IH]; intros s H; simpl in *.
  - now injection H as <-.
  - destruct (String.length s + String.length p + 1 <=? HEADER_MAX).
    + now apply IH.
    + rewrite fold_header_append_none in H. discriminate.
Qed.

Lemma line_values_length (ln : theta_line) :
  List.length (line_theta ln) = n ->
  (line_arc ln <> None <-> useIFD = true) ->
  List.length (line_values ln) = (if useIFD then 1 else 0) + n.
Proof.
  intros Hth Harc. unfold line_values.
  destruct (line_arc ln) as [a |], useIFD; simpl; try lia.
  - destruct Harc as [Harc _]. discriminate Harc. discriminate.
  - destruct Harc as [_ Harc]. now destruct (Harc eq_refl).
Qed.

(** X25: the header of the two files against their lines.  The header is
    [t] followed by one name for the arc parameter of the IFD sampler and
    for every structural, attribute and dyadic parameter, in that order; it
    has no name for an attribute interaction parameter.  Every line of
    Algorithm S and of Algorithm EE has a value for each of the [n]
    parameters, so that its values outnumber the names of the header by the
    number of attribute interaction parameters. *)
Theorem header_against_lines (param_names : list string)
  (attr_params : list (string * string)) (dyadic_param_names : list string)
  (n_attr_interaction : nat) (h : string) :
  n = List.length param_names + List.length attr_params
      + List.length dyadic_param_names + n_attr_interaction ->
  fileheader useIFD param_names attr_params dyadic_param_names = Some h ->
  let names :=
    header_pieces useIFD param_names attr_params dyadic_param_names in
  h = fold_left String.append names "t"%string
  /\ List.length names
     = (if useIFD then 1 else 0) + List.length param_names
       + List.length attr_params + List.length dyadic_param_names
  /\ (forall w M1 ls,
        algorithm_S_lines n sampler_m ACA useIFD K useCond forbidRecip
          arc_correction_val w M1 = Some ls ->
        Forall (fun ln => List.length (line_values ln)
                          = List.length names + n_attr_interaction) ls)
  /\ (forall w Mouter D0 theta ls,
        algorithm_EE_lines n sampler_m ACA useIFD K useCond forbidRecip
          arc_correction_val useBorisenko learningRate minTheta
          outputAllSteps Minner compC w Mouter D0 theta = Some ls ->
        Forall (fun p => List.length (line_values (fst p))
                         = List.length names + n_attr_interaction) ls).
Proof.
  intros Hn Hh. cbv zeta.
  assert (Hlen : List.length
                   (header_pieces useIFD param_names attr_params
                      dyadic_param_names)
                 = (if useIFD then 1 else 0) + List.length param_names
                   + List.length attr_params
                   + List.length dyadic_param_names).
  { unfold header_pieces. rewrite !length_app, !length_map.
    destruct useIFD; simpl; lia. }
  split; [now apply fold_header_append |]. split; [exact Hlen |]. split.
  - intros w M1 ls Hls. unfold algorithm_S_lines in Hls.
    apply S_lines_shape in Hls.
    eapply Forall_impl; [| exact Hls]. intros ln [Hth Harc]. simpl.
    rewrite (line_values_length ln Hth Harc), Hlen. lia.
  - intros w Mouter D0 theta ls Hls. unfold algorithm_EE_lines in Hls.
    apply EE_outer_lines_shape in Hls.
    eapply Forall_impl; [| exact Hls].
    intros p (_ & Hth & _ & Harc & _). simpl.
    rewrite (line_values_length (fst p) Hth Harc), Hlen. lia.
Qed.

End Files.

(** The run of Algorithm S of [algorithm_S_example], with an arc correction
    of 0.5. *)
Lemma algorithm_S_lines_written_witness :
  exists ls,
    algorithm_S_lines (E := Linked.unit_engine) 1 1 0x1p-3%float true
      0x1p-3%float false false 0x1p-1%float Linked.one_arc_world 1 = Some ls
    /\ map line_t ls
       = map (fun t => (Z.of_nat t - Z.of_nat 1)%Z) (seq 0 1)
    /\ Forall (fun ln => List.length (line_theta ln) = 1
                         /\ (line_arc ln <> None <-> true = true)) ls
    /\ (0 < 1 -> forall d, line_theta (last ls d) = [(-0x1p-3)%float]).
Proof.
  refine (algorithm_S_lines_written (E := Linked.unit_engine) 1 1
            0x1p-3%float true 0x1p-3%float false false 0x1p-1%float
            Linked.one_arc_world _ 1 _ _ _ algorithm_S_example).
  vm_compute. discriminate.
Defined.

(** Algorithm EE on the graph with the arc [1 -> 0], with one unit change
    statistic: one outer iteration of two inner steps of one proposal each
    (the add move [0 -> 1], then the delete move of [1 -> 0], both accepted
    and performed), writing every step; [theta] goes to [-1/8] and to
    [-5/8]. *)
Lemma algorithm_EE_lines_written_witness :
  exists ls,
    algorithm_EE_lines (E := Linked.worked_engine) 1 1 0x1p-3%float true
      0x1p-3%float false false 0x1p-1%float false 0x1p-7%float 0x1p-7%float
      true 2 0x1p-7%float Linked.one_arc_world 1 [1%float] [0%float]
    = Some ls
    /\ map (fun p => line_theta (fst p)) ls
       = [[(-0x1p-3)%float]; [(-0x1.4p-1)%float]]
    /\ map (fun p => dline_dzA (snd p)) ls = [[1%float]; [2%float]]
    /\ map (fun p => line_t (fst p)) ls
       = map Z.of_nat (seq 0 (1 * 2))
    /\ Forall (EE_line_shape 1 true) ls
    /\ (true = true -> 0 < 1 -> 0 < 2 ->
        forall d, line_theta (fst (last ls d)) = [(-0x1.4p-1)%float]).
Proof.
  destruct (algorithm_EE (E := Linked.worked_engine) Linked.one_arc_world
              1 1 2 1 0x1p-3%float 0x1p-7%float [1%float] [0%float] true
              0x1p-3%float false false false 0x1p-7%float 0x1p-7%float)
    as [[w' theta'] |] eqn:HEE; [| vm_compute in HEE; discriminate HEE].
  destruct (algorithm_EE_lines_written (E := Linked.worked_engine) 1 1
              0x1p-3%float true 0x1p-3%float false false 0x1p-1%float false
              0x1p-7%float 0x1p-7%float true 2 0x1p-7%float
              Linked.one_arc_world w' 1 [1%float] [0%float] theta')
    as [ls (Hls & Hnum & Hshape & Hlast)].
  - vm_compute. discriminate.
  - exact HEE.
  - exists ls. split; [exact Hls |].
    pose proof Hls as Hc. vm_compute in Hc. injection Hc as Hc.
    split; [rewrite <- Hc; reflexivity |].
    split; [rewrite <- Hc; reflexivity |].
    split; [exact Hnum |]. split; [exact Hshape |].
    pose proof HEE as He. vm_compute in He. injection He as _ He.
    rewrite He. exact Hlast.
Defined.

(** An estimation with the IFD sampler, a structural parameter, an
    attribute parameter and an attribute interaction parameter: three
    parameters, and a header with names for two of them besides the arc
    parameter. *)
Lemma header_against_lines_witness :
  let names :=
    header_pieces true ["Reciprocity"%string]
      [("Sender"%string, "gender"%string)] [] in
  "t Arc Reciprocity Sender_gender"%string
  = fold_left String.append names "t"%string
  /\ List.length names = 1 + 1 + 1 + 0
  /\ (forall w M1 ls,
        algorithm_S_lines (E := Linked.example_engine) 3 1000 0x1p-3%float
          true 0x1p-3%float false false 0x1p-1%float w M1 = Some ls ->
        Forall (fun ln => List.length (line_values ln)
                          = List.length names + 1) ls)
  /\ (forall w Mouter D0 theta ls,
        algorithm_EE_lines (E := Linked.example_engine) 3 1000 0x1p-3%float
          true 0x1p-3%float false false 0x1p-1%float false 0x1p-7%float
          0x1p-7%float false 100 0x1p-7%float w Mouter D0 theta = Some ls ->
        Forall (fun p => List.length (line_values (fst p))
                         = List.length names + 1) ls).
Proof.
  apply (header_against_lines (E := Linked.example_engine) 3 1000
           0x1p-3%float true 0x1p-3%float false false 0x1p-1%float false
           0x1p-7%float 0x1p-7%float false 100 0x1p-7%float
           ["Reciprocity"%string] [("Sender"%string, "gender"%string)] []
           1 "t Arc Reciprocity Sender_gender"%string).
  - reflexivity.
  - vm_compute. reflexivity.
Defined.

End OutputFacts.
